(** * Sound Chat: FSK framing of text over audio

    A shallow embedding of [sender.py] (class [SoundSender]) and
    [receiver.py] (class [SoundReceiver]).

    Conventions of the embedding.
    - A Python [str] holding message text is the list of its code points
      ([list N]); strings of binary digits and decoded text are Rocq strings.
    - Audio samples are real numbers: the float64 rounding of numpy is not
      modelled, every arithmetic operation on samples is the exact one.
    - A Python float holding a duration is the rational value of a
      binary64 number. The product [sample_rate * duration] is rounded as
      float64 multiplication rounds it (to the nearest binary64 number,
      a tie going to the even significand) and [int(...)] truncates the
      rounded product toward zero. Detected frequencies are rationals.
    - A Python exception is the [Raise] outcome of the error monad
      [outcome]; [return None] after a diagnostic print is a [Failed]
      value carrying the diagnostic. *)

From Stdlib Require Import ZArith NArith QArith Qabs Qround Qreals Reals Lqa Lra Lia.
From Stdlib Require Import List String Ascii Bool DecimalString.
Import ListNotations.

Local Open Scope string_scope.
Local Open Scope Z_scope.

(** ** Python outcomes *)

Inductive exn : Type :=
| ValueError
| ZeroDivisionError
| OverflowError.

Inductive outcome (A : Type) : Type :=
| Ret (a : A)
| Raise (e : exn).

Arguments Ret {A} a.
Arguments Raise {A} e.

Definition bind {A B : Type} (m : outcome A) (k : A -> outcome B) : outcome B :=
  match m with
  | Ret a => k a
  | Raise e => Raise e
  end.

Notation "x <- m ;; k" := (bind m (fun x => k))
  (at level 61, m at next level, right associativity).

Fixpoint mapM {A B : Type} (f : A -> outcome B) (l : list A) : outcome (list B) :=
  match l with
  | [] => Ret []
  | a :: l' => b <- f a ;; bs <- mapM f l' ;; Ret (b :: bs)
  end.

(** ** Shared numeric helpers *)

(** [int(x)] on a float: truncation toward zero. *)
Definition int_of_float (x : Q) : Z := Z.quot (Qnum x) (Zpos (Qden x)).

(** The test [x < y] on rationals. *)
Definition Qltb (x y : Q) : bool := negb (Qle_bool y x).

(** [round(x)]: the nearest integer, a tie going to the even one. *)
Definition round_half_even (x : Q) : Z :=
  let below := Qfloor x in
  let rest := (x - inject_Z below)%Q in
  if Qltb rest (1 # 2) then below
  else if Qltb (1 # 2) rest then below + 1
  else if Z.even below then below else below + 1.

(** *** Floats

    A Python float is a binary64 number: a significand of 53 bits and a
    power of two between [2^-1074] and [2^971]. *)

(** [2^e] as a rational. *)
Definition pow2 (e : Z) : Q :=
  if 0 <=? e then inject_Z (2 ^ e) else 1 # Z.to_pos (2 ^ (- e)).

(** The exponent [k] with [2^k <= |x| < 2^(k+1)], for [x] other than 0. *)
Definition floor_log2 (x : Q) : Z :=
  let n := Z.abs (Qnum x) in
  let k := Z.log2 n - Z.log2 (Zpos (Qden x)) in
  if Qle_bool (pow2 k) (n # Qden x) then k else k - 1.

(** The binary64 number nearest to [x], a tie going to the even
    significand; the exponent is not bounded above here. *)
Definition round_to_float (x : Q) : Q :=
  if Qnum x =? 0 then 0%Q
  else
    let e := Z.max (floor_log2 x - 52) (-1074) in
    Qred (inject_Z (round_half_even (x / pow2 e)) * pow2 e).

(** The float of an exact value: the nearest binary64 number, or no
    finite float at all when that number is [2^1024] or beyond. *)
Definition to_float (x : Q) : option Q :=
  let y := round_to_float x in
  if Qle_bool (pow2 1024) (Qabs y) then None else Some y.

(** A decimal literal such as [0.1]: the binary64 number nearest to it. *)
Definition float_literal (x : Q) : Q := round_to_float x.

(** [int(n * x)] for an int [n] and a float [x]: [n] is converted to a
    float ([OverflowError] when it is too large), the product is rounded,
    and [int] truncates it ([OverflowError] when the product is infinite). *)
Definition int_of_product (n : Z) (x : Q) : outcome Z :=
  match to_float (inject_Z n) with
  | None => Raise OverflowError
  | Some a =>
      match to_float (a * x) with
      | None => Raise OverflowError
      | Some product => Ret (int_of_float product)
      end
  end.

(** [np.max]: raises on an empty array. *)
Definition np_max (a : list R) : outcome R :=
  match a with
  | [] => Raise ValueError
  | x :: rest => Ret (fold_left Rmax rest x)
  end.

(** [a * b] on arrays of equal length, element by element. *)
Fixpoint mul_arrays (a b : list R) : list R :=
  match a, b with
  | x :: a', y :: b' => (x * y)%R :: mul_arrays a' b'
  | _, _ => []
  end.

(** [np.linspace(start, stop, num, endpoint)]. *)
Definition linspace (start stop : R) (num : Z) (endpoint : bool) : outcome (list R) :=
  if num <? 0 then Raise ValueError
  else
    let div := if endpoint then num - 1 else num in
    let delta := (stop - start)%R in
    Ret (map (fun i : nat =>
                if 0 <? div then (INR i * (delta / IZR div) + start)%R
                else (INR i * delta + start)%R)
             (seq 0 (Z.to_nat num))).

(** [np.zeros(n)]. *)
Definition zeros (n : Z) : outcome (list R) :=
  if n <? 0 then Raise ValueError else Ret (repeat 0%R (Z.to_nat n)).

(** The protocol constants, set identically by both constructors. *)
Definition freq_0 : Z := 1000.
Definition freq_1 : Z := 2000.
Definition freq_start : Z := 500.
Definition freq_end : Z := 3000.

Record config : Type := Config {
  sample_rate : Z;
  bit_duration : Q
}.

Definition default_config : config := Config 44100 (float_literal (1 # 10)).

(** A text literal as a Python [str]. *)
Definition py_str (s : string) : list N := map N_of_ascii (list_ascii_of_string s).

(** ** sender.py *)

Module Sender.

(** [bin(n)] without its prefix: the binary digits, most significant first. *)
Fixpoint bin_pos (p : positive) (acc : string) : string :=
  match p with
  | xH => String "1" acc
  | xO p' => bin_pos p' (String "0" acc)
  | xI p' => bin_pos p' (String "1" acc)
  end.

Definition bin (n : N) : string :=
  match n with
  | N0 => "0"
  | Npos p => bin_pos p ""
  end.

Fixpoint fill (c : ascii) (n : nat) : string :=
  match n with
  | O => ""
  | S n' => String c (fill c n')
  end.

(** [format(n, '08b')]: zero-padded on the left to a minimum width of 8. *)
Definition format_08b (n : N) : string :=
  let digits := bin n in
  fill "0" (8 - String.length digits) ++ digits.

(** [text_to_binary]: [''.join(format(ord(char), '08b') for char in text)]. *)
Definition text_to_binary (text : list N) : string :=
  String.concat "" (map format_08b text).

(** [tone[:k] *= ramp]. *)
Definition mul_head (k : nat) (tone ramp : list R) : list R :=
  mul_arrays (firstn k tone) ramp ++ skipn k tone.

(** [tone[-k:] *= ramp], for [k > 0]. *)
Definition mul_tail (k : nat) (tone ramp : list R) : list R :=
  let cut := (List.length tone - k)%nat in
  firstn cut tone ++ mul_arrays (skipn cut tone) ramp.

Definition generate_tone (cfg : config) (frequency : Z) (duration : Q)
  : outcome (list R) :=
  samples <- int_of_product (sample_rate cfg) duration ;;
  t <- linspace 0 (Q2R duration) samples false ;;
  let tone := map (fun ti => sin (2 * PI * IZR frequency * ti)) t in
  let fade_samples := Z.min 100 (samples / 10) in
  if 0 <? fade_samples then
    fade_in <- linspace 0 1 fade_samples true ;;
    let tone := mul_head (Z.to_nat fade_samples) tone fade_in in
    fade_out <- linspace 1 0 fade_samples true ;;
    Ret (mul_tail (Z.to_nat fade_samples) tone fade_out)
  else Ret tone.

Definition bit_frequency (bit : ascii) : Z :=
  if Ascii.eqb bit "1" then freq_1 else freq_0.

Definition create_signal (cfg : config) (text : list N) : outcome (list R) :=
  let binary_data := text_to_binary text in
  start_tone <- generate_tone cfg freq_start (float_literal (2 # 10)) ;;
  silent_samples <- int_of_product (sample_rate cfg) (float_literal (1 # 10)) ;;
  silence <- zeros silent_samples ;;
  tones <- mapM (fun bit => generate_tone cfg (bit_frequency bit) (bit_duration cfg))
                (list_ascii_of_string binary_data) ;;
  end_tone <- generate_tone cfg freq_end (float_literal (2 # 10)) ;;
  let full_signal := List.concat ([start_tone; silence] ++ tones ++ [silence; end_tone]) in
  max_val <- np_max (map Rabs full_signal) ;;
  Ret (if Rlt_dec 0 max_val
       then map (fun x => (x / max_val * (8 / 10))%R) full_signal
       else full_signal).

End Sender.

(** ** receiver.py *)

Module Receiver.

Definition freq_tolerance : Q := 50.
Definition min_amplitude : R := (1 / 100)%R.

Inductive classification : Type :=
| START
| END
| ZERO
| ONE
| NOISE.

Definition classification_eqb (a b : classification) : bool :=
  match a, b with
  | START, START | END, END | ZERO, ZERO | ONE, ONE | NOISE, NOISE => true
  | _, _ => false
  end.

(** Indices of [range(0, stop, step)] for [step > 0]. *)
Definition py_range (stop step : nat) : list nat :=
  map (fun j => (j * step)%nat) (seq 0 ((stop + step - 1) / step)).

(** [a[lo:hi]] for [0 <= lo <= hi]: clipped at the end of the array. *)
Definition slice {A : Type} (lo hi : nat) (a : list A) : list A :=
  firstn (hi - lo) (skipn lo a).

(** [np.hanning(M)]. *)
Definition hanning (M : nat) : list R :=
  match M with
  | O => []
  | S O => [1%R]
  | _ =>
      map (fun k : nat =>
             (1 / 2 + 1 / 2 *
                cos (PI * IZR (1 - Z.of_nat M + 2 * Z.of_nat k) / IZR (Z.of_nat M - 1)))%R)
          (seq 0 M)
  end.

(** [sum(x[n] * w(n))] over the array, [n] counted from [n0]. *)
Fixpoint weighted_sum (w : nat -> R) (x : list R) (n0 : nat) : R :=
  match x with
  | [] => 0%R
  | xn :: rest => (xn * w n0 + weighted_sum w rest (S n0))%R
  end.

(** [scipy.fft.fft] of a real array: bin [k] is
    [sum(x[n] * exp(-2j*pi*k*n/N))], kept as (real, imaginary). *)
Definition fft (x : list R) : list (R * R) :=
  let N := List.length x in
  map (fun k : nat =>
         (weighted_sum (fun n => cos (2 * PI * INR k * INR n / INR N)) x 0,
          weighted_sum (fun n => (- sin (2 * PI * INR k * INR n / INR N))%R) x 0))
      (seq 0 N).

(** [np.abs] of a complex number. *)
Definition cabs (z : R * R) : R := sqrt (fst z * fst z + snd z * snd z).

(** [scipy.fft.fftfreq(n, d)]: bins [0 .. (n-1)//2] then [-(n//2) .. -1],
    each times [1.0 / (n * d)]. *)
Definition fftfreq (n : nat) (d : Q) : list Q :=
  let val := (1 / (inject_Z (Z.of_nat n) * d))%Q in
  let N := ((n - 1) / 2 + 1)%nat in
  map (fun k : nat => (inject_Z (Z.of_nat k) * val)%Q) (seq 0 N)
  ++ map (fun k : nat => (inject_Z (Z.of_nat k - Z.of_nat (n / 2)) * val)%Q)
         (seq 0 (n / 2)).

(** [np.argmax]: the first index holding the maximum. *)
Fixpoint argmax_from (a : list R) (i best_i : nat) (best : R) : nat :=
  match a with
  | [] => best_i
  | x :: rest =>
      if Rlt_dec best x then argmax_from rest (S i) i x
      else argmax_from rest (S i) best_i best
  end.

Definition np_argmax (a : list R) : nat :=
  match a with
  | [] => O
  | x :: rest => argmax_from rest 1 0 x
  end.

(** The magnitude spectrum of the windowed chunk, non-negative bins only. *)
Definition magnitude_spectrum (audio_chunk : list R) : list R :=
  let windowed := mul_arrays audio_chunk (hanning (List.length audio_chunk)) in
  let fft_data := fft windowed in
  map cabs (firstn (List.length fft_data / 2) fft_data).

Definition detect_dominant_frequency (cfg : config) (audio_chunk : list R)
  : outcome Q :=
  if (List.length audio_chunk =? 0)%nat then Ret 0%Q
  else
    let magnitude := magnitude_spectrum audio_chunk in
    if sample_rate cfg =? 0 then Raise ZeroDivisionError
    else
      let freqs := fftfreq (List.length audio_chunk) (1 / inject_Z (sample_rate cfg)) in
      let freqs := firstn (List.length freqs / 2) freqs in
      peak <- np_max magnitude ;;
      if Rlt_dec peak min_amplitude then Ret 0%Q
      else
        let peak_idx := np_argmax magnitude in
        Ret (Qabs (nth peak_idx freqs 0%Q)).

(** One tolerance test of the classifier: [abs(freq - center) < freq_tolerance]. *)
Definition within_tolerance (freq : Q) (center : Z) : bool :=
  Qltb (Qabs (freq - inject_Z center)) freq_tolerance.

Definition classify_frequency (freq : Q) : classification :=
  if within_tolerance freq freq_start then START
  else if within_tolerance freq freq_end then END
  else if within_tolerance freq freq_0 then ZERO
  else if within_tolerance freq freq_1 then ONE
  else NOISE.

(** [s.ljust(width, fillchar)]. *)
Definition ljust (width : nat) (fillchar : ascii) (s : string) : string :=
  s ++ Sender.fill fillchar (width - String.length s).

(** [int(byte, 2)] on a string of the digits 0 and 1, the only strings the
    decoder builds; on any other character the model raises [ValueError]. *)
Fixpoint int_base2_from (acc : N) (s : string) : outcome N :=
  match s with
  | EmptyString => Ret acc
  | String c rest =>
      if Ascii.eqb c "0" then int_base2_from (2 * acc)%N rest
      else if Ascii.eqb c "1" then int_base2_from (2 * acc + 1)%N rest
      else Raise ValueError
  end.

Definition int_base2 (s : string) : outcome N :=
  match s with
  | EmptyString => Raise ValueError
  | _ => int_base2_from 0%N s
  end.

(** [f"{n}"]: the decimal digits of [n]. *)
Definition decimal (n : N) : string := NilEmpty.string_of_uint (N.to_uint n).

(** The text appended for one character code. *)
Definition render_code (char_code : N) : string :=
  if ((32 <=? char_code) && (char_code <=? 126))%N
  then String (ascii_of_N char_code) ""
  else "[" ++ decimal char_code ++ "]".

(** The body of the loop [for i in range(0, len(binary_str), 8)]. *)
Fixpoint decode_bytes (binary_str : string) (indices : list nat) (text : string)
  : outcome string :=
  match indices with
  | [] => Ret text
  | i :: rest =>
      let byte := substring i 8 binary_str in
      if (String.length byte =? 8)%nat then
        char_code <- int_base2 byte ;;
        decode_bytes binary_str rest (text ++ render_code char_code)
      else decode_bytes binary_str rest text
  end.

Definition binary_to_text (binary_str : string) : outcome string :=
  let binary_str :=
    if negb (String.length binary_str mod 8 =? 0)%nat
    then ljust ((String.length binary_str + 7) / 8 * 8) "0" binary_str
    else binary_str in
  decode_bytes binary_str (py_range (String.length binary_str) 8) "".

(** What [process_audio] hands back: the message, or [None] after one of
    its diagnostics ("No START signal found", "No data bits found",
    "Error converting binary to text"). *)
Inductive diagnostic : Type :=
| NoStartSignal
| EmptyPayload
| ConversionError.

Inductive decoded : Type :=
| Message (text : string)
| Failed (why : diagnostic).

(** Chunking: [for i in range(0, len(audio_data), chunk_size)], keeping the
    chunks that are at least half full. *)
Definition split_chunks (chunk_size : Z) (audio_data : list R)
  : outcome (list (list R)) :=
  if chunk_size =? 0 then Raise ValueError
  else if chunk_size <? 0 then Ret []
  else
    let size := Z.to_nat chunk_size in
    Ret (filter (fun chunk => (size / 2 <=? List.length chunk)%nat)
           (map (fun i => slice i (i + size) audio_data)
                (py_range (List.length audio_data) size))).

Definition analyze_chunk (cfg : config) (chunk : list R)
  : outcome (Q * classification) :=
  freq <- detect_dominant_frequency cfg chunk ;;
  Ret (freq, classify_frequency freq).

(** The boundary loop: the first START, then the first END after it. *)
Fixpoint find_boundaries (classifications : list (Q * classification))
    (i : nat) (start_idx : option nat) : option nat * option nat :=
  match classifications with
  | [] => (start_idx, None)
  | (_, c) :: rest =>
      match c, start_idx with
      | START, None => find_boundaries rest (S i) (Some i)
      | END, Some _ => (start_idx, Some i)
      | _, _ => find_boundaries rest (S i) start_idx
      end
  end.

Definition class_at (classifications : list (Q * classification)) (i : nat)
  : classification :=
  snd (nth i classifications (0%Q, NOISE)).

(** [while data_start < len(classifications) and
          classifications[data_start][1] == 'NOISE': data_start += 1]. *)
Fixpoint skip_noise_after (fuel : nat) (classifications : list (Q * classification))
    (data_start : nat) : nat :=
  match fuel with
  | O => data_start
  | S fuel' =>
      if (data_start <? List.length classifications)%nat
         && classification_eqb (class_at classifications data_start) NOISE
      then skip_noise_after fuel' classifications (S data_start)
      else data_start
  end.

(** [while data_end > data_start and
          classifications[data_end-1][1] == 'NOISE': data_end -= 1]. *)
Fixpoint skip_noise_before (classifications : list (Q * classification))
    (data_start data_end : nat) : nat :=
  match data_end with
  | O => O
  | S before =>
      if (data_start <? data_end)%nat
         && classification_eqb (class_at classifications before) NOISE
      then skip_noise_before classifications data_start before
      else data_end
  end.

(** The guess made for a NOISE chunk of the payload. *)
Definition guess_bit (freq : Q) : string :=
  if Qltb (Qabs (freq - inject_Z freq_0)) (Qabs (freq - inject_Z freq_1))
  then "0" else "1".

(** What one payload chunk adds to [binary_data]. *)
Definition chunk_bits (entry : Q * classification) : string :=
  let (freq, c) := entry in
  match c with
  | ZERO => "0"
  | ONE => "1"
  | NOISE => guess_bit freq
  | START | END => ""
  end.

(** [for i in range(data_start, data_end)]. *)
Definition extract_bits (classifications : list (Q * classification))
    (data_start data_end : nat) : string :=
  fold_left
    (fun binary_data i => binary_data ++ chunk_bits (nth i classifications (0%Q, NOISE)))
    (seq data_start (data_end - data_start)) "".

(** [process_audio] from the boundary search on. *)
Definition decode_classifications (classifications : list (Q * classification))
  : decoded :=
  match find_boundaries classifications 0 None with
  | (None, _) => Failed NoStartSignal
  | (Some start_idx, found_end) =>
      let end_idx :=
        match found_end with
        | Some i => i
        | None => List.length classifications
        end in
      let data_start :=
        skip_noise_after (List.length classifications) classifications (start_idx + 1) in
      let data_end := skip_noise_before classifications data_start end_idx in
      let binary_data := extract_bits classifications data_start data_end in
      if (String.length binary_data =? 0)%nat then Failed EmptyPayload
      else
        match binary_to_text binary_data with
        | Ret message => Message message
        | Raise _ => Failed ConversionError
        end
  end.

Definition process_audio (cfg : config) (audio_data : list R) : outcome decoded :=
  samples_per_bit <- int_of_product (sample_rate cfg) (bit_duration cfg) ;;
  chunks <- split_chunks samples_per_bit audio_data ;;
  classifications <- mapM (analyze_chunk cfg) chunks ;;
  Ret (decode_classifications classifications).

End Receiver.

(** ** The callers: playing and recording *)

(** What a call to the sound library gives back: its result, or an error
    raised by the library. *)
Inductive device_result (A : Type) : Type :=
| Done (a : A)
| DeviceError.

Arguments Done {A} a.
Arguments DeviceError {A}.

(** The calls made to [sounddevice]: [query_devices()], [play(signal,
    samplerate)] followed by [wait()], and [rec(frames, samplerate)]
    followed by [wait()] and [flatten()]. *)
Record sound_device : Type := SoundDevice {
  query_devices : device_result unit;
  play : list R -> Z -> device_result unit;
  rec : Z -> Z -> device_result (list R)
}.

(** [c.isspace()] for one code point. *)
Definition is_space (c : N) : bool :=
  ((9 <=? c) && (c <=? 13) || (28 <=? c) && (c <=? 32)
   || (c =? 133) || (c =? 160) || (c =? 5760)
   || (8192 <=? c) && (c <=? 8202)
   || (c =? 8232) || (c =? 8233) || (c =? 8239) || (c =? 8287) || (c =? 12288))%N.

Fixpoint lstrip (text : list N) : list N :=
  match text with
  | c :: rest => if is_space c then lstrip rest else text
  | [] => []
  end.

(** [text.strip()]. *)
Definition strip (text : list N) : list N := rev (lstrip (rev (lstrip text))).

(** [send_message]: [False] for a blank text or when anything raises,
    [True] once the signal has been played. *)
Definition send_message (device : sound_device) (cfg : config) (text : list N)
  : bool :=
  if (List.length (strip text) =? 0)%nat then false
  else
    match Sender.create_signal cfg text with
    | Raise _ => false
    | Ret signal =>
        match query_devices device with
        | DeviceError => false
        | Done _ =>
            match play device signal (sample_rate cfg) with
            | DeviceError => false
            | Done _ => true
            end
        end
    end.

(** [listen_for_message], with the receiver's [timeout] in seconds: the
    decoded message, or [None]. *)
Definition listen_for_message (device : sound_device) (cfg : config) (timeout : Z)
  : option string :=
  match query_devices device with
  | DeviceError => None
  | Done _ =>
      match rec device (timeout * sample_rate cfg) (sample_rate cfg) with
      | DeviceError => None
      | Done audio_data =>
          match audio_data with
          | [] => None
          | _ =>
              match Receiver.process_audio cfg audio_data with
              | Ret (Receiver.Message message) =>
                  if (String.length message =? 0)%nat then None else Some message
              | _ => None
              end
          end
      end
  end.

(** ** Notions used to state the properties *)

(** The string made of the characters of a text of code points. *)
Definition text_string (text : list N) : string :=
  string_of_list_ascii (map ascii_of_N text).

(** The four named frequencies, in the order the classifier tests them. *)
Definition named_frequencies : list Z := [freq_start; freq_end; freq_0; freq_1].

(** The real-valued tolerance window around a named frequency. *)
Definition in_window (x : R) (center : Z) : Prop :=
  (Rabs (x - IZR center) < Q2R Receiver.freq_tolerance)%R.

(** The text codec as the specification words it. *)
Module CodecSpec.

(** A string made of the symbols 0 and 1 only. *)
Fixpoint is_binary (s : string) : bool :=
  match s with
  | EmptyString => true
  | String c rest => (Ascii.eqb c "0" || Ascii.eqb c "1") && is_binary rest
  end.

(** The unsigned integer a group of binary digits denotes, most
    significant digit first. *)
Fixpoint unsigned_value (s : string) : N :=
  match s with
  | EmptyString => 0%N
  | String c rest =>
      ((if Ascii.eqb c "1" then 2 ^ N.of_nat (String.length rest) else 0)
       + unsigned_value rest)%N
  end.

(** Right-padding with the symbol 0 up to the next multiple of 8. *)
Definition pad_to_bytes (bits : string) : string :=
  bits ++ Sender.fill "0" ((8 - String.length bits mod 8) mod 8).

(** The partition into groups of 8 symbols, in order. *)
Fixpoint groups_of_8 (bits : string) : list string :=
  match bits with
  | String a (String b (String c (String d
      (String e (String f (String g (String h rest))))))) =>
      String a (String b (String c (String d
        (String e (String f (String g (String h ""))))))) :: groups_of_8 rest
  | _ => []
  end.

(** A printable value gives its character, any other value the bracketed
    decimal placeholder. *)
Definition character_or_placeholder (value : N) : string :=
  if ((32 <=? value) && (value <=? 126))%N
  then String (ascii_of_N value) ""
  else "[" ++ Receiver.decimal value ++ "]".

Definition decode (bits : string) : string :=
  String.concat ""
    (map (fun group => character_or_placeholder (unsigned_value group))
         (groups_of_8 (pad_to_bytes bits))).

End CodecSpec.

(** A configuration with four samples per bit (2000 Hz, 2 ms per bit):
    the spectrum of a chunk has the two bins 0 Hz and 500 Hz. *)
Definition narrow_config : config := Config 2000 (float_literal (1 # 500)).

(** The classification sequence of a frame whose chunks are each detected
    at their nominal frequency, when one chunk lasts 0.1 s: the 0.2 s
    start tone fills two chunks, each 0.1 s silence one chunk with the
    sentinel frequency 0, each bit tone one chunk, the end tone two. *)
Definition nominal_chunk (freq : Z) : Q * Receiver.classification :=
  (inject_Z freq, Receiver.classify_frequency (inject_Z freq)).

(** The chunks of the payload of a nominal frame. *)
Definition bit_chunks (bits : string) : list (Q * Receiver.classification) :=
  map (fun bit => nominal_chunk (Sender.bit_frequency bit)) (list_ascii_of_string bits).

Definition nominal_frame (bits : string) : list (Q * Receiver.classification) :=
  [nominal_chunk freq_start; nominal_chunk freq_start; nominal_chunk 0]
  ++ bit_chunks bits
  ++ [nominal_chunk 0; nominal_chunk freq_end; nominal_chunk freq_end].

(** The sum of [f n] over the [len] indices from [a] on: the sums of the
    discrete Fourier transform, written over the sample index. *)
Fixpoint sum_over (f : nat -> R) (a len : nat) : R :=
  match len with
  | O => 0
  | S len' => f a + sum_over f (S a) len'
  end.

(** The angle of bin [m] of an [N]-point transform. *)
Definition bin_angle (N m : nat) : R := 2 * PI * INR m / INR N.

(** A pure tone at bin [k0] of an [N]-point transform, of amplitude [a],
    under the periodic Hann window. *)
Definition windowed_tone (a : R) (N k0 n : nat) : R :=
  a * (sin (INR n * bin_angle N k0) * (1 / 2 - 1 / 2 * cos (INR n * bin_angle N 1))).

(** * Properties *)

(** ** The scenarios of the specification, evaluated *)

Example text_to_binary_HI :
  Sender.text_to_binary (py_str "HI") = "0100100001001001".
Proof. reflexivity. Qed.

Example binary_to_text_HI :
  Receiver.binary_to_text "0100100001001001" = Ret "HI".
Proof. reflexivity. Qed.

Example binary_to_text_7 :
  Receiver.binary_to_text "00000111" = Ret "[7]".
Proof. reflexivity. Qed.

Example classify_550 : Receiver.classify_frequency 550 = Receiver.NOISE.
Proof. reflexivity. Qed.

(** ** Strings and rational comparisons *)

Section StringFacts.

Lemma append_nil_r (s : string) : s ++ "" = s.
Proof. induction s as [|c s IH]; simpl; congruence. Qed.

Lemma append_assoc (a b c : string) : (a ++ b) ++ c = a ++ (b ++ c).
Proof. induction a as [|x a IH]; simpl; congruence. Qed.

Lemma append_length (a b : string) :
  String.length (a ++ b) = (String.length a + String.length b)%nat.
Proof. induction a as [|x a IH]; simpl; congruence. Qed.

Lemma fill_length (c : ascii) (n : nat) : String.length (Sender.fill c n) = n.
Proof. induction n as [|n IH]; simpl; congruence. Qed.

End StringFacts.

Lemma Qltb_lt (x y : Q) : Qltb x y = true <-> (x < y)%Q.
Proof.
  unfold Qltb. rewrite negb_true_iff. split.
  - intros H. apply Qnot_le_lt. intros Hle.
    apply Qle_bool_iff in Hle. congruence.
  - intros H. destruct (Qle_bool y x) eqn:E; [|reflexivity].
    apply Qle_bool_iff in E. exfalso. exact (Qlt_not_le _ _ H E).
Qed.

Lemma Qltb_ge (x y : Q) : Qltb x y = false <-> (y <= x)%Q.
Proof.
  unfold Qltb. rewrite negb_false_iff. apply Qle_bool_iff.
Qed.

(** ** The frequency classifier *)

Section ClassifierFacts.
Import Receiver.

Lemma freq_tolerance_real : Q2R freq_tolerance = 50%R.
Proof. unfold freq_tolerance, Q2R. simpl. lra. Qed.

Lemma within_tolerance_lt (freq : Q) (center : Z) :
  within_tolerance freq center = true
  <-> (Qabs (freq - inject_Z center) < freq_tolerance)%Q.
Proof. unfold within_tolerance. apply Qltb_lt. Qed.

Lemma within_tolerance_bounds (freq : Q) (center : Z) :
  within_tolerance freq center = true
  <-> (inject_Z center - 50 < freq /\ freq < inject_Z center + 50)%Q.
Proof.
  rewrite within_tolerance_lt, Qabs_Qlt_condition. unfold freq_tolerance.
  split; intros [H1 H2]; split; Lqa.lra.
Qed.

Lemma outside_tolerance_bounds (freq : Q) (center : Z) :
  within_tolerance freq center = false
  <-> (freq <= inject_Z center - 50 \/ inject_Z center + 50 <= freq)%Q.
Proof.
  split.
  - intros H.
    destruct (Qlt_le_dec (inject_Z center - 50) freq) as [Hlo|Hlo]; [|now left].
    destruct (Qlt_le_dec freq (inject_Z center + 50)) as [Hhi|Hhi]; [|now right].
    assert (Ht : within_tolerance freq center = true)
      by (apply within_tolerance_bounds; split; assumption).
    congruence.
  - intros H. destruct (within_tolerance freq center) eqn:E; [|reflexivity].
    apply within_tolerance_bounds in E. destruct E as [E1 E2].
    destruct H as [H|H]; exfalso; Lqa.lra.
Qed.

(** The classifier's test on a rational is the real window at that rational. *)
Lemma within_tolerance_in_window (freq : Q) (center : Z) :
  within_tolerance freq center = true <-> in_window (Q2R freq) center.
Proof.
  unfold in_window. rewrite within_tolerance_bounds, freq_tolerance_real.
  assert (Hc : Q2R (inject_Z center) = IZR center)
    by (unfold Q2R, inject_Z; simpl; lra).
  split.
  - intros [H1 H2]. apply Qlt_Rlt in H1, H2.
    rewrite Q2R_minus in H1. rewrite Q2R_plus in H2. rewrite Hc in H1, H2.
    replace (Q2R 50) with 50%R in H1, H2 by (unfold Q2R; simpl; lra).
    apply Rabs_def1; lra.
  - intros H. apply Rabs_def2 in H. destruct H as [H1 H2].
    split; apply Rlt_Qlt.
    + rewrite Q2R_minus, Hc.
      replace (Q2R 50) with 50%R by (unfold Q2R; simpl; lra). lra.
    + rewrite Q2R_plus, Hc.
      replace (Q2R 50) with 50%R by (unfold Q2R; simpl; lra). lra.
Qed.

Lemma named_cases (c : Z) :
  In c named_frequencies -> c = 500 \/ c = 3000 \/ c = 1000 \/ c = 2000.
Proof.
  unfold named_frequencies, freq_start, freq_end, freq_0, freq_1. simpl.
  intuition.
Qed.

End ClassifierFacts.

Section Classifier.
Import Receiver.

Lemma windows_exclude (freq : Q) (c1 c2 : Z) :
  In c1 named_frequencies -> In c2 named_frequencies ->
  within_tolerance freq c1 = true -> within_tolerance freq c2 = true ->
  c1 = c2.
Proof.
  intros H1 H2 W1 W2.
  apply within_tolerance_bounds in W1, W2.
  apply named_cases in H1, H2.
  destruct H1 as [?|[?|[?|?]]], H2 as [?|[?|[?|?]]]; subst;
    try reflexivity; exfalso; unfold inject_Z in *; Lqa.lra.
Qed.

(** C8. With the named frequencies 500, 1000, 2000 and 3000 Hz and a
    tolerance of 50 Hz, no real frequency lies within tolerance of two
    distinct named frequencies, and for every frequency given to the
    classifier at most one of its four tolerance tests succeeds. *)
Theorem tolerance_windows_disjoint :
  (forall (x : R) (c1 c2 : Z),
      In c1 named_frequencies -> In c2 named_frequencies ->
      in_window x c1 -> in_window x c2 -> c1 = c2)
  /\ (forall freq : Q,
         (List.length (filter (within_tolerance freq) named_frequencies) <= 1)%nat).
Proof.
  split.
  - intros x c1 c2 H1 H2 W1 W2. unfold in_window in *.
    rewrite freq_tolerance_real in *.
    apply Rabs_def2 in W1, W2.
    apply named_cases in H1, H2.
    destruct H1 as [?|[?|[?|?]]], H2 as [?|[?|[?|?]]]; subst;
      try reflexivity; exfalso; lra.
  - intros freq.
    assert (Hx : forall c1 c2, In c1 named_frequencies -> In c2 named_frequencies ->
              within_tolerance freq c1 = true -> within_tolerance freq c2 = true ->
              c1 = c2) by (intros; eapply windows_exclude; eassumption).
    unfold named_frequencies in *. simpl.
    destruct (within_tolerance freq freq_start) eqn:E1;
    destruct (within_tolerance freq freq_end) eqn:E2;
    destruct (within_tolerance freq freq_0) eqn:E3;
    destruct (within_tolerance freq freq_1) eqn:E4; simpl; try lia; exfalso.
    all: try (specialize (Hx freq_start freq_end); simpl in Hx;
              assert (freq_start = freq_end) by intuition; discriminate).
    all: try (specialize (Hx freq_start freq_0); simpl in Hx;
              assert (freq_start = freq_0) by intuition; discriminate).
    all: try (specialize (Hx freq_start freq_1); simpl in Hx;
              assert (freq_start = freq_1) by intuition; discriminate).
    all: try (specialize (Hx freq_end freq_0); simpl in Hx;
              assert (freq_end = freq_0) by intuition; discriminate).
    all: try (specialize (Hx freq_end freq_1); simpl in Hx;
              assert (freq_end = freq_1) by intuition; discriminate).
    all: try (specialize (Hx freq_0 freq_1); simpl in Hx;
              assert (freq_0 = freq_1) by intuition; discriminate).
Qed.

Lemma tolerance_windows_disjoint_witness :
  In freq_0 named_frequencies /\ in_window 1020 freq_0 /\ freq_0 = freq_0.
Proof.
  assert (Hin : In freq_0 named_frequencies) by (simpl; auto).
  assert (Hw : in_window 1020 freq_0).
  { unfold in_window. rewrite freq_tolerance_real. unfold freq_0.
    apply Rabs_def1; lra. }
  split; [exact Hin|]. split; [exact Hw|].
  exact (proj1 tolerance_windows_disjoint 1020%R freq_0 freq_0 Hin Hin Hw Hw).
Defined.

Lemma boundary_cases (freq : Q) (c : Z) :
  (Qabs (freq - inject_Z c) == freq_tolerance)%Q ->
  (freq == inject_Z c + 50 \/ freq == inject_Z c - 50)%Q.
Proof.
  unfold freq_tolerance. intros H.
  destruct (Qlt_le_dec (freq - inject_Z c) 0) as [Hn|Hp].
  - right. rewrite Qabs_neg in H by Lqa.lra. Lqa.lra.
  - left. rewrite Qabs_pos in H by exact Hp. Lqa.lra.
Qed.

(** C10. The tolerance windows are open: a frequency exactly 50 Hz away
    from a named frequency (550, 1050, 1950 Hz, ...) is classified NOISE,
    because the comparison with the tolerance is strict. *)
Theorem tolerance_boundary_is_noise :
  forall (freq : Q) (c : Z),
    In c named_frequencies ->
    (Qabs (freq - inject_Z c) == freq_tolerance)%Q ->
    classify_frequency freq = NOISE.
Proof.
  intros freq c Hc Hb.
  apply boundary_cases in Hb. apply named_cases in Hc.
  assert (E1 : within_tolerance freq freq_start = false).
  { apply outside_tolerance_bounds. unfold freq_start.
    destruct Hc as [?|[?|[?|?]]], Hb as [Hb|Hb]; subst;
      unfold inject_Z in *; (left; Lqa.lra) || (right; Lqa.lra). }
  assert (E2 : within_tolerance freq freq_end = false).
  { apply outside_tolerance_bounds. unfold freq_end.
    destruct Hc as [?|[?|[?|?]]], Hb as [Hb|Hb]; subst;
      unfold inject_Z in *; (left; Lqa.lra) || (right; Lqa.lra). }
  assert (E3 : within_tolerance freq freq_0 = false).
  { apply outside_tolerance_bounds. unfold freq_0.
    destruct Hc as [?|[?|[?|?]]], Hb as [Hb|Hb]; subst;
      unfold inject_Z in *; (left; Lqa.lra) || (right; Lqa.lra). }
  assert (E4 : within_tolerance freq freq_1 = false).
  { apply outside_tolerance_bounds. unfold freq_1.
    destruct Hc as [?|[?|[?|?]]], Hb as [Hb|Hb]; subst;
      unfold inject_Z in *; (left; Lqa.lra) || (right; Lqa.lra). }
  unfold classify_frequency. rewrite E1, E2, E3, E4. reflexivity.
Qed.

Lemma tolerance_boundary_is_noise_witness :
  classify_frequency 550 = NOISE
  /\ classify_frequency 1050 = NOISE
  /\ classify_frequency 1950 = NOISE.
Proof.
  split; [|split].
  - apply (tolerance_boundary_is_noise 550 freq_start); [simpl; auto|reflexivity].
  - apply (tolerance_boundary_is_noise 1050 freq_0); [simpl; auto|reflexivity].
  - apply (tolerance_boundary_is_noise 1950 freq_1); [simpl; auto|reflexivity].
Defined.

End Classifier.

(** ** Bit extraction *)

Section Extraction.
Import Receiver.

Lemma fold_bits_acc (cls : list (Q * classification)) (idx : list nat) (acc : string) :
  fold_left (fun binary_data i => binary_data ++ chunk_bits (nth i cls (0%Q, NOISE)))
            idx acc
  = acc ++ fold_left
             (fun binary_data i => binary_data ++ chunk_bits (nth i cls (0%Q, NOISE)))
             idx "".
Proof.
  revert acc. induction idx as [|i idx IH]; intros acc; simpl.
  - now rewrite append_nil_r.
  - rewrite IH. rewrite (IH (chunk_bits _)). now rewrite append_assoc.
Qed.

Lemma extract_bits_split (cls : list (Q * classification)) (a b c : nat) :
  (a <= b <= c)%nat ->
  extract_bits cls a c = extract_bits cls a b ++ extract_bits cls b c.
Proof.
  intros H. unfold extract_bits.
  replace (c - a)%nat with ((b - a) + (c - b))%nat by lia.
  rewrite seq_app, fold_left_app.
  replace (a + (b - a))%nat with b by lia.
  apply fold_bits_acc.
Qed.

Lemma extract_bits_one (cls : list (Q * classification)) (i : nat) :
  extract_bits cls i (S i) = chunk_bits (nth i cls (0%Q, NOISE)).
Proof.
  unfold extract_bits. replace (S i - i)%nat with 1%nat by lia. reflexivity.
Qed.

Lemma guess_bit_zero_iff (freq : Q) : guess_bit freq = "0" <-> (freq < 1500)%Q.
Proof.
  unfold guess_bit, freq_0, freq_1.
  destruct (Qltb _ _) eqn:E.
  - split; [intros _|reflexivity]. apply Qltb_lt in E.
    revert E. unfold inject_Z.
    apply Qabs_case; intros H1; apply Qabs_case; intros H2 E; Lqa.lra.
  - split; [discriminate|]. intros Hf. exfalso. apply Qltb_ge in E.
    revert E. unfold inject_Z.
    apply Qabs_case; intros H1; apply Qabs_case; intros H2 E; Lqa.lra.
Qed.

(** C5. A payload chunk classified NOISE contributes the bit whose named
    frequency (1000 Hz for 0, 2000 Hz for 1) is nearer to the chunk's
    dominant frequency, a tie giving 1; the fallback always yields one bit.
    A chunk at 1300 Hz is NOISE and yields the bit 0. *)
Theorem noise_fallback_nearest_bit :
  (forall cls data_start data_end i freq,
      (data_start <= i < data_end)%nat ->
      nth_error cls i = Some (freq, NOISE) ->
      extract_bits cls data_start data_end
      = extract_bits cls data_start i
        ++ (if Qltb (Qabs (freq - inject_Z freq_0)) (Qabs (freq - inject_Z freq_1))
            then "0" else "1")
        ++ extract_bits cls (S i) data_end)
  /\ (forall freq,
         (Qabs (freq - inject_Z freq_0) < Qabs (freq - inject_Z freq_1))%Q ->
         chunk_bits (freq, NOISE) = "0")
  /\ (forall freq,
         (Qabs (freq - inject_Z freq_1) <= Qabs (freq - inject_Z freq_0))%Q ->
         chunk_bits (freq, NOISE) = "1")
  /\ classify_frequency 1300 = NOISE
  /\ chunk_bits (1300%Q, classify_frequency 1300) = "0".
Proof.
  split; [|split; [|split; [|split]]].
  - intros cls ds de i freq Hi Hn.
    rewrite (extract_bits_split cls ds i de) by lia.
    rewrite (extract_bits_split cls i (S i) de) by lia.
    rewrite extract_bits_one.
    rewrite (nth_error_nth _ _ _ Hn). reflexivity.
  - intros freq H. simpl. unfold guess_bit.
    apply Qltb_lt in H. now rewrite H.
  - intros freq H. simpl. unfold guess_bit.
    apply Qltb_ge in H. now rewrite H.
  - reflexivity.
  - reflexivity.
Qed.

Lemma noise_fallback_nearest_bit_witness :
  extract_bits [(500%Q, START); (1300%Q, NOISE); (2000%Q, ONE)] 1 3 = "01"
  /\ chunk_bits (1300%Q, NOISE) = "0"
  /\ chunk_bits (1500%Q, NOISE) = "1".
Proof.
  destruct noise_fallback_nearest_bit as [Hsplit [Hzero [Hone _]]].
  split; [|split].
  - rewrite (Hsplit [(500%Q, START); (1300%Q, NOISE); (2000%Q, ONE)]
                    1%nat 3%nat 1%nat 1300%Q); [reflexivity|lia|reflexivity].
  - apply (Hzero 1300%Q). reflexivity.
  - apply (Hone 1500%Q). discriminate.
Defined.

End Extraction.

(** ** The text codec *)

Section Codec.
Import Sender Receiver CodecSpec.

Lemma bin_pos_length (p : positive) (acc : string) :
  String.length (bin_pos p acc) = (Pos.size_nat p + String.length acc)%nat.
Proof.
  revert acc. induction p as [p IH|p IH|]; intros acc; simpl;
    try rewrite IH; simpl; lia.
Qed.

Lemma unsigned_value_one (s : string) :
  unsigned_value (String "1" s) = (2 ^ N.of_nat (String.length s) + unsigned_value s)%N.
Proof. reflexivity. Qed.

Lemma unsigned_value_zero (s : string) :
  unsigned_value (String "0" s) = unsigned_value s.
Proof. reflexivity. Qed.

Lemma bin_pos_value (p : positive) (acc : string) :
  unsigned_value (bin_pos p acc)
  = (Npos p * 2 ^ N.of_nat (String.length acc) + unsigned_value acc)%N.
Proof.
  revert acc. induction p as [p IH|p IH|]; intros acc.
  - simpl bin_pos. rewrite IH, unsigned_value_one. cbn [String.length].
    rewrite Nat2N.inj_succ, N.pow_succ_r'.
    change (Npos p~1) with (2 * Npos p + 1)%N. ring.
  - simpl bin_pos. rewrite IH, unsigned_value_zero. cbn [String.length].
    rewrite Nat2N.inj_succ, N.pow_succ_r'.
    change (Npos p~0) with (2 * Npos p)%N. ring.
  - simpl bin_pos. rewrite unsigned_value_one. ring.
Qed.

Lemma bin_pos_binary (p : positive) (acc : string) :
  is_binary acc = true -> is_binary (bin_pos p acc) = true.
Proof.
  revert acc. induction p as [p IH|p IH|]; intros acc H; simpl.
  - apply IH. simpl. exact H.
  - apply IH. simpl. exact H.
  - exact H.
Qed.

Lemma size_nat_bounds (p : positive) :
  (2 ^ N.of_nat (Pos.size_nat p - 1) <= Npos p < 2 ^ N.of_nat (Pos.size_nat p))%N.
Proof.
  induction p as [p IH|p IH|].
  - cbn [Pos.size_nat]. replace (S (Pos.size_nat p) - 1)%nat with (Pos.size_nat p) by lia.
    rewrite Nat2N.inj_succ, N.pow_succ_r'.
    assert (Hs : (1 <= Pos.size_nat p)%nat) by (destruct p; simpl; lia).
    replace (Pos.size_nat p) with (S (Pos.size_nat p - 1)) at 1 by lia.
    rewrite Nat2N.inj_succ, N.pow_succ_r'. lia.
  - cbn [Pos.size_nat]. replace (S (Pos.size_nat p) - 1)%nat with (Pos.size_nat p) by lia.
    rewrite Nat2N.inj_succ, N.pow_succ_r'.
    assert (Hs : (1 <= Pos.size_nat p)%nat) by (destruct p; simpl; lia).
    replace (Pos.size_nat p) with (S (Pos.size_nat p - 1)) at 1 by lia.
    rewrite Nat2N.inj_succ, N.pow_succ_r'. lia.
  - simpl. lia.
Qed.

Lemma fill_zero_value (k : nat) (s : string) :
  unsigned_value (fill "0" k ++ s) = unsigned_value s.
Proof. induction k as [|k IH]; simpl; [reflexivity|exact IH]. Qed.

Lemma fill_zero_binary (k : nat) (s : string) :
  is_binary s = true -> is_binary (fill "0" k ++ s) = true.
Proof. intros H. induction k as [|k IH]; simpl; assumption. Qed.

Lemma bin_length_small (n : N) :
  (n <= 255)%N -> (String.length (bin n) <= 8)%nat.
Proof.
  intros H. destruct n as [|p]; [simpl; lia|].
  simpl. rewrite bin_pos_length. simpl String.length.
  destruct (size_nat_bounds p) as [Hlo _].
  destruct (le_lt_dec (Pos.size_nat p) 8) as [Hs|Hs]; [lia|exfalso].
  assert (Hp : (2 ^ 8 <= 2 ^ N.of_nat (Pos.size_nat p - 1))%N)
    by (apply N.pow_le_mono_r; lia).
  simpl in Hp. lia.
Qed.

Lemma bin_length_large (n : N) :
  (255 < n)%N -> (8 < String.length (bin n))%nat.
Proof.
  intros H. destruct n as [|p]; [lia|].
  simpl. rewrite bin_pos_length. simpl String.length.
  destruct (size_nat_bounds p) as [_ Hhi].
  destruct (le_lt_dec (Pos.size_nat p) 8) as [Hs|Hs]; [exfalso|lia].
  assert (Hp : (2 ^ N.of_nat (Pos.size_nat p) <= 2 ^ 8)%N)
    by (apply N.pow_le_mono_r; lia).
  simpl in Hp. lia.
Qed.

Lemma bin_value (n : N) : unsigned_value (bin n) = n.
Proof.
  destruct n as [|p]; [reflexivity|].
  simpl. rewrite bin_pos_value. simpl. lia.
Qed.

Lemma bin_binary (n : N) : is_binary (bin n) = true.
Proof. destruct n as [|p]; [reflexivity|]. simpl. now apply bin_pos_binary. Qed.

Lemma concat_empty_app (a b : list string) :
  String.concat "" (a ++ b) = String.concat "" a ++ String.concat "" b.
Proof.
  induction a as [|x a IH]; simpl; [reflexivity|].
  destruct a as [|y a].
  - simpl in *. destruct b; simpl; [now rewrite append_nil_r|reflexivity].
  - simpl in *. rewrite IH. now rewrite append_assoc.
Qed.

Lemma concat_empty_cons (x : string) (l : list string) :
  String.concat "" (x :: l) = x ++ String.concat "" l.
Proof. destruct l; simpl; [now rewrite append_nil_r|reflexivity]. Qed.

Lemma format_08b_small (c : N) :
  (c <= 255)%N ->
  String.length (format_08b c) = 8%nat
  /\ is_binary (format_08b c) = true
  /\ unsigned_value (format_08b c) = c.
Proof.
  intros H. unfold format_08b. pose proof (bin_length_small c H) as Hl.
  split; [|split].
  - rewrite append_length, fill_length. lia.
  - apply fill_zero_binary, bin_binary.
  - rewrite fill_zero_value. apply bin_value.
Qed.

Lemma format_08b_large (c : N) :
  (255 < c)%N ->
  format_08b c = bin c
  /\ (8 < String.length (format_08b c))%nat
  /\ unsigned_value (format_08b c) = c.
Proof.
  intros H. pose proof (bin_length_large c H) as Hl.
  assert (E : format_08b c = bin c).
  { unfold format_08b. replace (8 - String.length (bin c))%nat with 0%nat by lia.
    reflexivity. }
  rewrite E. split; [reflexivity|]. split; [exact Hl|apply bin_value].
Qed.

Lemma text_to_binary_app (a b : list N) :
  text_to_binary (a ++ b) = text_to_binary a ++ text_to_binary b.
Proof. unfold text_to_binary. rewrite map_app. apply concat_empty_app. Qed.

Lemma text_to_binary_cons (c : N) (text : list N) :
  text_to_binary (c :: text) = format_08b c ++ text_to_binary text.
Proof. apply (text_to_binary_app [c] text). Qed.

Lemma text_to_binary_length (text : list N) :
  Forall (fun c => (c <= 255)%N) text ->
  String.length (text_to_binary text) = (8 * List.length text)%nat.
Proof.
  induction 1 as [|c text Hc _ IH]; [reflexivity|].
  rewrite text_to_binary_cons, append_length, IH.
  destruct (format_08b_small c Hc) as [Hl _]. rewrite Hl. simpl. lia.
Qed.

(** C3, to the counterexample: a code point above 255 does not make
    [text_to_binary] fail; it returns the nine binary digits of 256. *)
Lemma text_to_binary_wide_code_point :
  (255 < 256)%N /\ text_to_binary [256%N] = "100000000".
Proof. split; reflexivity. Qed.

(** C3, as the code has it. [text_to_binary] is total: every code point of
    at most 255 yields one group of exactly 8 binary digits, zero-padded,
    most significant bit first; a code point above 255 yields its unpadded
    binary digits, more than 8 of them; the groups are concatenated in
    character order. *)
Theorem text_to_binary_groups :
  (forall c, (c <= 255)%N ->
      String.length (format_08b c) = 8%nat
      /\ is_binary (format_08b c) = true
      /\ unsigned_value (format_08b c) = c)
  /\ (forall c, (255 < c)%N ->
         format_08b c = bin c
         /\ (8 < String.length (format_08b c))%nat
         /\ unsigned_value (format_08b c) = c)
  /\ (forall c text, text_to_binary (c :: text) = format_08b c ++ text_to_binary text)
  /\ text_to_binary [] = "".
Proof.
  split; [exact format_08b_small|].
  split; [exact format_08b_large|].
  split; [exact text_to_binary_cons|reflexivity].
Qed.

Lemma text_to_binary_groups_witness :
  (String.length (format_08b 72) = 8%nat
   /\ is_binary (format_08b 72) = true
   /\ unsigned_value (format_08b 72) = 72%N)
  /\ (format_08b 300 = bin 300
      /\ (8 < String.length (format_08b 300))%nat
      /\ unsigned_value (format_08b 300) = 300%N).
Proof.
  destruct text_to_binary_groups as [Hsmall [Hlarge _]].
  split.
  - apply (Hsmall 72%N). discriminate.
  - apply (Hlarge 300%N). reflexivity.
Defined.

Lemma int_base2_from_value (s : string) (acc : N) :
  is_binary s = true ->
  int_base2_from acc s
  = Ret (acc * 2 ^ N.of_nat (String.length s) + unsigned_value s)%N.
Proof.
  revert acc. induction s as [|c s IH]; intros acc H.
  - simpl. f_equal. lia.
  - simpl in H. apply andb_prop in H. destruct H as [Hc Hs].
    cbn [int_base2_from unsigned_value String.length].
    rewrite Nat2N.inj_succ, N.pow_succ_r'.
    destruct (Ascii.eqb c "0") eqn:E0.
    + apply Ascii.eqb_eq in E0. subst c. rewrite IH by exact Hs.
      change (Ascii.eqb "0" "1") with false. cbv iota. f_equal. ring.
    + simpl in Hc. rewrite Hc. cbv iota. rewrite IH by exact Hs. f_equal. ring.
Qed.

Lemma int_base2_value (s : string) :
  is_binary s = true -> s <> "" -> int_base2 s = Ret (unsigned_value s).
Proof.
  intros H Hne. destruct s as [|c s]; [congruence|].
  unfold int_base2. rewrite int_base2_from_value by exact H. f_equal; lia.
Qed.

Lemma padding_agrees (bits : string) :
  (if negb (String.length bits mod 8 =? 0)%nat
   then ljust ((String.length bits + 7) / 8 * 8) "0" bits
   else bits) = pad_to_bytes bits.
Proof.
  unfold pad_to_bytes, ljust.
  pose proof (Nat.div_mod_eq (String.length bits) 8) as Hd.
  pose proof (Nat.mod_upper_bound (String.length bits) 8 ltac:(lia)) as Hm.
  destruct (String.length bits mod 8 =? 0)%nat eqn:E; simpl negb; cbv iota.
  - apply Nat.eqb_eq in E. rewrite E. simpl. now rewrite append_nil_r.
  - apply Nat.eqb_neq in E. f_equal. f_equal.
    set (q := (String.length bits / 8)%nat) in *.
    set (r := (String.length bits mod 8)%nat) in *.
    assert (Hq : ((String.length bits + 7) / 8 = q + 1)%nat).
    { symmetry. apply (Nat.div_unique _ 8 (q + 1) (r - 1)); lia. }
    rewrite Hq. rewrite (Nat.mod_small (8 - r) 8) by lia. lia.
Qed.

Lemma pad_to_bytes_length (bits : string) :
  exists n, String.length (pad_to_bytes bits) = (8 * n)%nat.
Proof.
  unfold pad_to_bytes. rewrite append_length, fill_length.
  pose proof (Nat.div_mod_eq (String.length bits) 8) as Hd.
  pose proof (Nat.mod_upper_bound (String.length bits) 8 ltac:(lia)) as Hm.
  set (q := (String.length bits / 8)%nat) in *.
  set (r := (String.length bits mod 8)%nat) in *.
  destruct (Nat.eq_dec r 0) as [E|E].
  - exists q. rewrite E. simpl. lia.
  - exists (q + 1)%nat. rewrite (Nat.mod_small (8 - r) 8) by lia. lia.
Qed.

Lemma pad_to_bytes_binary (bits : string) :
  is_binary bits = true -> is_binary (pad_to_bytes bits) = true.
Proof.
  intros H. unfold pad_to_bytes.
  generalize ((8 - String.length bits mod 8) mod 8)%nat as k. intros k.
  induction bits as [|c bits IH].
  - simpl. induction k as [|k IHk]; simpl; auto.
  - simpl in *. apply andb_prop in H. destruct H as [Hc Hb].
    rewrite Hc. simpl. now apply IH.
Qed.

Lemma py_range_bytes (n : nat) :
  py_range (8 * S n) 8 = 0%nat :: map (fun i => (8 + i)%nat) (py_range (8 * n) 8).
Proof.
  unfold py_range.
  replace ((8 * S n + 8 - 1) / 8)%nat with (S n)
    by (apply (Nat.div_unique _ 8 (S n) 7); lia).
  replace ((8 * n + 8 - 1) / 8)%nat with n
    by (apply (Nat.div_unique _ 8 n 7); lia).
  cbn [seq map]. f_equal. rewrite <- seq_shift, !map_map.
  apply map_ext. intros j. lia.
Qed.

Lemma decode_bytes_acc (s : string) (idx : list nat) (acc : string) :
  decode_bytes s idx acc
  = (text <- decode_bytes s idx "" ;; Ret (acc ++ text)).
Proof.
  revert acc. induction idx as [|i idx IH]; intros acc.
  - simpl. now rewrite append_nil_r.
  - cbn [decode_bytes].
    destruct (String.length (substring i 8 s) =? 8)%nat; [|apply IH].
    destruct (int_base2 (substring i 8 s)) as [v|e]; [|reflexivity].
    cbn [bind]. rewrite IH. rewrite (IH ("" ++ render_code v)).
    destruct (decode_bytes s idx "") as [t|e]; [|reflexivity].
    cbn [bind]. simpl. now rewrite append_assoc.
Qed.

Lemma decode_bytes_shift (a b c d e f g h : ascii) (rest : string)
    (idx : list nat) (acc : string) :
  decode_bytes
    (String a (String b (String c (String d
       (String e (String f (String g (String h rest))))))))
    (map (fun i => (8 + i)%nat) idx) acc
  = decode_bytes rest idx acc.
Proof.
  revert acc. induction idx as [|i idx IH]; intros acc; [reflexivity|].
  cbn [map decode_bytes].
  change (substring (8 + i) 8
            (String a (String b (String c (String d
               (String e (String f (String g (String h rest)))))))))
    with (substring i 8 rest).
  destruct (String.length (substring i 8 rest) =? 8)%nat; [|apply IH].
  destruct (int_base2 (substring i 8 rest)) as [v|err]; [|reflexivity].
  cbn [bind]. apply IH.
Qed.

Lemma decode_bytes_groups (n : nat) (s : string) :
  String.length s = (8 * n)%nat -> is_binary s = true ->
  decode_bytes s (py_range (8 * n) 8) ""
  = Ret (String.concat ""
           (map (fun group => character_or_placeholder (unsigned_value group))
                (groups_of_8 s))).
Proof.
  revert s. induction n as [|n IH]; intros s Hl Hb.
  - destruct s; [reflexivity|discriminate].
  - destruct s as [|a [|b [|c [|d [|e [|f [|g [|h rest]]]]]]]];
      try (simpl in Hl; lia).
    assert (Hrest : String.length rest = (8 * n)%nat) by (simpl in Hl; lia).
    set (byte := String a (String b (String c (String d
                   (String e (String f (String g (String h "")))))))).
    assert (Hbyte : is_binary byte = true /\ is_binary rest = true).
    { subst byte. simpl in Hb |- *.
      apply andb_prop in Hb. destruct Hb as [Ha Hb].
      apply andb_prop in Hb. destruct Hb as [Hb0 Hb].
      apply andb_prop in Hb. destruct Hb as [Hc Hb].
      apply andb_prop in Hb. destruct Hb as [Hd Hb].
      apply andb_prop in Hb. destruct Hb as [He Hb].
      apply andb_prop in Hb. destruct Hb as [Hf Hb].
      apply andb_prop in Hb. destruct Hb as [Hg Hb].
      apply andb_prop in Hb. destruct Hb as [Hh Hb].
      split; [|exact Hb].
      rewrite Ha, Hb0, Hc, Hd, He, Hf, Hg, Hh. reflexivity. }
    destruct Hbyte as [Hbyte Hbrest].
    rewrite py_range_bytes. cbn [decode_bytes].
    change (substring 0 8
              (String a (String b (String c (String d
                 (String e (String f (String g (String h rest)))))))))
      with (String a (String b (String c (String d
              (String e (String f (String g (String h (substring 0 0 rest))))))))).
    replace (substring 0 0 rest) with "" by (destruct rest; reflexivity).
    fold byte. change (String.length byte =? 8)%nat with true. cbv iota.
    rewrite (int_base2_value byte Hbyte) by (subst byte; discriminate).
    cbn [bind]. rewrite decode_bytes_shift, decode_bytes_acc.
    rewrite (IH rest Hrest Hbrest). cbn [bind].
    cbn [groups_of_8 map]. fold byte.
    f_equal. unfold render_code, character_or_placeholder.
    destruct (groups_of_8 rest) as [|g0 gs] eqn:Eg.
    + simpl. now rewrite append_nil_r.
    + reflexivity.
Qed.

Lemma binary_to_text_refines (bits : string) :
  is_binary bits = true -> binary_to_text bits = Ret (decode bits).
Proof.
  intros Hb. unfold binary_to_text, decode. rewrite padding_agrees.
  destruct (pad_to_bytes_length bits) as [n Hn]. rewrite Hn.
  apply decode_bytes_groups; [exact Hn|now apply pad_to_bytes_binary].
Qed.

(** C9. Decoding bits to text pads the bit string on the right with 0 to a
    multiple of 8, partitions it into groups of 8 read as unsigned
    integers, and appends for each the ASCII character when the value is
    in [32,126] and the placeholder "[" + decimal value + "]" otherwise;
    the byte value 7 yields "[7]". *)
Theorem binary_to_text_groups :
  (forall bits, is_binary bits = true -> binary_to_text bits = Ret (decode bits))
  /\ (forall value, (32 <= value <= 126)%N ->
         render_code value = String (ascii_of_N value) "")
  /\ (forall value, (value < 32 \/ 126 < value)%N ->
         render_code value = "[" ++ decimal value ++ "]")
  /\ binary_to_text (format_08b 7) = Ret "[7]".
Proof.
  split; [exact binary_to_text_refines|].
  split; [|split].
  - intros v [H1 H2]. unfold render_code.
    apply N.leb_le in H1, H2. now rewrite H1, H2.
  - intros v H. unfold render_code.
    destruct (32 <=? v)%N eqn:E1; [|reflexivity].
    destruct (v <=? 126)%N eqn:E2; [|reflexivity].
    apply N.leb_le in E1, E2. lia.
  - reflexivity.
Qed.

Lemma binary_to_text_groups_witness :
  binary_to_text "0100100000000111010" = Ret "H[7]@"
  /\ render_code 72 = "H"
  /\ render_code 7 = "[7]".
Proof.
  destruct binary_to_text_groups as [Hdec [Hchar [Hph _]]].
  split; [|split].
  - rewrite (Hdec "0100100000000111010"); reflexivity.
  - apply (Hchar 72%N). split; discriminate.
  - apply (Hph 7%N). left. reflexivity.
Defined.

End Codec.

(** ** The tone generator and the assembled signal *)

Section Signal.
Import Sender.

Lemma mul_arrays_length (a b : list R) :
  List.length (mul_arrays a b) = Nat.min (List.length a) (List.length b).
Proof.
  revert b. induction a as [|x a IH]; intros [|y b]; simpl; auto.
Qed.

Lemma linspace_result (start stop : R) (num : Z) (endpoint : bool) :
  0 <= num ->
  exists l, linspace start stop num endpoint = Ret l
            /\ List.length l = Z.to_nat num.
Proof.
  intros H. unfold linspace.
  destruct (num <? 0) eqn:E; [apply Z.ltb_lt in E; lia|].
  eexists. split; [reflexivity|]. now rewrite length_map, length_seq.
Qed.

Lemma linspace_negative (start stop : R) (num : Z) (endpoint : bool) :
  num < 0 -> linspace start stop num endpoint = Raise ValueError.
Proof.
  intros H. unfold linspace. apply Z.ltb_lt in H. now rewrite H.
Qed.

Lemma mul_head_length (k : nat) (tone ramp : list R) :
  (k <= List.length tone)%nat -> List.length ramp = k ->
  List.length (mul_head k tone ramp) = List.length tone.
Proof.
  intros Hk Hr. unfold mul_head.
  rewrite length_app, mul_arrays_length, length_firstn, length_skipn. lia.
Qed.

Lemma mul_tail_length (k : nat) (tone ramp : list R) :
  (k <= List.length tone)%nat -> List.length ramp = k ->
  List.length (mul_tail k tone ramp) = List.length tone.
Proof.
  intros Hk Hr. unfold mul_tail.
  rewrite length_app, mul_arrays_length, length_firstn, length_skipn. lia.
Qed.

Lemma generate_tone_samples (cfg : config) (frequency : Z) (duration : Q)
    (samples : Z) :
  int_of_product (sample_rate cfg) duration = Ret samples ->
  0 <= samples ->
  exists tone,
    generate_tone cfg frequency duration = Ret tone
    /\ Z.of_nat (List.length tone) = samples.
Proof.
  intros Ep Hs. unfold generate_tone. rewrite Ep. cbn [bind].
  destruct (linspace_result 0 (Q2R duration) samples false Hs) as [t [Et Lt]].
  rewrite Et. cbn [bind].
  set (fade_samples := Z.min 100 (samples / 10)).
  assert (Hf : fade_samples <= samples).
  { subst fade_samples.
    assert (samples / 10 <= samples) by (apply Z.div_le_upper_bound; lia). lia. }
  destruct (0 <? fade_samples) eqn:E.
  - apply Z.ltb_lt in E.
    destruct (linspace_result 0 1 fade_samples true ltac:(lia)) as [up [Eu Lu]].
    destruct (linspace_result 1 0 fade_samples true ltac:(lia)) as [dn [Ed Ld]].
    rewrite Eu. cbn [bind]. rewrite Ed. cbn [bind].
    eexists. split; [reflexivity|].
    rewrite mul_tail_length, mul_head_length; rewrite ?mul_head_length;
      rewrite ?length_map; try assumption; try lia.
  - eexists. split; [reflexivity|]. rewrite length_map. lia.
Qed.

Lemma generate_tone_rejects (cfg : config) (frequency : Z) (duration : Q)
    (samples : Z) :
  int_of_product (sample_rate cfg) duration = Ret samples ->
  samples < 0 ->
  generate_tone cfg frequency duration = Raise ValueError.
Proof.
  intros Ep Hs. unfold generate_tone. rewrite Ep. cbn [bind].
  now rewrite linspace_negative.
Qed.

Lemma generate_tone_overflow (cfg : config) (frequency : Z) (duration : Q)
    (e : exn) :
  int_of_product (sample_rate cfg) duration = Raise e ->
  generate_tone cfg frequency duration = Raise e.
Proof.
  intros Ep. unfold generate_tone. now rewrite Ep.
Qed.

(** The sample counts of the default configuration. *)
Lemma default_bit_samples :
  int_of_product (sample_rate default_config) (bit_duration default_config)
  = Ret 4410.
Proof. vm_compute. reflexivity. Qed.

Lemma default_silent_samples :
  int_of_product (sample_rate default_config) (float_literal (1 # 10)) = Ret 4410.
Proof. vm_compute. reflexivity. Qed.

Lemma default_frame_samples :
  int_of_product (sample_rate default_config) (float_literal (2 # 10)) = Ret 8820.
Proof. vm_compute. reflexivity. Qed.

(** The product is the rounded one: at 8000 Hz the float [0.009] lies
    below 9/1000 and the exact product below 72, yet the float product is
    72.0; at 48000 Hz the float nearest to 1/48000 gives the product 1.0. *)
Lemma float_product_is_rounded :
  int_of_product 8000 (float_literal (9 # 1000)) = Ret 72
  /\ int_of_float (inject_Z 8000 * float_literal (9 # 1000)) = 71
  /\ int_of_product 44100 (float_literal (3 # 10)) = Ret 13230
  /\ int_of_float (inject_Z 44100 * float_literal (3 # 10)) = 13229
  /\ int_of_product 48000 (float_literal (1 # 48000)) = Ret 1
  /\ int_of_product 48000 (float_literal (2 # 48000)) = Ret 2.
Proof. vm_compute. repeat split; reflexivity. Qed.

(** C4, to the counterexample: at 44100 Hz a duration of 1/128 s (a
    binary64 number) gives 344 samples, not the 345 that rounding
    [44100/128 = 344.53] would give, and a slightly negative duration
    yields an empty tone instead of being rejected. *)
Lemma generate_tone_truncates :
  (exists tone,
      float_literal (1 # 128) = 1 # 128
      /\ generate_tone default_config freq_0 (1 # 128) = Ret tone
      /\ Z.of_nat (List.length tone) = 344
      /\ round_half_even (inject_Z (sample_rate default_config) * (1 # 128)) = 345)
  /\ (float_literal (-1 # 100000) < 0)%Q
  /\ generate_tone default_config freq_0 (float_literal (-1 # 100000)) = Ret [].
Proof.
  split; [|split].
  - destruct (generate_tone_samples default_config freq_0 (1 # 128) 344)
      as [tone [Et Lt]]; [vm_compute; reflexivity|lia|].
    exists tone. split; [vm_compute; reflexivity|].
    split; [exact Et|]. split; [exact Lt|reflexivity].
  - vm_compute. reflexivity.
  - unfold generate_tone.
    replace (int_of_product (sample_rate default_config) (float_literal (-1 # 100000)))
      with (Ret (A := Z) 0) by (vm_compute; reflexivity).
    reflexivity.
Qed.

(** C4, as the code has it. For every frequency and duration the tone
    generator produces exactly [int(sample_rate * duration)] samples, the
    float product truncated toward zero, whenever that count is not
    negative; when the count is negative it raises [ValueError] and
    produces no signal; when the product is not a finite float it raises
    [OverflowError]. *)
Theorem generate_tone_sample_count :
  forall (cfg : config) (frequency : Z) (duration : Q),
    (forall samples : Z,
        int_of_product (sample_rate cfg) duration = Ret samples ->
        (0 <= samples ->
         exists tone,
           generate_tone cfg frequency duration = Ret tone
           /\ Z.of_nat (List.length tone) = samples)
        /\ (samples < 0 ->
            generate_tone cfg frequency duration = Raise ValueError))
    /\ (forall e : exn,
          int_of_product (sample_rate cfg) duration = Raise e ->
          generate_tone cfg frequency duration = Raise e).
Proof.
  intros cfg frequency duration. split.
  - intros samples Ep. split.
    + now apply generate_tone_samples.
    + now apply generate_tone_rejects.
  - apply generate_tone_overflow.
Qed.

Lemma generate_tone_sample_count_witness :
  (exists tone,
      generate_tone default_config freq_1 (float_literal (1 # 10)) = Ret tone
      /\ Z.of_nat (List.length tone) = 4410)
  /\ generate_tone default_config freq_1 (float_literal (-1 # 10)) = Raise ValueError
  /\ generate_tone default_config freq_1 (pow2 1020) = Raise OverflowError.
Proof.
  split; [|split].
  - apply (proj1 (proj1 (generate_tone_sample_count default_config freq_1
                           (float_literal (1 # 10))) 4410 default_bit_samples)).
    lia.
  - apply (proj2 (proj1 (generate_tone_sample_count default_config freq_1
                           (float_literal (-1 # 10))) (-4410) eq_refl)).
    lia.
  - apply (proj2 (generate_tone_sample_count default_config freq_1 (pow2 1020))).
    reflexivity.
Defined.

Lemma bit_tones_result (cfg : config) (bits : list ascii) (bit_samples : Z) :
  int_of_product (sample_rate cfg) (bit_duration cfg) = Ret bit_samples ->
  0 <= bit_samples ->
  exists tones,
    mapM (fun bit => generate_tone cfg (bit_frequency bit) (bit_duration cfg)) bits
    = Ret tones
    /\ Z.of_nat (List.length (List.concat tones))
       = Z.of_nat (List.length bits) * bit_samples.
Proof.
  intros Ep Hs. induction bits as [|bit bits [tones [Et Lt]]].
  - exists []. split; [reflexivity|]. simpl. lia.
  - destruct (generate_tone_samples cfg (bit_frequency bit) (bit_duration cfg)
                bit_samples Ep Hs)
      as [tone [E1 L1]].
    exists (tone :: tones). cbn [mapM]. rewrite E1. cbn [bind].
    rewrite Et. cbn [bind]. split; [reflexivity|].
    cbn [List.concat List.length]. rewrite length_app. lia.
Qed.

Lemma list_ascii_length (s : string) :
  List.length (list_ascii_of_string s) = String.length s.
Proof. induction s as [|c s IH]; simpl; congruence. Qed.

(** The length of the assembled signal, for any configuration whose
    framing tones are not empty. *)
Lemma create_signal_length (cfg : config) (text : list N)
    (frame_samples silent_samples bit_samples : Z) :
  int_of_product (sample_rate cfg) (float_literal (2 # 10)) = Ret frame_samples ->
  int_of_product (sample_rate cfg) (float_literal (1 # 10)) = Ret silent_samples ->
  int_of_product (sample_rate cfg) (bit_duration cfg) = Ret bit_samples ->
  0 < frame_samples ->
  0 <= silent_samples ->
  0 <= bit_samples ->
  exists signal,
    create_signal cfg text = Ret signal
    /\ Z.of_nat (List.length signal)
       = 2 * frame_samples
         + 2 * silent_samples
         + Z.of_nat (String.length (text_to_binary text)) * bit_samples.
Proof.
  intros Eframe Esil Ebit Hframe Hsil Hbit. unfold create_signal.
  destruct (generate_tone_samples cfg freq_start (float_literal (2 # 10))
              frame_samples Eframe) as [st [Es Ls]]; [lia|].
  destruct (generate_tone_samples cfg freq_end (float_literal (2 # 10))
              frame_samples Eframe) as [en [Ee Le]]; [lia|].
  destruct (bit_tones_result cfg (list_ascii_of_string (text_to_binary text))
              bit_samples Ebit Hbit)
    as [tones [Et Lt]].
  rewrite list_ascii_length in Lt.
  rewrite Es. cbn [bind]. rewrite Esil. cbn [bind]. unfold zeros.
  destruct (silent_samples <? 0) eqn:E;
    [apply Z.ltb_lt in E; lia|].
  cbn [bind]. rewrite Et. cbn [bind]. rewrite Ee. cbn [bind].
  set (silence := repeat 0%R _).
  set (full_signal := List.concat ([st; silence] ++ tones ++ [silence; en])).
  assert (Lfull : Z.of_nat (List.length full_signal)
                  = 2 * frame_samples
                    + 2 * silent_samples
                    + Z.of_nat (String.length (text_to_binary text)) * bit_samples).
  { subst full_signal. rewrite !concat_app. cbn [List.concat].
    rewrite !length_app. cbn [List.length]. subst silence.
    rewrite repeat_length. lia. }
  destruct (map Rabs full_signal) as [|x rest] eqn:Em.
  - apply (f_equal (@List.length R)) in Em. rewrite length_map in Em.
    simpl in Em. lia.
  - cbn [np_max bind]. eexists. split; [reflexivity|].
    destruct (Rlt_dec 0 (fold_left Rmax rest x)); rewrite ?length_map; exact Lfull.
Qed.

(** C2. For "HI" at 44100 Hz with 0.1 s per bit, the text-to-binary step
    yields the 16-bit string 0100100001001001 ('H' = 72, 'I' = 73, most
    significant bit first), and the assembled signal (start tone 0.2 s,
    silence 0.1 s, 16 bit tones of 0.1 s, silence 0.1 s, end tone 0.2 s)
    has exactly 97020 samples. *)
Theorem scenario_A_binary_and_length :
  text_to_binary (py_str "HI") = "0100100001001001"
  /\ text_to_binary (py_str "HI") = format_08b 72 ++ format_08b 73
  /\ String.length (text_to_binary (py_str "HI")) = 16%nat
  /\ exists signal,
       create_signal default_config (py_str "HI") = Ret signal
       /\ Z.of_nat (List.length signal) = 97020.
Proof.
  split; [reflexivity|]. split; [reflexivity|]. split; [reflexivity|].
  destruct (create_signal_length default_config (py_str "HI") 8820 4410 4410
              default_frame_samples default_silent_samples default_bit_samples)
    as [signal [Es Ls]]; try lia.
  exists signal. split; [exact Es|]. rewrite Ls. reflexivity.
Qed.

End Signal.

(** ** Spectral analysis of a chunk *)

Section Spectrum.
Import Receiver.
Local Open Scope R_scope.

Lemma hanning_4 : hanning 4 = [0; 3/4; 3/4; 0].
Proof.
  unfold hanning. cbn [seq map].
  change (Z.of_nat 4) with 4%Z. change (Z.of_nat 0) with 0%Z.
  change (Z.of_nat 1) with 1%Z. change (Z.of_nat 2) with 2%Z. change (Z.of_nat 3) with 3%Z.
  change (1 - 4 + 2 * 0)%Z with (-3)%Z.
  change (1 - 4 + 2 * 1)%Z with (-1)%Z.
  change (1 - 4 + 2 * 2)%Z with (1)%Z.
  change (1 - 4 + 2 * 3)%Z with (3)%Z.
  change (4 - 1)%Z with 3%Z.
  replace (PI * -3 / 3) with (- PI) by lra.
  replace (PI * -1 / 3) with (- (PI / 3)) by lra.
  replace (PI * 1 / 3) with (PI / 3) by lra.
  replace (PI * 3 / 3) with (PI) by lra.
  rewrite !cos_neg, cos_PI, cos_PI3.
  replace (1 / 2 + 1 / 2 * -1) with 0 by lra.
  replace (1 / 2 + 1 / 2 * (1 / 2)) with (3 / 4) by lra.
  reflexivity.
Qed.

Lemma trig_bin_0 (n : nat) : 2 * PI * INR 0 * INR n / INR 4 = 0.
Proof. simpl. lra. Qed.

Lemma trig_bin_1 :
  2 * PI * INR 1 * INR 0 / INR 4 = 0
  /\ 2 * PI * INR 1 * INR 1 / INR 4 = PI / 2
  /\ 2 * PI * INR 1 * INR 2 / INR 4 = PI
  /\ 2 * PI * INR 1 * INR 3 / INR 4 = 3 * (PI / 2).
Proof. simpl. repeat split; lra. Qed.

Lemma magnitude_spectrum_4 (x0 x1 x2 x3 : R) :
  magnitude_spectrum [x0; x1; x2; x3]
  = [sqrt ((3 / 4 * (x1 + x2)) * (3 / 4 * (x1 + x2)));
     sqrt ((3 / 4) * (3 / 4) * (x1 * x1 + x2 * x2))].
Proof.
  unfold magnitude_spectrum. cbn [List.length]. rewrite hanning_4.
  cbn [mul_arrays]. unfold fft. cbn [List.length seq map].
  change (4 / 2)%nat with 2%nat. cbn [firstn map weighted_sum].
  destruct trig_bin_1 as [E0 [E1 [E2 E3]]].
  rewrite !trig_bin_0, E0, E1, E2, E3.
  rewrite cos_0, sin_0, cos_PI2, sin_PI2, cos_PI, sin_PI, cos_3PI2, sin_3PI2.
  unfold cabs. cbn [fst snd].
  f_equal; [|f_equal]; f_equal; ring.
Qed.

Lemma in_firstn {A : Type} (n : nat) (l : list A) (x : A) :
  In x (firstn n l) -> In x l.
Proof.
  intros H. rewrite <- (firstn_skipn n l). apply in_or_app. now left.
Qed.

Lemma in_skipn {A : Type} (n : nat) (l : list A) (x : A) :
  In x (skipn n l) -> In x l.
Proof.
  intros H. rewrite <- (firstn_skipn n l). apply in_or_app. now right.
Qed.

Lemma hanning_length (M : nat) : List.length (hanning M) = M.
Proof.
  destruct M as [|[|M]]; [reflexivity|reflexivity|].
  unfold hanning. now rewrite length_map, length_seq.
Qed.

Lemma mul_arrays_zero (a b : list R) :
  Forall (eq 0) a -> Forall (eq 0) (mul_arrays a b).
Proof.
  intros H. revert b. induction H as [|x a Hx _ IH]; intros [|y b]; simpl;
    constructor; [subst x; ring|apply IH].
Qed.

Lemma weighted_sum_zero (w : nat -> R) (x : list R) (n0 : nat) :
  Forall (eq 0) x -> weighted_sum w x n0 = 0.
Proof.
  intros H. revert n0. induction H as [|xn x Hx _ IH]; intros n0; simpl;
    [reflexivity|]. rewrite IH. subst xn. ring.
Qed.

Lemma cabs_zero : cabs (0, 0) = 0.
Proof. unfold cabs. simpl. replace (0 * 0 + 0 * 0) with 0 by ring. apply sqrt_0. Qed.

Lemma magnitude_spectrum_length (chunk : list R) :
  List.length (magnitude_spectrum chunk) = (List.length chunk / 2)%nat.
Proof.
  unfold magnitude_spectrum, fft.
  rewrite length_map, length_firstn, length_map, length_seq,
    mul_arrays_length, hanning_length, Nat.min_id.
  apply Nat.min_l. apply Nat.Div0.div_le_upper_bound. lia.
Qed.

Lemma magnitude_spectrum_zero (chunk : list R) :
  Forall (eq 0) chunk -> Forall (eq 0) (magnitude_spectrum chunk).
Proof.
  intros H. unfold magnitude_spectrum, fft.
  set (windowed := mul_arrays chunk (hanning (List.length chunk))).
  assert (Hw : Forall (eq 0) windowed) by (now apply mul_arrays_zero).
  apply Forall_forall. intros m Hm.
  apply in_map_iff in Hm. destruct Hm as [z [Hz Hin]].
  apply in_firstn in Hin. apply in_map_iff in Hin.
  destruct Hin as [k [Hk _]]. subst z m.
  rewrite !weighted_sum_zero by exact Hw. symmetry. apply cabs_zero.
Qed.

Lemma np_max_zero (a : list R) :
  Forall (eq 0) a -> a <> [] -> np_max a = Ret 0.
Proof.
  intros H Hne. destruct a as [|x rest]; [congruence|].
  inversion H as [|? ? Hx Hrest]; subst. simpl. f_equal.
  clear H Hne. induction Hrest as [|y rest Hy _ IH]; simpl; [reflexivity|].
  subst y. rewrite Rmax_left by lra. exact IH.
Qed.

Lemma detect_silent_chunk (cfg : config) (chunk : list R) :
  Forall (eq 0) chunk -> (2 <= List.length chunk)%nat -> sample_rate cfg <> 0%Z ->
  np_max (magnitude_spectrum chunk) = Ret 0
  /\ detect_dominant_frequency cfg chunk = Ret 0%Q.
Proof.
  intros Hz Hl Hs.
  assert (Hp : np_max (magnitude_spectrum chunk) = Ret 0).
  { apply np_max_zero; [now apply magnitude_spectrum_zero|].
    intros E. apply (f_equal (@List.length R)) in E.
    rewrite magnitude_spectrum_length in E. cbn [List.length] in E.
    assert (1 <= List.length chunk / 2)%nat by (apply Nat.div_le_lower_bound; lia).
    lia. }
  split; [exact Hp|]. unfold detect_dominant_frequency.
  destruct (List.length chunk =? 0)%nat eqn:E; [reflexivity|].
  apply Z.eqb_neq in Hs. rewrite Hs, Hp. cbn [bind].
  destruct (Rlt_dec 0 min_amplitude) as [_|Hn]; [reflexivity|].
  exfalso. apply Hn. unfold min_amplitude. lra.
Qed.

Lemma quiet_tone_peak :
  1 / 100 < sqrt (3 / 4 * (3 / 4) * (99 / 10000 * (99 / 10000) + - (99 / 10000) * - (99 / 10000))).
Proof.
  replace (1 / 100) with (sqrt ((1 / 100) * (1 / 100)))
    by (apply sqrt_square; lra).
  apply sqrt_lt_1_alt. lra.
Qed.

Lemma detect_quiet_tone (x0 x3 : R) :
  exists freq,
    detect_dominant_frequency narrow_config [x0; 99 / 10000; - (99 / 10000); x3]
    = Ret freq
    /\ (freq == 500)%Q
    /\ classify_frequency freq = START.
Proof.
  unfold detect_dominant_frequency. cbn [List.length Nat.eqb].
  rewrite magnitude_spectrum_4.
  change (sample_rate narrow_config =? 0)%Z with false. cbv iota.
  cbn [np_max fold_left bind].
  replace (3 / 4 * (99 / 10000 + - (99 / 10000))) with 0 by lra.
  replace (0 * 0) with 0 by ring. rewrite sqrt_0.
  pose proof quiet_tone_peak as Hp.
  rewrite Rmax_right by lra.
  destruct (Rlt_dec _ min_amplitude) as [Hlt|_];
    [unfold min_amplitude in Hlt; lra|].
  unfold np_argmax, argmax_from.
  destruct (Rlt_dec 0 _) as [_|Hn]; [|exfalso; apply Hn; lra].
  eexists. split; [reflexivity|]. split; reflexivity.
Qed.

Lemma analyze_quiet_tone (x0 x3 : R) :
  exists freq,
    analyze_chunk narrow_config [x0; 99 / 10000; - (99 / 10000); x3]
    = Ret (freq, START).
Proof.
  destruct (detect_quiet_tone x0 x3) as [freq [Ed [_ Ec]]].
  exists freq. unfold analyze_chunk. rewrite Ed. cbn [bind]. now rewrite Ec.
Qed.

Lemma analyze_silent_chunk (cfg : config) (chunk : list R) :
  Forall (eq 0) chunk -> (2 <= List.length chunk)%nat -> sample_rate cfg <> 0%Z ->
  analyze_chunk cfg chunk = Ret (0%Q, NOISE).
Proof.
  intros Hz Hl Hs. unfold analyze_chunk.
  destruct (detect_silent_chunk cfg chunk Hz Hl Hs) as [_ Ed]. now rewrite Ed.
Qed.

Lemma narrow_bit_samples :
  int_of_product (sample_rate narrow_config) (bit_duration narrow_config) = Ret 4%Z.
Proof. vm_compute. reflexivity. Qed.

Lemma split_chunks_16 (x0 x1 x2 x3 x4 x5 x6 x7 x8 x9 x10 x11 x12 x13 x14 x15 : R) :
  split_chunks 4 [x0; x1; x2; x3; x4; x5; x6; x7; x8; x9; x10; x11; x12; x13; x14; x15]
  = Ret [[x0; x1; x2; x3]; [x4; x5; x6; x7]; [x8; x9; x10; x11]; [x12; x13; x14; x15]].
Proof. reflexivity. Qed.

(** C6, to the counterexample: with four samples per chunk, a buffer
    whose samples all stay below [min_amplitude] in absolute value holds
    three chunks classified START and is decoded to the message "[0]":
    the threshold bears on the spectral magnitude, not on the samples. *)
Lemma quiet_buffer_is_decoded :
  let audio := [0; 99 / 10000; - (99 / 10000); 0;
                0; 99 / 10000; - (99 / 10000); 0;
                0; 0; 0; 0;
                0; 99 / 10000; - (99 / 10000); 0] in
  Forall (fun x => Rabs x < min_amplitude) audio
  /\ process_audio narrow_config audio = Ret (Message "[0]").
Proof.
  intros audio. split.
  - unfold min_amplitude. subst audio.
    repeat constructor; apply Rabs_def1; lra.
  - unfold process_audio. rewrite narrow_bit_samples. cbn [bind].
    subst audio. rewrite split_chunks_16. cbn [bind mapM].
    destruct (analyze_quiet_tone 0 0) as [freq Ea]. rewrite Ea. cbn [bind].
    rewrite (analyze_silent_chunk narrow_config [0; 0; 0; 0]);
      [|repeat constructor|simpl; lia|discriminate].
    cbn [bind]. reflexivity.
Qed.

Lemma detect_below_threshold (cfg : config) (chunk : list R) (peak : R) :
  sample_rate cfg <> 0%Z ->
  np_max (magnitude_spectrum chunk) = Ret peak ->
  peak < min_amplitude ->
  detect_dominant_frequency cfg chunk = Ret 0%Q.
Proof.
  intros Hs Hp Hlt. unfold detect_dominant_frequency.
  destruct (List.length chunk =? 0)%nat; [reflexivity|].
  apply Z.eqb_neq in Hs. rewrite Hs, Hp. cbn [bind].
  destruct (Rlt_dec peak min_amplitude) as [_|Hn]; [reflexivity|contradiction].
Qed.

(** C7. A chunk whose peak windowed spectral magnitude is below
    [min_amplitude = 0.01] makes the dominant-frequency detector return
    the sentinel 0, which the classifier maps to NOISE, whatever the
    samples of the chunk are. *)
Theorem quiet_chunk_is_noise :
  forall (cfg : config) (chunk : list R) (peak : R),
    sample_rate cfg <> 0%Z ->
    np_max (magnitude_spectrum chunk) = Ret peak ->
    peak < min_amplitude ->
    detect_dominant_frequency cfg chunk = Ret 0%Q
    /\ classify_frequency 0 = NOISE
    /\ analyze_chunk cfg chunk = Ret (0%Q, NOISE).
Proof.
  intros cfg chunk peak Hs Hp Hlt.
  pose proof (detect_below_threshold cfg chunk peak Hs Hp Hlt) as Ed.
  split; [exact Ed|]. split; [reflexivity|].
  unfold analyze_chunk. now rewrite Ed.
Qed.

Lemma quiet_chunk_is_noise_witness :
  np_max (magnitude_spectrum [0; 0; 0; 0]) = Ret 0
  /\ 0 < min_amplitude
  /\ detect_dominant_frequency default_config [0; 0; 0; 0] = Ret 0%Q
  /\ classify_frequency 0 = NOISE
  /\ analyze_chunk default_config [0; 0; 0; 0] = Ret (0%Q, NOISE).
Proof.
  assert (Hp : np_max (magnitude_spectrum [0; 0; 0; 0]) = Ret 0).
  { apply (detect_silent_chunk default_config [0; 0; 0; 0]);
      [repeat constructor|simpl; lia|discriminate]. }
  assert (Hlt : 0 < min_amplitude) by (unfold min_amplitude; lra).
  split; [exact Hp|]. split; [exact Hlt|].
  apply (quiet_chunk_is_noise default_config [0; 0; 0; 0] 0);
    [discriminate|exact Hp|exact Hlt].
Defined.

End Spectrum.

(** ** Frame boundaries *)

Section Boundaries.
Import Receiver.

Lemma find_boundaries_no_start (cls : list (Q * classification)) (i : nat) :
  Forall (fun entry => snd entry <> START) cls ->
  find_boundaries cls i None = (None, None).
Proof.
  intros H. revert i. induction H as [|[freq c] cls Hc _ IH]; intros i;
    [reflexivity|].
  cbn [find_boundaries]. simpl in Hc.
  destruct c; try apply IH. congruence.
Qed.

(** The fuel given to the forward trimming loop is enough: it stops where
    the [while] condition fails. *)
Lemma skip_noise_after_exit (fuel : nat) (cls : list (Q * classification))
    (data_start : nat) :
  (List.length cls - data_start <= fuel)%nat ->
  (List.length cls <= skip_noise_after fuel cls data_start)%nat
  \/ class_at cls (skip_noise_after fuel cls data_start) <> NOISE.
Proof.
  revert data_start. induction fuel as [|fuel IH]; intros data_start Hf.
  - left. simpl. lia.
  - cbn [skip_noise_after].
    destruct (data_start <? List.length cls)%nat eqn:El.
    + destruct (class_at cls data_start) eqn:Ec; cbn [andb classification_eqb];
        try (right; rewrite Ec; discriminate).
      apply IH. apply Nat.ltb_lt in El. lia.
    + left. cbn [andb]. apply Nat.ltb_ge in El. exact El.
Qed.

Lemma skip_noise_before_le (cls : list (Q * classification))
    (data_start data_end : nat) :
  (skip_noise_before cls data_start data_end <= data_end)%nat.
Proof.
  induction data_end as [|before IH]; [simpl; lia|].
  cbn [skip_noise_before].
  destruct ((data_start <? S before)%nat
            && classification_eqb (class_at cls before) NOISE); lia.
Qed.

(** The END index found by the boundary loop is an index of the list, so
    every chunk read by the extraction loop exists. *)
Lemma find_boundaries_end (cls : list (Q * classification)) (i : nat)
    (start_idx found_start : option nat) (end_idx : nat) :
  find_boundaries cls i start_idx = (found_start, Some end_idx) ->
  (i <= end_idx < i + List.length cls)%nat.
Proof.
  revert i start_idx. induction cls as [|[freq c] cls IH]; intros i start_idx H.
  - discriminate.
  - cbn [find_boundaries] in H. cbn [List.length].
    destruct c, start_idx as [s|];
      try (apply IH in H; lia); inversion H; subst; lia.
Qed.

Lemma decode_no_start (cls : list (Q * classification)) :
  Forall (fun entry => snd entry <> START) cls ->
  decode_classifications cls = Failed NoStartSignal.
Proof.
  intros H. unfold decode_classifications.
  now rewrite find_boundaries_no_start.
Qed.

(** A zero int times any float is the float 0. *)
Lemma int_of_product_zero (duration : Q) : int_of_product 0 duration = Ret 0.
Proof.
  unfold int_of_product. change (to_float (inject_Z 0)) with (Some 0%Q).
  destruct duration as [n d]. reflexivity.
Qed.

Lemma zero_rate_zero_chunk (cfg : config) :
  sample_rate cfg = 0 ->
  int_of_product (sample_rate cfg) (bit_duration cfg) = Ret 0.
Proof. intros H. rewrite H. apply int_of_product_zero. Qed.

Lemma split_chunks_rate (cfg : config) (audio : list R) (samples_per_bit : Z)
    (chunks : list (list R)) :
  int_of_product (sample_rate cfg) (bit_duration cfg) = Ret samples_per_bit ->
  split_chunks samples_per_bit audio = Ret chunks ->
  sample_rate cfg <> 0.
Proof.
  intros Ep H E. rewrite (zero_rate_zero_chunk cfg E) in Ep.
  injection Ep as <-. discriminate.
Qed.

Lemma analyze_quiet_chunks (cfg : config) (chunks : list (list R)) :
  sample_rate cfg <> 0 ->
  Forall (fun chunk => exists peak,
              np_max (magnitude_spectrum chunk) = Ret peak
              /\ (peak < min_amplitude)%R) chunks ->
  mapM (analyze_chunk cfg) chunks = Ret (map (fun _ => (0%Q, NOISE)) chunks).
Proof.
  intros Hs H. induction H as [|chunk chunks [peak [Hp Hlt]] _ IH];
    [reflexivity|].
  cbn [mapM map]. unfold analyze_chunk at 1.
  rewrite (detect_below_threshold cfg chunk peak Hs Hp Hlt). cbn [bind].
  rewrite IH. reflexivity.
Qed.

Lemma all_noise_no_start {A : Type} (l : list A) :
  Forall (fun entry : Q * classification => snd entry <> START)
         (map (fun _ => (0%Q, NOISE)) l).
Proof. induction l; simpl; constructor; [discriminate|assumption]. Qed.

Lemma silent_chunks (size : nat) (n : nat) (chunk : list R) :
  In chunk (filter (fun chunk => (size / 2 <=? List.length chunk)%nat)
              (map (fun i => slice i (i + size) (repeat 0%R n))
                   (py_range (List.length (repeat 0%R n)) size))) ->
  Forall (eq 0%R) chunk /\ (size / 2 <= List.length chunk)%nat.
Proof.
  intros H. apply filter_In in H. destruct H as [Hin Hlen].
  apply Nat.leb_le in Hlen. split; [|exact Hlen].
  apply in_map_iff in Hin. destruct Hin as [i [Hi _]]. subst chunk.
  apply Forall_forall. intros x Hx. unfold slice in Hx.
  apply in_firstn, in_skipn in Hx. symmetry. exact (repeat_spec _ _ _ Hx).
Qed.

Lemma silent_buffer_chunks (cfg : config) (n : nat) (spb : Z) :
  int_of_product (sample_rate cfg) (bit_duration cfg) = Ret spb ->
  4 <= spb ->
  exists chunks,
    split_chunks spb (repeat 0%R n) = Ret chunks
    /\ Forall (fun chunk => exists peak,
                   np_max (magnitude_spectrum chunk) = Ret peak
                   /\ (peak < min_amplitude)%R) chunks.
Proof.
  intros Ep H4.
  assert (Hs : sample_rate cfg <> 0).
  { intros E. rewrite (zero_rate_zero_chunk cfg E) in Ep. injection Ep as <-. lia. }
  unfold split_chunks.
  destruct (spb =? 0) eqn:E0; [apply Z.eqb_eq in E0; lia|].
  destruct (spb <? 0) eqn:E1; [apply Z.ltb_lt in E1; lia|].
  eexists. split; [reflexivity|].
  apply Forall_forall. intros chunk Hin.
  apply silent_chunks in Hin. destruct Hin as [Hz Hl].
  assert (H2 : (2 <= Z.to_nat spb / 2)%nat)
    by (apply Nat.div_le_lower_bound; lia).
  exists 0%R. split.
  - apply (detect_silent_chunk cfg chunk Hz); [lia|exact Hs].
  - unfold min_amplitude. lra.
Qed.

Lemma process_quiet_chunks (cfg : config) (audio : list R) (samples_per_bit : Z)
    (chunks : list (list R)) :
  int_of_product (sample_rate cfg) (bit_duration cfg) = Ret samples_per_bit ->
  split_chunks samples_per_bit audio = Ret chunks ->
  Forall (fun chunk => exists peak,
              np_max (magnitude_spectrum chunk) = Ret peak
              /\ (peak < min_amplitude)%R) chunks ->
  process_audio cfg audio = Ret (Failed NoStartSignal).
Proof.
  intros Ep Hc Hq. unfold process_audio. rewrite Ep. cbn [bind].
  rewrite Hc. cbn [bind].
  rewrite (analyze_quiet_chunks cfg chunks
             (split_chunks_rate cfg audio samples_per_bit chunks Ep Hc) Hq).
  cbn [bind]. f_equal. apply decode_no_start, all_noise_no_start.
Qed.

(** C6, as the code has it. If the classification pass yields no chunk
    classified START, [process_audio] fails with the "No START signal"
    diagnostic and returns no message; this is the case whenever every
    chunk's peak windowed spectral magnitude is below [min_amplitude], in
    particular for an all-zero buffer cut into chunks of at least 4
    samples. *)
Theorem no_start_signal :
  (forall cfg audio samples_per_bit chunks classifications,
      int_of_product (sample_rate cfg) (bit_duration cfg) = Ret samples_per_bit ->
      split_chunks samples_per_bit audio = Ret chunks ->
      mapM (analyze_chunk cfg) chunks = Ret classifications ->
      Forall (fun entry => snd entry <> START) classifications ->
      process_audio cfg audio = Ret (Failed NoStartSignal))
  /\ (forall cfg audio samples_per_bit chunks,
         int_of_product (sample_rate cfg) (bit_duration cfg) = Ret samples_per_bit ->
         split_chunks samples_per_bit audio = Ret chunks ->
         Forall (fun chunk => exists peak,
                     np_max (magnitude_spectrum chunk) = Ret peak
                     /\ (peak < min_amplitude)%R) chunks ->
         process_audio cfg audio = Ret (Failed NoStartSignal))
  /\ (forall cfg n samples_per_bit,
         int_of_product (sample_rate cfg) (bit_duration cfg) = Ret samples_per_bit ->
         4 <= samples_per_bit ->
         process_audio cfg (repeat 0%R n) = Ret (Failed NoStartSignal)).
Proof.
  split; [|split].
  - intros cfg audio spb chunks cls Ep Hc Ha Hn. unfold process_audio.
    rewrite Ep. cbn [bind]. rewrite Hc. cbn [bind]. rewrite Ha. cbn [bind].
    f_equal. now apply decode_no_start.
  - exact process_quiet_chunks.
  - intros cfg n spb Ep H4.
    destruct (silent_buffer_chunks cfg n spb Ep H4) as [chunks [Hc Hq]].
    exact (process_quiet_chunks cfg (repeat 0%R n) spb chunks Ep Hc Hq).
Qed.

Lemma no_start_signal_witness :
  int_of_product (sample_rate default_config) (bit_duration default_config) = Ret 4410
  /\ 4 <= 4410
  /\ process_audio default_config (repeat 0%R 4500) = Ret (Failed NoStartSignal).
Proof.
  assert (H4 : 4 <= 4410) by lia.
  split; [exact default_bit_samples|]. split; [exact H4|].
  exact (proj2 (proj2 no_start_signal) default_config 4500%nat 4410
           default_bit_samples H4).
Defined.

End Boundaries.

(** ** Decoding a frame *)

Section Frame.
Import Sender Receiver CodecSpec.

Lemma bit_chunks_length (bits : string) :
  List.length (bit_chunks bits) = String.length bits.
Proof. unfold bit_chunks. now rewrite length_map, list_ascii_length. Qed.

Lemma nominal_bit_chunk (bit : ascii) :
  nominal_chunk (bit_frequency bit)
  = if Ascii.eqb bit "1" then (2000%Q, ONE) else (1000%Q, ZERO).
Proof. unfold bit_frequency. destruct (Ascii.eqb bit "1"); reflexivity. Qed.

Lemma bit_chunks_cons (bit : ascii) (bits : string) :
  bit_chunks (String bit bits)
  = (if Ascii.eqb bit "1" then (2000%Q, ONE) else (1000%Q, ZERO)) :: bit_chunks bits.
Proof. unfold bit_chunks. cbn [list_ascii_of_string map]. now rewrite nominal_bit_chunk. Qed.

Lemma nominal_frame_shape (bits : string) :
  nominal_frame bits
  = (500%Q, START) :: (500%Q, START) :: (0%Q, NOISE)
    :: bit_chunks bits ++ [(0%Q, NOISE); (3000%Q, END); (3000%Q, END)].
Proof. reflexivity. Qed.

Lemma find_boundaries_payload (bits : string) (rest : list (Q * classification))
    (i s : nat) :
  find_boundaries (bit_chunks bits ++ rest) i (Some s)
  = find_boundaries rest (i + String.length bits) (Some s).
Proof.
  revert i. induction bits as [|bit bits IH]; intros i.
  - simpl. now rewrite Nat.add_0_r.
  - rewrite bit_chunks_cons. cbn [app String.length].
    replace (i + S (String.length bits))%nat with (S i + String.length bits)%nat by lia.
    rewrite <- IH. destruct (Ascii.eqb bit "1"); reflexivity.
Qed.

Lemma extract_bits_from (cls : list (Q * classification)) (a b : nat) :
  (a <= b <= List.length cls)%nat ->
  extract_bits cls a b
  = String.concat "" (map chunk_bits (firstn (b - a) (skipn a cls))).
Proof.
  intros H. remember (b - a)%nat as len eqn:El.
  revert a b H El. induction len as [|len IH]; intros a b H El.
  - unfold extract_bits. rewrite <- El. reflexivity.
  - rewrite (extract_bits_split cls a (S a) b) by lia.
    rewrite extract_bits_one, (IH (S a) b) by lia.
    destruct (skipn a cls) as [|entry rest] eqn:Es.
    + apply (f_equal (@List.length _)) in Es. rewrite length_skipn in Es.
      simpl in Es. lia.
    + assert (En : nth a cls (0%Q, NOISE) = entry).
      { rewrite <- (Nat.add_0_r a), <- nth_skipn, Es. reflexivity. }
      assert (Er : skipn (S a) cls = rest).
      { replace (S a) with (1 + a)%nat by lia. rewrite <- skipn_skipn, Es.
        reflexivity. }
      rewrite En, Er. cbn [firstn map]. now rewrite concat_empty_cons.
Qed.

Lemma bit_chunks_bits (bits : string) :
  is_binary bits = true ->
  String.concat "" (map chunk_bits (bit_chunks bits)) = bits.
Proof.
  induction bits as [|bit bits IH]; intros H; [reflexivity|].
  simpl in H. apply andb_prop in H. destruct H as [Hc Hb].
  rewrite bit_chunks_cons. cbn [map]. rewrite concat_empty_cons, (IH Hb).
  destruct (Ascii.eqb bit "1") eqn:E1.
  - apply Ascii.eqb_eq in E1. now subst bit.
  - rewrite orb_false_r in Hc. apply Ascii.eqb_eq in Hc. now subst bit.
Qed.

Lemma bit_chunks_last (bits : string) (d : Q * classification) :
  bits <> "" ->
  snd (nth (String.length bits - 1) (bit_chunks bits) d) <> NOISE.
Proof.
  intros Hne.
  assert (Hi : (String.length bits - 1 < List.length (list_ascii_of_string bits))%nat).
  { rewrite list_ascii_length. destruct bits; [congruence|simpl; lia]. }
  unfold bit_chunks.
  rewrite (nth_indep _ d (nominal_chunk (bit_frequency "0")))
    by (now rewrite length_map).
  rewrite (map_nth (fun bit => nominal_chunk (bit_frequency bit))).
  rewrite nominal_bit_chunk. destruct (Ascii.eqb _ "1"); discriminate.
Qed.

(** Decoding a nominal frame: the silence chunk after the start tone is
    not skipped, because the chunk before it holds the second half of the
    start tone, and its fallback guess puts a 0 in front of the payload. *)
Lemma decode_nominal_frame (bits : string) :
  is_binary bits = true -> bits <> "" ->
  decode_classifications (nominal_frame bits) = Message (decode ("0" ++ bits)).
Proof.
  intros Hb Hne. rewrite nominal_frame_shape.
  set (n := String.length bits).
  assert (Hn : (0 < n)%nat) by (subst n; destruct bits; [congruence|simpl; lia]).
  set (post := [(0%Q, NOISE); (3000%Q, END); (3000%Q, END)]).
  set (cls := (500%Q, START) :: (500%Q, START) :: (0%Q, NOISE)
              :: bit_chunks bits ++ post).
  assert (Hlen : List.length cls = S (n + 5)).
  { subst cls post n. cbn [List.length]. rewrite length_app, bit_chunks_length.
    simpl. lia. }
  assert (Hat : forall i, class_at cls (3 + i)
                          = snd (nth i (bit_chunks bits ++ post) (0%Q, NOISE)))
    by reflexivity.
  unfold decode_classifications.
  assert (Hfb : find_boundaries cls 0 None = (Some 0%nat, Some (S (S (n + 2))))).
  { subst cls post n. cbn [find_boundaries]. rewrite find_boundaries_payload.
    cbn [find_boundaries]. repeat f_equal. lia. }
  rewrite Hfb.
  assert (Hds : skip_noise_after (List.length cls) cls (0 + 1) = 1%nat).
  { rewrite Hlen. cbn [skip_noise_after].
    replace (class_at cls (0 + 1)) with START by reflexivity.
    cbn [classification_eqb]. now rewrite andb_false_r. }
  rewrite Hds.
  assert (Hde : skip_noise_before cls 1 (S (S (n + 2))) = S (n + 2)).
  { cbn [skip_noise_before].
    assert (E1 : class_at cls (S (n + 2)) = NOISE).
    { replace (S (n + 2)) with (3 + n)%nat by lia. rewrite Hat.
      rewrite app_nth2 by (rewrite bit_chunks_length; subst n; lia).
      rewrite bit_chunks_length. subst n. now rewrite Nat.sub_diag. }
    assert (E2 : class_at cls (n + 2) <> NOISE).
    { replace (n + 2)%nat with (3 + (n - 1))%nat by lia. rewrite Hat.
      rewrite app_nth1 by (rewrite bit_chunks_length; subst n; lia).
      apply bit_chunks_last. exact Hne. }
    rewrite E1. cbn [classification_eqb].
    replace (1 <? S (S (n + 2)))%nat with true by (symmetry; apply Nat.ltb_lt; lia).
    cbn [andb].
    destruct (class_at cls (n + 2)); try congruence;
      cbn [classification_eqb]; now rewrite andb_false_r. }
  rewrite Hde.
  assert (Hex : extract_bits cls 1 (S (n + 2)) = "0" ++ bits).
  { rewrite extract_bits_from by lia.
    replace (S (n + 2) - 1)%nat with (S (S n)) by lia.
    subst cls. cbn [skipn firstn map].
    rewrite firstn_app, bit_chunks_length. fold n.
    rewrite Nat.sub_diag, firstn_0, app_nil_r.
    rewrite firstn_all2 by (rewrite bit_chunks_length; subst n; lia).
    rewrite !concat_empty_cons, bit_chunks_bits by exact Hb. reflexivity. }
  rewrite Hex. cbn [append String.length Nat.eqb].
  rewrite (binary_to_text_refines (String "0" bits)) by exact Hb.
  reflexivity.
Qed.

Lemma groups_of_8_length (m : nat) (s : string) :
  String.length s = (8 * m)%nat -> List.length (groups_of_8 s) = m.
Proof.
  revert s. induction m as [|m IH]; intros s Hl.
  - destruct s; [reflexivity|discriminate].
  - destruct s as [|a [|b [|c [|d [|e [|f [|g [|h rest]]]]]]]];
      try (simpl in Hl; lia).
    cbn [groups_of_8 List.length]. f_equal. apply IH. simpl in Hl. lia.
Qed.

Lemma character_or_placeholder_length (value : N) :
  (1 <= String.length (character_or_placeholder value))%nat.
Proof.
  unfold character_or_placeholder.
  destruct ((32 <=? value) && (value <=? 126))%N; simpl; lia.
Qed.

Lemma rendered_length (groups : list string) :
  (List.length groups
   <= String.length
        (String.concat ""
           (map (fun group => character_or_placeholder (unsigned_value group)) groups)))%nat.
Proof.
  induction groups as [|g groups IH]; [simpl; lia|].
  cbn [map]. rewrite concat_empty_cons, append_length. cbn [List.length].
  pose proof (character_or_placeholder_length (unsigned_value g)). lia.
Qed.

Lemma shifted_payload_length (bits : string) (m : nat) :
  String.length bits = (8 * m)%nat ->
  (m + 1 <= String.length (decode ("0" ++ bits)))%nat.
Proof.
  intros Hl. unfold decode.
  assert (Hp : String.length (pad_to_bytes ("0" ++ bits)) = (8 * (m + 1))%nat).
  { unfold pad_to_bytes. rewrite append_length, fill_length.
    cbn [append String.length]. rewrite Hl.
    replace (S (8 * m)) with (1 + m * 8)%nat by lia.
    rewrite Nat.Div0.mod_add. change ((8 - 1 mod 8) mod 8)%nat with 7%nat. lia. }
  pose proof (groups_of_8_length (m + 1) _ Hp) as Hg.
  pose proof (rendered_length (groups_of_8 (pad_to_bytes ("0" ++ bits)))) as Hr.
  lia.
Qed.

(** For every non-empty text of code points up to 255, decoding the
    nominal frame of its bits returns a text longer than the one sent. *)
Lemma nominal_round_trip_fails (text : list N) :
  text <> [] -> Forall (fun c => (c <= 255)%N) text ->
  exists received,
    decode_classifications (nominal_frame (text_to_binary text)) = Message received
    /\ (List.length text < String.length received)%nat.
Proof.
  intros Hne Hc.
  assert (Hl : String.length (text_to_binary text) = (8 * List.length text)%nat)
    by (now apply text_to_binary_length).
  assert (Hb : is_binary (text_to_binary text) = true).
  { clear Hne Hl. induction Hc as [|c text Hc _ IH]; [reflexivity|].
    rewrite text_to_binary_cons.
    destruct (format_08b_small c Hc) as [_ [Hbc _]].
    revert Hbc. generalize (format_08b c) as s. intros s.
    induction s as [|x s IHs]; intros Hs; [exact IH|].
    simpl in *. apply andb_prop in Hs. destruct Hs as [Hx Hs].
    rewrite Hx. simpl. now apply IHs. }
  assert (Hn : text_to_binary text <> "").
  { intros E. rewrite E in Hl. destruct text; [congruence|simpl in Hl; lia]. }
  exists (decode ("0" ++ text_to_binary text)).
  split; [now apply decode_nominal_frame|].
  pose proof (shifted_payload_length _ _ Hl). lia.
Qed.

End Frame.

(** ** The receiver on the sender's signal *)

Section Chunking.
Import Sender Receiver CodecSpec.
Local Open Scope nat_scope.

Lemma py_range_multiple (k c : nat) :
  (0 < c)%nat -> py_range (k * c) c = map (fun j => (j * c)%nat) (seq 0 k).
Proof.
  intros Hc. unfold py_range. f_equal. f_equal.
  symmetry. apply (Nat.div_unique _ c k (c - 1)); lia.
Qed.

Lemma slice_first_block {A : Type} (c : nat) (block rest : list A) :
  List.length block = c -> slice 0 (0 + c) (block ++ rest) = block.
Proof.
  intros Hl. unfold slice. cbn [skipn]. replace (0 + c - 0)%nat with c by lia.
  rewrite firstn_app, Hl, Nat.sub_diag, firstn_0, app_nil_r.
  apply firstn_all2. lia.
Qed.

Lemma slice_later_block {A : Type} (c j : nat) (block rest : list A) :
  List.length block = c ->
  slice (S j * c) (S j * c + c) (block ++ rest) = slice (j * c) (j * c + c) rest.
Proof.
  intros Hl. unfold slice.
  replace (S j * c + c - S j * c)%nat with c by lia.
  replace (j * c + c - j * c)%nat with c by lia.
  f_equal. rewrite skipn_app, Hl.
  rewrite skipn_all2 by lia. cbn [app]. f_equal. lia.
Qed.

Lemma slices_of_blocks {A : Type} (c : nat) (blocks : list (list A)) :
  Forall (fun block => List.length block = c) blocks ->
  map (fun i => slice i (i + c) (List.concat blocks))
      (map (fun j => (j * c)%nat) (seq 0 (List.length blocks)))
  = blocks.
Proof.
  induction 1 as [|block blocks Hl _ IH]; [reflexivity|].
  cbn [List.length seq map List.concat].
  rewrite (slice_first_block c block _ Hl). f_equal.
  rewrite <- seq_shift, !map_map. rewrite map_map in IH.
  rewrite <- IH at 2. apply map_ext. intros j.
  apply slice_later_block. exact Hl.
Qed.

Lemma concat_blocks_length {A : Type} (c : nat) (blocks : list (list A)) :
  Forall (fun block => List.length block = c) blocks ->
  List.length (List.concat blocks) = (List.length blocks * c)%nat.
Proof.
  induction 1 as [|block blocks Hl _ IH]; [reflexivity|].
  cbn [List.concat List.length]. rewrite length_app, IH, Hl. lia.
Qed.

(** A buffer made of whole blocks of [chunk_size] samples is cut back into
    exactly those blocks. *)
Lemma split_chunks_blocks (chunk_size : Z) (blocks : list (list R)) :
  (0 < chunk_size)%Z ->
  Forall (fun block => List.length block = Z.to_nat chunk_size) blocks ->
  split_chunks chunk_size (List.concat blocks) = Ret blocks.
Proof.
  intros Hc Hb. unfold split_chunks.
  destruct (chunk_size =? 0)%Z eqn:E0; [apply Z.eqb_eq in E0; lia|].
  destruct (chunk_size <? 0)%Z eqn:E1; [apply Z.ltb_lt in E1; lia|].
  set (c := Z.to_nat chunk_size) in *.
  assert (Hc0 : (0 < c)%nat) by (subst c; lia).
  rewrite (concat_blocks_length c blocks Hb), (py_range_multiple _ c Hc0).
  rewrite (slices_of_blocks c blocks Hb). f_equal.
  clear -Hb. induction Hb as [|block blocks Hl _ IH]; [reflexivity|].
  cbn [filter]. rewrite Hl.
  replace (c / 2 <=? c)%nat with true
    by (symmetry; apply Nat.leb_le; apply Nat.Div0.div_le_upper_bound; lia).
  now rewrite IH.
Qed.

End Chunking.

Section SignalShape.
Import Sender Receiver CodecSpec.
Local Open Scope nat_scope.

Lemma bit_tones_blocks (cfg : config) (bits : list ascii) (bit_samples : Z) :
  int_of_product (sample_rate cfg) (bit_duration cfg) = Ret bit_samples ->
  (0 <= bit_samples)%Z ->
  exists tones,
    mapM (fun bit => generate_tone cfg (bit_frequency bit) (bit_duration cfg)) bits
    = Ret tones
    /\ List.length tones = List.length bits
    /\ Forall (fun tone => Z.of_nat (List.length tone) = bit_samples) tones.
Proof.
  intros Ep Hs. induction bits as [|bit bits [tones [Et [Ll Lt]]]].
  - exists []. repeat split. constructor.
  - destruct (generate_tone_samples cfg (bit_frequency bit) (bit_duration cfg)
                bit_samples Ep Hs)
      as [tone [E1 L1]].
    exists (tone :: tones). cbn [mapM]. rewrite E1. cbn [bind].
    rewrite Et. cbn [bind]. split; [reflexivity|]. split.
    + simpl. now rewrite Ll.
    + constructor; assumption.
Qed.

Lemma halves_length {A : Type} (c : nat) (l : list A) :
  List.length l = (2 * c)%nat ->
  List.length (firstn c l) = c /\ List.length (skipn c l) = c
  /\ (firstn c l ++ skipn c l)%list = l.
Proof.
  intros H. rewrite length_firstn, length_skipn, firstn_skipn.
  repeat split; lia.
Qed.

End SignalShape.

(** ** The text codec, both ways *)

Section CodecRoundTrip.
Import Sender Receiver CodecSpec.

Lemma text_to_binary_binary (text : list N) :
  Forall (fun c => (c <= 255)%N) text -> is_binary (text_to_binary text) = true.
Proof.
  induction 1 as [|c text Hc _ IH]; [reflexivity|].
  rewrite text_to_binary_cons.
  destruct (format_08b_small c Hc) as [_ [Hbc _]].
  revert Hbc. generalize (format_08b c) as s. intros s.
  induction s as [|x s IHs]; intros Hs; [exact IH|].
  simpl in *. apply andb_prop in Hs. destruct Hs as [Hx Hs].
  rewrite Hx. simpl. now apply IHs.
Qed.

Lemma groups_of_8_app (group rest : string) :
  String.length group = 8%nat ->
  groups_of_8 (group ++ rest) = group :: groups_of_8 rest.
Proof.
  intros Hl.
  destruct group as [|a [|b [|c [|d [|e [|f [|g [|h [|i tl]]]]]]]]];
    try discriminate. reflexivity.
Qed.

Lemma groups_of_text (text : list N) :
  Forall (fun c => (c <= 255)%N) text ->
  groups_of_8 (text_to_binary text) = map format_08b text.
Proof.
  induction 1 as [|c text Hc _ IH]; [reflexivity|].
  rewrite text_to_binary_cons.
  destruct (format_08b_small c Hc) as [Hl _].
  rewrite (groups_of_8_app _ _ Hl), IH. reflexivity.
Qed.

Lemma pad_to_bytes_aligned (bits : string) (m : nat) :
  String.length bits = (8 * m)%nat -> pad_to_bytes bits = bits.
Proof.
  intros Hl. unfold pad_to_bytes. rewrite Hl.
  replace (8 * m)%nat with (0 + m * 8)%nat by lia.
  rewrite Nat.Div0.mod_add. simpl. apply append_nil_r.
Qed.

Lemma binary_to_text_of_codes (text : list N) :
  Forall (fun c => (c <= 255)%N) text ->
  binary_to_text (text_to_binary text)
  = Ret (String.concat "" (map render_code text)).
Proof.
  intros Hc.
  rewrite binary_to_text_refines by (now apply text_to_binary_binary).
  unfold decode.
  rewrite (pad_to_bytes_aligned _ (List.length text))
    by (now apply text_to_binary_length).
  rewrite (groups_of_text text Hc), map_map. f_equal. f_equal.
  clear -Hc. induction Hc as [|c text Hc _ IH]; [reflexivity|].
  cbn [map]. rewrite IH. f_equal.
  destruct (format_08b_small c Hc) as [_ [_ Hv]]. now rewrite Hv.
Qed.

Lemma render_printable (text : list N) :
  Forall (fun c => (32 <= c <= 126)%N) text ->
  String.concat "" (map render_code text) = text_string text.
Proof.
  induction 1 as [|c text [H1 H2] _ IH]; [reflexivity|].
  cbn [map]. rewrite concat_empty_cons, IH. unfold render_code.
  apply N.leb_le in H1, H2. rewrite H1, H2. reflexivity.
Qed.

Lemma codec_round_trip (text : list N) :
  Forall (fun c => (32 <= c <= 126)%N) text ->
  binary_to_text (text_to_binary text) = Ret (text_string text).
Proof.
  intros Hp. rewrite binary_to_text_of_codes.
  - now rewrite render_printable.
  - eapply Forall_impl; [|exact Hp]. cbv beta. intros c Hc. lia.
Qed.

Lemma text_string_py_str (s : string) : text_string (py_str s) = s.
Proof.
  unfold text_string, py_str. rewrite map_map.
  rewrite (map_ext _ (fun a => a)) by (intros a; apply ascii_N_embedding).
  rewrite map_id. apply string_of_list_ascii_of_string.
Qed.

End CodecRoundTrip.

(** ** Frames in a classification sequence *)

Section FrameDecoding.
Import Sender Receiver CodecSpec.
Local Open Scope nat_scope.

Lemma class_at_app_l (l1 l2 : list (Q * classification)) (j : nat) :
  j < List.length l1 -> class_at (l1 ++ l2) j = class_at l1 j.
Proof. intros H. unfold class_at. now rewrite app_nth1. Qed.

Lemma class_at_app_r (l1 l2 : list (Q * classification)) (j : nat) :
  class_at (l1 ++ l2) (List.length l1 + j) = class_at l2 j.
Proof.
  unfold class_at. rewrite app_nth2 by lia. f_equal. f_equal. lia.
Qed.

Lemma class_at_in (l : list (Q * classification)) (j : nat) :
  j < List.length l -> In (nth j l (0%Q, NOISE)) l.
Proof. intros H. now apply nth_In. Qed.

Lemma find_boundaries_before_start (pre rest : list (Q * classification)) (i : nat) :
  Forall (fun entry => snd entry <> START) pre ->
  find_boundaries (pre ++ rest) i None
  = find_boundaries rest (i + List.length pre) None.
Proof.
  intros H. revert i. induction H as [|[freq c] pre Hc _ IH]; intros i.
  - simpl. now rewrite Nat.add_0_r.
  - cbn [app find_boundaries List.length]. simpl in Hc.
    replace (i + S (List.length pre)) with (S i + List.length pre) by lia.
    destruct c; try apply IH. congruence.
Qed.

Lemma find_boundaries_before_end (mid rest : list (Q * classification)) (i s : nat) :
  Forall (fun entry => snd entry <> END) mid ->
  find_boundaries (mid ++ rest) i (Some s)
  = find_boundaries rest (i + List.length mid) (Some s).
Proof.
  intros H. revert i. induction H as [|[freq c] mid Hc _ IH]; intros i.
  - simpl. now rewrite Nat.add_0_r.
  - cbn [app find_boundaries List.length]. simpl in Hc.
    replace (i + S (List.length mid)) with (S i + List.length mid) by lia.
    destruct c; try apply IH. congruence.
Qed.

(** The forward trimming loop over a run of [k] NOISE chunks. *)
Lemma skip_noise_after_run (cls : list (Q * classification)) (k fuel data_start : nat) :
  k <= fuel ->
  data_start + k <= List.length cls ->
  (forall j, j < k -> class_at cls (data_start + j) = NOISE) ->
  (data_start + k = List.length cls \/ class_at cls (data_start + k) <> NOISE) ->
  skip_noise_after fuel cls data_start = data_start + k.
Proof.
  revert fuel data_start. induction k as [|k IH]; intros fuel ds Hf Hl Hn Hstop.
  - rewrite Nat.add_0_r in *. destruct fuel as [|fuel]; [reflexivity|].
    cbn [skip_noise_after]. destruct Hstop as [He|Hc].
    + replace (ds <? List.length cls) with false
        by (symmetry; apply Nat.ltb_ge; lia). reflexivity.
    + destruct (class_at cls ds); try congruence;
        cbn [classification_eqb]; now rewrite andb_false_r.
  - destruct fuel as [|fuel]; [lia|]. cbn [skip_noise_after].
    replace (ds <? List.length cls) with true
      by (symmetry; apply Nat.ltb_lt; lia).
    pose proof (Hn 0 ltac:(lia)) as H0. rewrite Nat.add_0_r in H0.
    rewrite H0. cbn [classification_eqb andb].
    rewrite (IH fuel (S ds)); try lia.
    + intros j Hj. replace (S ds + j) with (ds + S j) by lia. apply Hn. lia.
    + replace (S ds + k) with (ds + S k) by lia. exact Hstop.
Qed.

(** The backward trimming loop over a run of [k] NOISE chunks. *)
Lemma skip_noise_before_run (cls : list (Q * classification)) (k data_start data_end : nat) :
  data_start + k <= data_end ->
  (forall j, j < k -> class_at cls (data_end - 1 - j) = NOISE) ->
  (data_end - k = data_start \/ class_at cls (data_end - k - 1) <> NOISE) ->
  skip_noise_before cls data_start data_end = data_end - k.
Proof.
  revert data_end. induction k as [|k IH]; intros de Hl Hn Hstop.
  - rewrite Nat.sub_0_r in *. destruct de as [|before]; [reflexivity|].
    cbn [skip_noise_before]. destruct Hstop as [He|Hc].
    + replace (data_start <? S before) with false
        by (symmetry; apply Nat.ltb_ge; lia). reflexivity.
    + replace (S before - 1) with before in Hc by lia.
      destruct (class_at cls before); try congruence;
        cbn [classification_eqb]; now rewrite andb_false_r.
  - destruct de as [|before]; [lia|]. cbn [skip_noise_before].
    replace (data_start <? S before) with true
      by (symmetry; apply Nat.ltb_lt; lia).
    pose proof (Hn 0 ltac:(lia)) as H0.
    replace (S before - 1 - 0) with before in H0 by lia.
    rewrite H0. cbn [classification_eqb andb].
    rewrite (IH before); try lia.
    + intros j Hj. replace (before - 1 - j) with (S before - 1 - S j) by lia.
      apply Hn. lia.
    + replace (before - k) with (S before - S k) by lia. exact Hstop.
Qed.

Lemma class_at_forall (P : classification -> Prop) (l : list (Q * classification))
    (j : nat) :
  Forall (fun entry => P (snd entry)) l -> j < List.length l -> P (class_at l j).
Proof.
  intros H Hj. rewrite Forall_forall in H. apply H. now apply nth_In.
Qed.

Lemma skipn_app_exact {A : Type} (l1 l2 : list A) :
  skipn (List.length l1) (l1 ++ l2) = l2.
Proof. now rewrite skipn_app, skipn_all, Nat.sub_diag. Qed.

Lemma firstn_app_exact {A : Type} (l1 l2 : list A) :
  firstn (List.length l1) (l1 ++ l2) = l1.
Proof. now rewrite firstn_app, firstn_all, Nat.sub_diag, firstn_0, app_nil_r. Qed.

Lemma payload_bits (payload : list (Q * classification)) :
  Forall (fun entry => snd entry = ZERO \/ snd entry = ONE) payload ->
  is_binary (String.concat "" (map chunk_bits payload)) = true
  /\ String.length (String.concat "" (map chunk_bits payload)) = List.length payload.
Proof.
  induction 1 as [|[freq c] payload Hc _ [IHb IHl]]; [split; reflexivity|].
  cbn [map]. rewrite concat_empty_cons, append_length, IHl.
  simpl in Hc. destruct Hc as [Hc|Hc]; subst c; simpl; auto.
Qed.

(** A frame whose START tone fills a single chunk: chunks without START,
    the START chunk, NOISE chunks, the payload of ZERO and ONE chunks,
    NOISE chunks, then the end of the buffer or an END chunk. *)
Lemma decode_framed_payload (fs : Q)
    (pre lead payload trail rest : list (Q * classification)) :
  Forall (fun entry => snd entry <> START) pre ->
  Forall (fun entry => snd entry = NOISE) lead ->
  Forall (fun entry => snd entry = ZERO \/ snd entry = ONE) payload ->
  payload <> [] ->
  Forall (fun entry => snd entry = NOISE) trail ->
  (rest = [] \/ exists fe tl, rest = (fe, END) :: tl) ->
  decode_classifications (pre ++ (fs, START) :: lead ++ payload ++ trail ++ rest)
  = Message (decode (String.concat "" (map chunk_bits payload))).
Proof.
  intros Hpre Hlead Hpay Hne Htrail Hrest.
  set (s := List.length pre). set (a := List.length lead).
  set (p := List.length payload). set (b := List.length trail).
  assert (Hp : 0 < p) by (subst p; destruct payload; [congruence|simpl; lia]).
  set (cls := (pre ++ (fs, START) :: lead ++ payload ++ trail ++ rest)%list).
  assert (Ecls : cls = ((pre ++ [(fs, START)]) ++ lead ++ payload ++ trail ++ rest)%list)
    by (subst cls; now rewrite <- app_assoc).
  assert (Ecls2 : cls = (((pre ++ [(fs, START)]) ++ lead) ++ payload ++ trail ++ rest)%list)
    by (rewrite Ecls; now rewrite <- !app_assoc).
  assert (Ecls3 : cls = ((((pre ++ [(fs, START)]) ++ lead) ++ payload) ++ trail ++ rest)%list)
    by (rewrite Ecls2; now rewrite <- !app_assoc).
  assert (L1 : List.length (pre ++ [(fs, START)]) = s + 1)
    by (rewrite length_app; reflexivity).
  assert (L2 : List.length ((pre ++ [(fs, START)]) ++ lead) = s + 1 + a)
    by (rewrite length_app, L1; reflexivity).
  assert (L3 : List.length (((pre ++ [(fs, START)]) ++ lead) ++ payload) = s + 1 + a + p)
    by (rewrite length_app, L2; reflexivity).
  assert (Hlen : List.length cls = s + 1 + a + p + b + List.length rest).
  { rewrite Ecls3, length_app, L3, length_app. subst b. lia. }
  assert (Hpay' : Forall (fun entry => snd entry <> NOISE) payload).
  { eapply Forall_impl; [|exact Hpay]. cbv beta. intros e [E|E]; rewrite E; discriminate. }
  (* the boundaries *)
  assert (Hfb : exists found_end,
             find_boundaries cls 0 None = (Some s, found_end)
             /\ match found_end with
                | Some i => i
                | None => List.length cls
                end = s + 1 + a + p + b).
  { subst cls. rewrite find_boundaries_before_start by exact Hpre.
    cbn [find_boundaries]. rewrite !app_assoc.
    rewrite find_boundaries_before_end.
    - rewrite !length_app. fold a p b s.
      destruct Hrest as [E|[fe [tl E]]]; subst rest.
      + exists None. split; [reflexivity|].
        repeat (rewrite length_app || cbn [List.length]).
        fold s a p b. lia.
      + exists (Some (S (0 + s) + (a + p + b))). cbn [find_boundaries].
        split; [reflexivity|lia].
    - apply Forall_app. split; [apply Forall_app; split|].
      + eapply Forall_impl; [|exact Hlead]. cbv beta. intros e E. rewrite E. discriminate.
      + eapply Forall_impl; [|exact Hpay]. cbv beta.
        intros e [E|E]; rewrite E; discriminate.
      + eapply Forall_impl; [|exact Htrail]. cbv beta. intros e E. rewrite E. discriminate. }
  destruct Hfb as [found_end [Hfb Hend]].
  unfold decode_classifications. fold cls. rewrite Hfb, Hend.
  (* the trimming *)
  assert (Hds : skip_noise_after (List.length cls) cls (s + 1) = s + 1 + a).
  { apply skip_noise_after_run; try lia.
    - intros j Hj. rewrite Ecls, <- L1, class_at_app_r, class_at_app_l by exact Hj.
      now apply (class_at_forall (fun c => c = NOISE)).
    - right. rewrite Ecls2, <- L2, <- (Nat.add_0_r (List.length _)), class_at_app_r.
      rewrite class_at_app_l by exact Hp.
      now apply (class_at_forall (fun c => c <> NOISE)). }
  rewrite Hds.
  assert (Hde : skip_noise_before cls (s + 1 + a) (s + 1 + a + p + b) = s + 1 + a + p).
  { replace (s + 1 + a + p) with (s + 1 + a + p + b - b) at 2 by lia.
    apply skip_noise_before_run; try lia.
    - intros j Hj.
      replace (s + 1 + a + p + b - 1 - j) with (s + 1 + a + p + (b - 1 - j)) by lia.
      rewrite Ecls3, <- L3, class_at_app_r, class_at_app_l by (subst b; lia).
      apply (class_at_forall (fun c => c = NOISE)); [exact Htrail|subst b; lia].
    - right.
      replace (s + 1 + a + p + b - b - 1) with (s + 1 + a + (p - 1)) by lia.
      rewrite Ecls2, <- L2, class_at_app_r, class_at_app_l by (subst p; lia).
      apply (class_at_forall (fun c => c <> NOISE)); [exact Hpay'|subst p; lia]. }
  rewrite Hde.
  (* the bits *)
  assert (Hex : extract_bits cls (s + 1 + a) (s + 1 + a + p)
                = String.concat "" (map chunk_bits payload)).
  { rewrite extract_bits_from by lia.
    replace (s + 1 + a + p - (s + 1 + a)) with p by lia.
    rewrite Ecls2, <- L2, skipn_app_exact. subst p. now rewrite firstn_app_exact. }
  rewrite Hex.
  destruct (payload_bits payload Hpay) as [Hbin Hbl].
  replace (String.length (String.concat "" (map chunk_bits payload)) =? 0) with false
    by (symmetry; apply Nat.eqb_neq; fold p in Hbl; lia).
  now rewrite (binary_to_text_refines _ Hbin).
Qed.

Lemma bit_chunks_classes (bits : string) :
  Forall (fun entry => snd entry = ZERO \/ snd entry = ONE) (bit_chunks bits).
Proof.
  induction bits as [|bit bits IH]; [constructor|].
  rewrite bit_chunks_cons. constructor; [|exact IH].
  destruct (Ascii.eqb bit "1"); simpl; auto.
Qed.

Lemma decode_of_text (text : list N) :
  Forall (fun c => (32 <= c <= 126)%N) text ->
  decode (text_to_binary text) = text_string text.
Proof.
  intros Hp.
  assert (Hc : Forall (fun c => (c <= 255)%N) text)
    by (eapply Forall_impl; [|exact Hp]; cbv beta; intros c Hc; lia).
  pose proof (codec_round_trip text Hp) as Hr.
  rewrite binary_to_text_refines in Hr by (now apply text_to_binary_binary).
  now inversion Hr.
Qed.

(** The sender's bits inside a frame whose START tone fills one chunk
    come back as the text sent. *)
Lemma decode_framed_text (fs : Q) (text : list N)
    (pre lead trail rest : list (Q * classification)) :
  text <> [] ->
  Forall (fun c => (32 <= c <= 126)%N) text ->
  Forall (fun entry => snd entry <> START) pre ->
  Forall (fun entry => snd entry = NOISE) lead ->
  Forall (fun entry => snd entry = NOISE) trail ->
  (rest = [] \/ exists fe tl, rest = (fe, END) :: tl) ->
  decode_classifications
    (pre ++ (fs, START) :: lead ++ bit_chunks (text_to_binary text) ++ trail ++ rest)
  = Message (text_string text).
Proof.
  intros Hne Hp Hpre Hlead Htrail Hrest.
  assert (Hc : Forall (fun c => (c <= 255)%N) text)
    by (eapply Forall_impl; [|exact Hp]; cbv beta; intros c Hc; lia).
  rewrite decode_framed_payload; try assumption.
  - rewrite bit_chunks_bits by (now apply text_to_binary_binary).
    now rewrite decode_of_text.
  - apply bit_chunks_classes.
  - intros E. apply (f_equal (@List.length _)) in E.
    rewrite bit_chunks_length, text_to_binary_length in E by exact Hc.
    destruct text; [congruence|simpl in E; lia].
Qed.

(** A frame that holds only NOISE between its START chunk and its end. *)
Lemma decode_empty_frame (fs : Q) (pre lead rest : list (Q * classification)) :
  Forall (fun entry => snd entry <> START) pre ->
  Forall (fun entry => snd entry = NOISE) lead ->
  (rest = [] \/ exists fe tl, rest = (fe, END) :: tl) ->
  decode_classifications (pre ++ (fs, START) :: lead ++ rest) = Failed EmptyPayload.
Proof.
  intros Hpre Hlead Hrest.
  set (s := List.length pre). set (a := List.length lead).
  set (cls := (pre ++ (fs, START) :: lead ++ rest)%list).
  assert (Ecls : cls = ((pre ++ [(fs, START)]) ++ lead ++ rest)%list)
    by (subst cls; now rewrite <- app_assoc).
  assert (L1 : List.length (pre ++ [(fs, START)]) = s + 1)
    by (rewrite length_app; reflexivity).
  assert (Hlen : List.length cls = s + 1 + a + List.length rest).
  { rewrite Ecls, length_app, L1, length_app. subst a. lia. }
  assert (Hfb : exists found_end,
             find_boundaries cls 0 None = (Some s, found_end)
             /\ match found_end with
                | Some i => i
                | None => List.length cls
                end = s + 1 + a).
  { unfold cls at 1. rewrite find_boundaries_before_start by exact Hpre.
    cbn [find_boundaries]. rewrite find_boundaries_before_end.
    - fold a s. destruct Hrest as [E|[fe [tl E]]].
      + exists None. rewrite E. split; [reflexivity|].
        rewrite Hlen, E. simpl. lia.
      + exists (Some (S (0 + s) + a)). rewrite E. cbn [find_boundaries].
        split; [reflexivity|lia].
    - eapply Forall_impl; [|exact Hlead]. cbv beta. intros e E. rewrite E. discriminate. }
  destruct Hfb as [found_end [Hfb Hend]].
  unfold decode_classifications. fold cls. rewrite Hfb, Hend.
  assert (Hds : skip_noise_after (List.length cls) cls (s + 1) = s + 1 + a).
  { apply skip_noise_after_run; try lia.
    - intros j Hj. rewrite Ecls, <- L1, class_at_app_r, class_at_app_l by exact Hj.
      now apply (class_at_forall (fun c => c = NOISE)).
    - destruct Hrest as [E|[fe [tl E]]].
      + left. rewrite Hlen, E. simpl. lia.
      + right. rewrite Ecls, <- L1, class_at_app_r.
        rewrite <- (Nat.add_0_r a). unfold a. rewrite class_at_app_r, E.
        discriminate. }
  rewrite Hds.
  rewrite (skip_noise_before_run cls 0 (s + 1 + a) (s + 1 + a));
    [|lia|intros j Hj; lia|left; lia].
  unfold extract_bits. rewrite Nat.sub_0_r, Nat.sub_diag. reflexivity.
Qed.

(** What the boundary loop finds: the list splits at the first START, and
    what follows splits at the first END, if there is one. *)
Lemma find_boundaries_split (cls : list (Q * classification)) (i : nat) :
  (Forall (fun entry => snd entry <> START) cls
   /\ find_boundaries cls i None = (None, None))
  \/ (exists pre fs after,
         cls = (pre ++ (fs, START) :: after)%list
         /\ Forall (fun entry => snd entry <> START) pre
         /\ ((Forall (fun entry => snd entry <> END) after
              /\ find_boundaries cls i None = (Some (i + List.length pre), None))
             \/ (exists mid fe tl,
                    after = (mid ++ (fe, END) :: tl)%list
                    /\ Forall (fun entry => snd entry <> END) mid
                    /\ find_boundaries cls i None
                       = (Some (i + List.length pre),
                          Some (i + List.length pre + 1 + List.length mid))))).
Proof.
  assert (Hend : forall after j s,
             (Forall (fun entry => snd entry <> END) after
              /\ find_boundaries after j (Some s) = (Some s, None))
             \/ (exists mid fe tl,
                    after = (mid ++ (fe, END) :: tl)%list
                    /\ Forall (fun entry => snd entry <> END) mid
                    /\ find_boundaries after j (Some s)
                       = (Some s, Some (j + List.length mid)))).
  { induction after as [|[freq c] after IH]; intros j s.
    - left. split; [constructor|reflexivity].
    - destruct (classification_eqb c END) eqn:Ec.
      + right. exists [], freq, after. destruct c; try discriminate.
        split; [reflexivity|]. split; [constructor|].
        cbn [find_boundaries List.length]. now rewrite Nat.add_0_r.
      + assert (Hc : c <> END) by (intros E; subst c; discriminate).
        assert (Hstep : find_boundaries ((freq, c) :: after) j (Some s)
                        = find_boundaries after (S j) (Some s))
          by (destruct c; try reflexivity; congruence).
        rewrite Hstep.
        destruct (IH (S j) s) as [[Hno Hf]|[mid [fe [tl [E [Hno Hf]]]]]].
        * left. split; [constructor; assumption|exact Hf].
        * right. exists ((freq, c) :: mid), fe, tl. subst after.
          split; [reflexivity|]. split; [constructor; assumption|].
          rewrite Hf. cbn [List.length]. f_equal. f_equal. lia. }
  revert i. induction cls as [|[freq c] cls IH]; intros i.
  - left. split; [constructor|reflexivity].
  - destruct (classification_eqb c START) eqn:Ec.
    + right. exists [], freq, cls. destruct c; try discriminate.
      split; [reflexivity|]. split; [constructor|].
      cbn [find_boundaries List.length]. rewrite Nat.add_0_r.
      destruct (Hend cls (S i) i) as [[Hno Hf]|[mid [fe [tl [E [Hno Hf]]]]]].
      * left. split; assumption.
      * right. exists mid, fe, tl. split; [exact E|]. split; [exact Hno|].
        rewrite Hf. f_equal. f_equal. lia.
    + assert (Hc : c <> START) by (intros E; subst c; discriminate).
      assert (Hstep : find_boundaries ((freq, c) :: cls) i None
                      = find_boundaries cls (S i) None)
        by (destruct c; try reflexivity; congruence).
      rewrite Hstep.
      destruct (IH (S i)) as [[Hno Hf]|[pre [fs [after [E [Hpre Hcase]]]]]].
      * left. split; [constructor; assumption|exact Hf].
      * right. exists ((freq, c) :: pre), fs, after. subst cls.
        split; [reflexivity|]. split; [constructor; assumption|].
        cbn [List.length].
        replace (i + S (List.length pre)) with (S i + List.length pre) by lia.
        exact Hcase.
Qed.

Lemma is_binary_app (a b : string) :
  is_binary (a ++ b) = is_binary a && is_binary b.
Proof.
  induction a as [|c a IH]; [reflexivity|].
  simpl. rewrite IH. now rewrite andb_assoc.
Qed.

Lemma guess_bit_binary (freq : Q) :
  is_binary (guess_bit freq) = true /\ String.length (guess_bit freq) = 1.
Proof. unfold guess_bit. destruct (Qltb _ _); split; reflexivity. Qed.

(** A frame whose START tone fills two chunks: the chunk after the first
    START is START again, not NOISE, so the forward trimming loop stops at
    once and the NOISE chunk that follows stays in the payload window,
    where the fallback guess turns it into a bit. *)
Lemma decode_double_start (f1 f2 fn : Q)
    (payload trail rest : list (Q * classification)) :
  Forall (fun entry => snd entry = ZERO \/ snd entry = ONE) payload ->
  payload <> [] ->
  Forall (fun entry => snd entry = NOISE) trail ->
  (rest = [] \/ exists fe tl, rest = (fe, END) :: tl) ->
  decode_classifications
    ((f1, START) :: (f2, START) :: (fn, NOISE) :: payload ++ trail ++ rest)
  = Message (decode (guess_bit fn ++ String.concat "" (map chunk_bits payload))).
Proof.
  intros Hpay Hne Htrail Hrest.
  set (p := List.length payload). set (b := List.length trail).
  assert (Hp : 0 < p) by (subst p; destruct payload; [congruence|simpl; lia]).
  set (head := [(f1, START); (f2, START); (fn, NOISE)]).
  set (cls := ((f1, START) :: (f2, START) :: (fn, NOISE)
               :: payload ++ trail ++ rest)%list).
  assert (Ecls : cls = (head ++ payload ++ trail ++ rest)%list) by reflexivity.
  assert (Ecls2 : cls = ((head ++ payload) ++ trail ++ rest)%list)
    by (rewrite Ecls; now rewrite <- !app_assoc).
  assert (L1 : List.length head = 3) by reflexivity.
  assert (L2 : List.length (head ++ payload) = 3 + p)
    by (rewrite length_app, L1; reflexivity).
  assert (Hlen : List.length cls = 3 + p + b + List.length rest).
  { rewrite Ecls2, length_app, L2, length_app. subst b. lia. }
  assert (Hpay' : Forall (fun entry => snd entry <> NOISE) payload).
  { eapply Forall_impl; [|exact Hpay]. cbv beta. intros e [E|E]; rewrite E; discriminate. }
  assert (Hfb : exists found_end,
             find_boundaries cls 0 None = (Some 0, found_end)
             /\ match found_end with
                | Some i => i
                | None => List.length cls
                end = 3 + p + b).
  { subst cls. cbn [find_boundaries]. rewrite app_assoc.
    rewrite find_boundaries_before_end.
    - rewrite length_app. fold p b.
      destruct Hrest as [E|[fe [tl E]]]; subst rest.
      + exists None. split; [reflexivity|].
        cbn [List.length]. rewrite app_nil_r, length_app. fold p b. lia.
      + exists (Some (3 + (p + b))). cbn [find_boundaries].
        split; [reflexivity|lia].
    - apply Forall_app. split.
      + eapply Forall_impl; [|exact Hpay]. cbv beta.
        intros e [E|E]; rewrite E; discriminate.
      + eapply Forall_impl; [|exact Htrail]. cbv beta. intros e E. rewrite E. discriminate. }
  destruct Hfb as [found_end [Hfb Hend]].
  unfold decode_classifications. fold cls. rewrite Hfb, Hend.
  assert (Hds : skip_noise_after (List.length cls) cls (0 + 1) = 1).
  { rewrite Hlen. cbn [skip_noise_after Nat.add].
    replace (class_at cls 1) with START by reflexivity.
    cbn [classification_eqb]. now rewrite andb_false_r. }
  rewrite Hds.
  assert (Hde : skip_noise_before cls 1 (3 + p + b) = 3 + p).
  { replace (3 + p) with (3 + p + b - b) at 2 by lia.
    apply skip_noise_before_run; try lia.
    - intros j Hj.
      replace (3 + p + b - 1 - j) with (3 + p + (b - 1 - j)) by lia.
      rewrite Ecls2, <- L2, class_at_app_r, class_at_app_l by (subst b; lia).
      apply (class_at_forall (fun c => c = NOISE)); [exact Htrail|subst b; lia].
    - right.
      replace (3 + p + b - b - 1) with (3 + (p - 1)) by lia.
      rewrite Ecls, <- L1, class_at_app_r, class_at_app_l by (subst p; lia).
      apply (class_at_forall (fun c => c <> NOISE)); [exact Hpay'|subst p; lia]. }
  rewrite Hde.
  assert (Hex : extract_bits cls 1 (3 + p)
                = guess_bit fn ++ String.concat "" (map chunk_bits payload)).
  { rewrite extract_bits_from by lia.
    replace (3 + p - 1) with (S (S p)) by lia.
    subst cls. cbn [skipn firstn map]. subst p.
    rewrite firstn_app_exact. rewrite !concat_empty_cons. reflexivity. }
  rewrite Hex.
  destruct (payload_bits payload Hpay) as [Hbin Hbl].
  destruct (guess_bit_binary fn) as [Hgb Hgl].
  replace (String.length (guess_bit fn ++ String.concat "" (map chunk_bits payload)) =? 0)
    with false
    by (symmetry; apply Nat.eqb_neq; rewrite append_length; lia).
  rewrite (binary_to_text_refines _); [reflexivity|].
  rewrite is_binary_app. now rewrite Hgb, Hbin.
Qed.

Lemma chunk_bits_binary (entry : Q * classification) :
  is_binary (chunk_bits entry) = true.
Proof.
  destruct entry as [freq c]. destruct c; try reflexivity.
  simpl. unfold guess_bit. destruct (Qltb _ _); reflexivity.
Qed.

Lemma extract_bits_binary (cls : list (Q * classification)) (a b : nat) :
  is_binary (extract_bits cls a b) = true.
Proof.
  unfold extract_bits. generalize (seq a (b - a)) as idx. intros idx.
  assert (H : forall acc, is_binary acc = true ->
            is_binary (fold_left (fun binary_data i =>
                         binary_data ++ chunk_bits (nth i cls (0%Q, NOISE)))
                         idx acc) = true).
  { induction idx as [|i idx IH]; intros acc Hacc; [exact Hacc|].
    cbn [fold_left]. apply IH. rewrite is_binary_app, Hacc.
    apply chunk_bits_binary. }
  now apply H.
Qed.

Lemma decode_not_empty (bits : string) :
  bits <> "" -> decode bits <> "".
Proof.
  intros Hne E. apply (f_equal String.length) in E. unfold decode in E.
  destruct (pad_to_bytes_length bits) as [m Hm].
  pose proof (groups_of_8_length m _ Hm) as Hg.
  pose proof (rendered_length (groups_of_8 (pad_to_bytes bits))) as Hr.
  assert (Hl : String.length bits <= String.length (pad_to_bytes bits))
    by (unfold pad_to_bytes; rewrite append_length; lia).
  assert (0 < String.length bits) by (destruct bits; [congruence|simpl; lia]).
  simpl in E. lia.
Qed.

(** The three outcomes of decoding a classification sequence. *)
Lemma decode_outcomes (cls : list (Q * classification)) :
  (decode_classifications cls = Failed NoStartSignal
   /\ Forall (fun entry => snd entry <> START) cls)
  \/ (decode_classifications cls = Failed EmptyPayload
      /\ Exists (fun entry => snd entry = START) cls)
  \/ (exists message,
         decode_classifications cls = Message message
         /\ message <> ""
         /\ Exists (fun entry => snd entry = START) cls).
Proof.
  destruct (find_boundaries_split cls 0) as [[Hno Hf]|[pre [fs [after [E [Hpre Hcase]]]]]].
  - left. split; [now apply decode_no_start|exact Hno].
  - assert (Hex : Exists (fun entry => snd entry = START) cls).
    { subst cls. apply Exists_app. right. now constructor. }
    assert (Hfb : exists s found_end, find_boundaries cls 0 None = (Some s, found_end)).
    { destruct Hcase as [[_ Hf]|[mid [fe [tl [_ [_ Hf]]]]]]; eauto. }
    destruct Hfb as [s [found_end Hfb]].
    unfold decode_classifications. rewrite Hfb.
    set (bits := extract_bits cls _ _).
    destruct (String.length bits =? 0) eqn:El.
    + right. left. split; [reflexivity|exact Hex].
    + right. right.
      rewrite (binary_to_text_refines bits) by apply extract_bits_binary.
      exists (decode bits). split; [reflexivity|]. split; [|exact Hex].
      apply decode_not_empty. intros Eb. rewrite Eb in El. discriminate.
Qed.

End FrameDecoding.

(** ** The payload window *)

Section Trimming.
Import Receiver.
Local Open Scope nat_scope.

Lemma skip_noise_after_skipped (fuel : nat) (cls : list (Q * classification))
    (data_start : nat) :
  data_start <= skip_noise_after fuel cls data_start
  /\ forall j, data_start <= j < skip_noise_after fuel cls data_start ->
               class_at cls j = NOISE.
Proof.
  revert data_start. induction fuel as [|fuel IH]; intros ds.
  - simpl. split; [lia|intros j Hj; lia].
  - cbn [skip_noise_after].
    destruct (ds <? List.length cls) eqn:El; cbn [andb];
      [|split; [lia|intros j Hj; lia]].
    destruct (classification_eqb (class_at cls ds) NOISE) eqn:Ec;
      [|split; [lia|intros j Hj; lia]].
    destruct (IH (S ds)) as [Hle Hall]. split; [lia|].
    intros j Hj. destruct (Nat.eq_dec j ds) as [E|E].
    + subst j. destruct (class_at cls ds); try discriminate. reflexivity.
    + apply Hall. lia.
Qed.

Lemma skip_noise_before_skipped (cls : list (Q * classification))
    (data_start data_end : nat) :
  (forall j, skip_noise_before cls data_start data_end <= j < data_end ->
             class_at cls j = NOISE)
  /\ (data_start < skip_noise_before cls data_start data_end ->
      class_at cls (skip_noise_before cls data_start data_end - 1) <> NOISE).
Proof.
  induction data_end as [|before [IHall IHstop]].
  - simpl. split; [intros j Hj; lia|intros H; lia].
  - cbn [skip_noise_before].
    destruct (data_start <? S before) eqn:El; cbn [andb].
    + destruct (classification_eqb (class_at cls before) NOISE) eqn:Ec.
      * split; [|exact IHstop].
        intros j Hj. destruct (Nat.eq_dec j before) as [E|E].
        -- subst j. destruct (class_at cls before); try discriminate. reflexivity.
        -- apply IHall. lia.
      * split; [intros j Hj; lia|]. intros _.
        replace (S before - 1) with before by lia.
        intros E. rewrite E in Ec. discriminate.
    + split; [intros j Hj; lia|]. intros H. apply Nat.ltb_ge in El. lia.
Qed.

Lemma payload_window (cls : list (Q * classification)) (start_idx end_idx : nat) :
  let data_start := skip_noise_after (List.length cls) cls (start_idx + 1) in
  let data_end := skip_noise_before cls data_start end_idx in
  end_idx <= List.length cls ->
  start_idx + 1 <= data_start
  /\ data_end <= end_idx
  /\ (forall j, start_idx + 1 <= j < data_start -> class_at cls j = NOISE)
  /\ (forall j, data_end <= j < end_idx -> class_at cls j = NOISE)
  /\ (data_start < data_end ->
      class_at cls data_start <> NOISE /\ class_at cls (data_end - 1) <> NOISE).
Proof.
  intros data_start data_end Hend.
  destruct (skip_noise_after_skipped (List.length cls) cls (start_idx + 1))
    as [Hle Hlead].
  destruct (skip_noise_before_skipped cls data_start end_idx) as [Htrail Hstop].
  pose proof (skip_noise_before_le cls data_start end_idx) as Hde.
  fold data_start in Hle, Hlead. fold data_end in Htrail, Hstop, Hde.
  split; [exact Hle|]. split; [exact Hde|]. split; [exact Hlead|].
  split; [exact Htrail|]. intros Hw. split; [|now apply Hstop].
  destruct (skip_noise_after_exit (List.length cls) cls (start_idx + 1))
    as [Hout|Hc]; [lia| |exact Hc].
  fold data_start in Hout. lia.
Qed.

End Trimming.

(** ** The classifier as intervals *)

Section ClassifierIntervals.
Import Receiver.

Lemma classify_intervals (freq : Q) :
  (classify_frequency freq = START <-> (450 < freq /\ freq < 550)%Q)
  /\ (classify_frequency freq = END <-> (2950 < freq /\ freq < 3050)%Q)
  /\ (classify_frequency freq = ZERO <-> (950 < freq /\ freq < 1050)%Q)
  /\ (classify_frequency freq = ONE <-> (1950 < freq /\ freq < 2050)%Q)
  /\ (classify_frequency freq = NOISE <->
      ((freq <= 450 \/ 550 <= freq) /\ (freq <= 950 \/ 1050 <= freq)
       /\ (freq <= 1950 \/ 2050 <= freq) /\ (freq <= 2950 \/ 3050 <= freq))%Q).
Proof.
  unfold classify_frequency.
  destruct (within_tolerance freq freq_start) eqn:E1;
  destruct (within_tolerance freq freq_end) eqn:E2;
  destruct (within_tolerance freq freq_0) eqn:E3;
  destruct (within_tolerance freq freq_1) eqn:E4;
  repeat match goal with
         | H : within_tolerance _ _ = true |- _ =>
             apply within_tolerance_bounds in H; unfold inject_Z in H
         | H : within_tolerance _ _ = false |- _ =>
             apply outside_tolerance_bounds in H; unfold inject_Z in H
         end;
  unfold freq_start, freq_end, freq_0, freq_1 in *;
  repeat split; intros; try discriminate; try reflexivity; try Lqa.lra;
  exfalso; Lqa.lra.
Qed.

End ClassifierIntervals.

(** ** Chunking of any buffer *)

Section ChunkCover.
Import Receiver.
Local Open Scope nat_scope.

Lemma slices_nil {A : Type} (size : nat) :
  0 < size ->
  map (fun i => slice i (i + size) (@nil A)) (py_range 0 size) = [].
Proof.
  intros Hs. unfold py_range.
  replace ((0 + size - 1) / size) with 0 by (symmetry; apply Nat.div_small; lia).
  reflexivity.
Qed.

Lemma slices_short {A : Type} (size : nat) (audio : list A) :
  0 < List.length audio <= size ->
  map (fun i => slice i (i + size) audio) (py_range (List.length audio) size)
  = [audio].
Proof.
  intros Hl. unfold py_range.
  replace ((List.length audio + size - 1) / size) with 1
    by (apply (Nat.div_unique _ size 1 (List.length audio - 1)); lia).
  cbn [seq map]. unfold slice. cbn [skipn Nat.mul Nat.add].
  rewrite Nat.sub_0_r. f_equal. apply firstn_all2. lia.
Qed.

Lemma slices_long {A : Type} (size : nat) (audio : list A) :
  0 < size < List.length audio ->
  map (fun i => slice i (i + size) audio) (py_range (List.length audio) size)
  = firstn size audio
    :: map (fun i => slice i (i + size) (skipn size audio))
           (py_range (List.length (skipn size audio)) size).
Proof.
  intros Hl. unfold py_range. rewrite length_skipn.
  replace ((List.length audio + size - 1) / size)
    with (S ((List.length audio - size + size - 1) / size)).
  2:{ replace (List.length audio + size - 1)
        with ((List.length audio - size + size - 1) + 1 * size) by lia.
      rewrite Nat.div_add by lia. lia. }
  cbn [seq map]. f_equal.
  - unfold slice. cbn [skipn Nat.mul Nat.add]. now rewrite Nat.sub_0_r.
  - rewrite <- seq_shift, !map_map. apply map_ext. intros j.
    unfold slice. rewrite skipn_skipn.
    replace (S j * size + size - S j * size) with size by lia.
    replace (j * size + size - j * size) with size by lia.
    f_equal. f_equal. lia.
Qed.

(** The chunks kept by the receiver, for a positive chunk size. *)
Lemma kept_chunks_cover (size fuel : nat) (audio : list R) :
  0 < size -> List.length audio <= fuel ->
  exists chunks tail,
    filter (fun chunk => size / 2 <=? List.length chunk)
      (map (fun i => slice i (i + size) audio) (py_range (List.length audio) size))
    = chunks
    /\ audio = (List.concat chunks ++ tail)%list
    /\ Forall (fun chunk => 1 <= List.length chunk <= size
                            /\ size / 2 <= List.length chunk) chunks
    /\ Forall (fun chunk => List.length chunk = size) (removelast chunks)
    /\ (tail = [] \/ List.length tail < size / 2).
Proof.
  intros Hs. revert audio. induction fuel as [|fuel IH]; intros audio Hf.
  - destruct audio; [|simpl in Hf; lia]. exists [], [].
    rewrite slices_nil by exact Hs. repeat split; auto; constructor.
  - destruct (Nat.eq_dec (List.length audio) 0) as [E0|E0].
    + destruct audio; [|discriminate]. exists [], [].
      rewrite slices_nil by exact Hs. repeat split; auto; constructor.
    + destruct (le_lt_dec (List.length audio) size) as [Hshort|Hlong].
      * rewrite slices_short by lia. cbn [filter].
        destruct (size / 2 <=? List.length audio) eqn:Ek.
        -- apply Nat.leb_le in Ek. exists [audio], [].
           split; [reflexivity|]. split; [simpl; now rewrite !app_nil_r|].
           split; [repeat constructor; lia|]. split; [constructor|now left].
        -- apply Nat.leb_gt in Ek. exists [], audio.
           split; [reflexivity|]. split; [reflexivity|].
           split; [constructor|]. split; [constructor|now right].
      * rewrite slices_long by lia. cbn [filter].
        assert (Hfull : List.length (firstn size audio) = size)
          by (rewrite length_firstn; lia).
        rewrite Hfull.
        replace (size / 2 <=? size) with true
          by (symmetry; apply Nat.leb_le; apply Nat.Div0.div_le_upper_bound; lia).
        destruct (IH (skipn size audio)) as [chunks [tail [Ec [Ea [Hb [Hfl Ht]]]]]];
          [rewrite length_skipn; lia|].
        exists (firstn size audio :: chunks), tail.
        split; [now rewrite Ec|].
        split.
        { cbn [List.concat]. rewrite <- app_assoc, <- Ea.
          symmetry. apply firstn_skipn. }
        split.
        { constructor; [|exact Hb]. rewrite Hfull.
          split; [lia|apply Nat.Div0.div_le_upper_bound; lia]. }
        split; [|exact Ht].
        destruct chunks as [|c chunks']; [constructor|].
        change (removelast (firstn size audio :: c :: chunks'))
          with (firstn size audio :: removelast (c :: chunks')).
        constructor; assumption.
Qed.

End ChunkCover.

(** ** Degenerate chunk sizes *)

Section Degenerate.
Import Receiver.

Lemma magnitude_spectrum_single (x : R) : magnitude_spectrum [x] = [].
Proof. reflexivity. Qed.

Lemma detect_empty_chunk (cfg : config) :
  detect_dominant_frequency cfg [] = Ret 0%Q.
Proof. reflexivity. Qed.

Lemma detect_single_sample (cfg : config) (x : R) :
  detect_dominant_frequency cfg [x]
  = Raise (if sample_rate cfg =? 0 then ZeroDivisionError else ValueError).
Proof.
  unfold detect_dominant_frequency. cbn [List.length Nat.eqb].
  destruct (sample_rate cfg =? 0); reflexivity.
Qed.

Lemma singletons_concat {A : Type} (l : list A) :
  List.concat (map (fun x => [x]) l) = l.
Proof. induction l as [|x l IH]; simpl; congruence. Qed.

Lemma process_audio_zero_chunk (cfg : config) (audio : list R) :
  int_of_product (sample_rate cfg) (bit_duration cfg) = Ret 0 ->
  process_audio cfg audio = Raise ValueError.
Proof. intros H. unfold process_audio. rewrite H. reflexivity. Qed.

Lemma process_audio_negative_chunk (cfg : config) (audio : list R)
    (samples_per_bit : Z) :
  int_of_product (sample_rate cfg) (bit_duration cfg) = Ret samples_per_bit ->
  samples_per_bit < 0 ->
  process_audio cfg audio = Ret (Failed NoStartSignal).
Proof.
  intros Ep H. unfold process_audio. rewrite Ep. cbn [bind]. unfold split_chunks.
  destruct (_ =? 0) eqn:E0; [apply Z.eqb_eq in E0; lia|].
  apply Z.ltb_lt in H. rewrite H. reflexivity.
Qed.

Lemma process_audio_overflow (cfg : config) (audio : list R) (e : exn) :
  int_of_product (sample_rate cfg) (bit_duration cfg) = Raise e ->
  process_audio cfg audio = Raise e.
Proof. intros Ep. unfold process_audio. now rewrite Ep. Qed.

Lemma process_audio_unit_chunk (cfg : config) (x : R) (audio : list R) :
  int_of_product (sample_rate cfg) (bit_duration cfg) = Ret 1 ->
  process_audio cfg (x :: audio) = Raise ValueError.
Proof.
  intros H. unfold process_audio. rewrite H. cbn [bind].
  rewrite <- (singletons_concat (x :: audio)).
  rewrite split_chunks_blocks; [|lia|].
  - cbn [bind map mapM]. unfold analyze_chunk at 1.
    rewrite detect_single_sample.
    destruct (sample_rate cfg =? 0) eqn:E; [|reflexivity].
    apply Z.eqb_eq in E. rewrite (zero_rate_zero_chunk cfg E) in H. discriminate.
  - apply Forall_forall. intros c Hc. apply in_map_iff in Hc.
    destruct Hc as [y [Ey _]]. subst c. reflexivity.
Qed.

Lemma process_audio_empty_buffer (cfg : config) (samples_per_bit : Z) :
  int_of_product (sample_rate cfg) (bit_duration cfg) = Ret samples_per_bit ->
  0 < samples_per_bit ->
  process_audio cfg [] = Ret (Failed NoStartSignal).
Proof.
  intros Ep H. unfold process_audio. rewrite Ep. cbn [bind].
  change (@nil R) with (List.concat (@nil (list R))).
  rewrite split_chunks_blocks; [reflexivity|exact H|constructor].
Qed.

(** When does [int(x)] vanish. *)
Lemma int_of_float_zero (x : Q) :
  int_of_float x = 0 <-> (-1 < x /\ x < 1)%Q.
Proof.
  unfold int_of_float. destruct x as [n d]. cbn [Qnum Qden].
  rewrite Z.quot_small_iff by discriminate.
  unfold Qlt. cbn [Qnum Qden]. lia.
Qed.

End Degenerate.

(** ** Amplitude of the signal *)

Section Amplitude.
Import Sender.
Local Open Scope R_scope.

Lemma fold_max_ge (rest : list R) (x : R) : x <= fold_left Rmax rest x.
Proof.
  revert x. induction rest as [|y rest IH]; intros x; simpl; [lra|].
  eapply Rle_trans; [apply (Rmax_l x y)|apply IH].
Qed.

Lemma fold_max_bound (rest : list R) (x y : R) :
  In y (x :: rest) -> y <= fold_left Rmax rest x.
Proof.
  revert x. induction rest as [|z rest IH]; intros x Hin.
  - destruct Hin as [E|[]]. subst. simpl. lra.
  - simpl. destruct Hin as [E|[E|Hin]].
    + subst y. eapply Rle_trans; [apply (Rmax_l x z)|apply fold_max_ge].
    + subst y. eapply Rle_trans; [apply (Rmax_r x z)|apply fold_max_ge].
    + apply IH. now right.
Qed.

Lemma fold_max_attained (rest : list R) (x : R) :
  In (fold_left Rmax rest x) (x :: rest).
Proof.
  revert x. induction rest as [|z rest IH]; intros x; [now left|].
  simpl. destruct (IH (Rmax x z)) as [E|Hin].
  - unfold Rmax in E at 1. destruct (Rle_dec x z).
    + right. left. exact E.
    + left. exact E.
  - right. right. exact Hin.
Qed.

Lemma np_max_bound (a : list R) (m y : R) :
  np_max a = Ret m -> In y a -> y <= m.
Proof.
  destruct a as [|x rest]; [discriminate|]. intros E Hin.
  inversion E. subst m. now apply fold_max_bound.
Qed.

Lemma np_max_attained (a : list R) (m : R) :
  np_max a = Ret m -> In m a.
Proof.
  destruct a as [|x rest]; [discriminate|]. intros E.
  inversion E. apply fold_max_attained.
Qed.

(** The normalisation step of [create_signal]. *)
Lemma normalised_bound (full_signal : list R) (max_val : R) :
  np_max (map Rabs full_signal) = Ret max_val ->
  Forall (fun x => Rabs x <= 8 / 10)
         (if Rlt_dec 0 max_val
          then map (fun x => x / max_val * (8 / 10)) full_signal
          else full_signal).
Proof.
  intros Hm.
  assert (Hb : forall x, In x full_signal -> Rabs x <= max_val).
  { intros x Hx. apply (np_max_bound _ _ _ Hm). now apply in_map. }
  destruct (Rlt_dec 0 max_val) as [Hpos|Hn].
  - apply Forall_forall. intros y Hy. apply in_map_iff in Hy.
    destruct Hy as [x [Ey Hx]]. subst y. specialize (Hb x Hx).
    assert (Hc : 0 <= 8 / 10) by lra. revert Hc.
    generalize (8 / 10). intros c Hc.
    unfold Rdiv. rewrite !Rabs_mult.
    rewrite (Rabs_pos_eq (/ max_val)) by (left; now apply Rinv_0_lt_compat).
    rewrite (Rabs_pos_eq c) by exact Hc.
    assert (H1 : Rabs x * / max_val <= 1).
    { apply (Rmult_le_reg_r max_val); [exact Hpos|].
      rewrite Rmult_assoc, Rinv_l by lra. lra. }
    assert (H0 : 0 <= Rabs x * / max_val).
    { apply Rmult_le_pos; [apply Rabs_pos|left; now apply Rinv_0_lt_compat]. }
    nra.
  - apply Forall_forall. intros x Hx. specialize (Hb x Hx).
    pose proof (Rabs_pos x). lra.
Qed.

Lemma normalised_peak (full_signal : list R) (max_val : R) :
  np_max (map Rabs full_signal) = Ret max_val ->
  0 < max_val ->
  exists y, In y (map (fun x => x / max_val * (8 / 10)) full_signal)
            /\ Rabs y = 8 / 10.
Proof.
  intros Hm Hpos. pose proof (np_max_attained _ _ Hm) as Hin.
  apply in_map_iff in Hin. destruct Hin as [x [Ex Hx]].
  exists (x / max_val * (8 / 10)).
  split; [now apply (in_map (fun v => v / max_val * (8 / 10)))|].
  assert (Hc : 0 <= 8 / 10) by lra. revert Hc.
  generalize (8 / 10). intros c Hc.
  unfold Rdiv. rewrite !Rabs_mult, Ex.
  rewrite (Rabs_pos_eq (/ max_val)) by (left; now apply Rinv_0_lt_compat).
  rewrite (Rabs_pos_eq c) by exact Hc.
  rewrite Rinv_r by lra. lra.
Qed.

Lemma create_signal_normalised (cfg : config) (text : list N) (signal : list R) :
  create_signal cfg text = Ret signal ->
  Forall (fun x => Rabs x <= 8 / 10) signal
  /\ ((exists x, In x signal /\ x <> 0) ->
      exists y, In y signal /\ Rabs y = 8 / 10).
Proof.
  unfold create_signal.
  destruct (generate_tone cfg freq_start (float_literal (2 # 10))) as [st|e];
    [|discriminate].
  cbn [bind].
  destruct (int_of_product _ _) as [silent_samples|e]; [|discriminate]. cbn [bind].
  destruct (zeros _) as [silence|e]; [|discriminate]. cbn [bind].
  destruct (mapM _ _) as [tones|e]; [|discriminate]. cbn [bind].
  destruct (generate_tone cfg freq_end (float_literal (2 # 10))) as [en|e];
    [|discriminate].
  cbn [bind].
  set (full_signal := List.concat ([st; silence] ++ tones ++ [silence; en])).
  destruct (np_max (map Rabs full_signal)) as [max_val|e] eqn:Em; [|discriminate].
  cbn [bind]. intros E. inversion E as [Es]. clear E.
  split; [now apply normalised_bound|].
  intros [x [Hx Hne]].
  destruct (Rlt_dec 0 max_val) as [Hpos|Hn].
  - now apply normalised_peak.
  - exfalso. apply Hne.
    assert (Hb : Rabs x <= max_val)
      by (apply (np_max_bound _ _ _ Em); now apply in_map).
    pose proof (Rabs_pos x) as Hp.
    assert (Hz : Rabs x = 0) by lra.
    destruct (Req_dec x 0) as [E0|E0]; [exact E0|].
    apply Rabs_no_R0 in E0. contradiction.
Qed.

End Amplitude.

(** ** Shape of a tone *)

Section ToneShape.
Import Sender.
Local Open Scope R_scope.

Lemma ramp_fraction (i : nat) (n : Z) :
  (i < Z.to_nat n)%nat -> (0 < n - 1)%Z ->
  0 <= INR i * (1 / IZR (n - 1)) <= 1.
Proof.
  intros Hi Hn.
  assert (Hd : 0 < IZR (n - 1)) by (apply IZR_lt; lia).
  assert (Hi0 : 0 <= INR i) by apply pos_INR.
  assert (Hi1 : INR i <= IZR (n - 1)).
  { rewrite INR_IZR_INZ. apply IZR_le. lia. }
  unfold Rdiv. rewrite Rmult_1_l. split.
  - apply Rmult_le_pos; [exact Hi0|left; now apply Rinv_0_lt_compat].
  - apply (Rmult_le_reg_r (IZR (n - 1))); [exact Hd|].
    rewrite Rmult_assoc, Rinv_l by lra. lra.
Qed.

Lemma ramp_bounds (start stop : R) (n : Z) (ramp : list R) :
  (start = 0 /\ stop = 1) \/ (start = 1 /\ stop = 0) ->
  linspace start stop n true = Ret ramp ->
  Forall (fun r => 0 <= r <= 1) ramp.
Proof.
  intros Hends. unfold linspace.
  destruct (n <? 0)%Z eqn:En; [discriminate|]. intros E. inversion E. clear E.
  apply Forall_forall. intros r Hr. apply in_map_iff in Hr.
  destruct Hr as [i [Er Hi]]. apply in_seq in Hi.
  destruct (0 <? n - 1)%Z eqn:Ed.
  - apply Z.ltb_lt in Ed.
    pose proof (ramp_fraction i n ltac:(lia) Ed) as Hf.
    destruct Hends as [[Es Et]|[Es Et]]; subst start stop r; unfold Rdiv in *; lra.
  - apply Z.ltb_ge in Ed. apply Z.ltb_ge in En.
    assert (i = 0%nat) by lia. subst i. simpl in Er.
    destruct Hends as [[Es Et]|[Es Et]]; subst start stop r; lra.
Qed.

Lemma mul_arrays_bound (a b : list R) :
  Forall (fun x => Rabs x <= 1) a -> Forall (fun r => 0 <= r <= 1) b ->
  Forall (fun x => Rabs x <= 1) (mul_arrays a b).
Proof.
  intros Ha. revert b. induction Ha as [|x a Hx _ IH]; intros b Hb;
    [constructor|].
  destruct Hb as [|r b Hr Hb]; [constructor|]. cbn [mul_arrays].
  constructor; [|now apply IH].
  rewrite Rabs_mult, (Rabs_pos_eq r) by lra.
  pose proof (Rabs_pos x). nra.
Qed.

Lemma forall_firstn {A : Type} (P : A -> Prop) (n : nat) (l : list A) :
  Forall P l -> Forall P (firstn n l).
Proof.
  intros H. apply Forall_forall. intros x Hx.
  rewrite Forall_forall in H. apply H. eapply in_firstn. exact Hx.
Qed.

Lemma forall_skipn {A : Type} (P : A -> Prop) (n : nat) (l : list A) :
  Forall P l -> Forall P (skipn n l).
Proof.
  intros H. apply Forall_forall. intros x Hx.
  rewrite Forall_forall in H. apply H. eapply in_skipn. exact Hx.
Qed.

Lemma generate_tone_bounded (cfg : config) (frequency : Z) (duration : Q)
    (tone : list R) :
  generate_tone cfg frequency duration = Ret tone ->
  Forall (fun x => Rabs x <= 1) tone.
Proof.
  unfold generate_tone.
  destruct (int_of_product _ _) as [samples|e]; [|discriminate]. cbn [bind].
  destruct (linspace 0 (Q2R duration) _ false) as [t|e]; [|discriminate].
  cbn [bind].
  set (sine := map (fun ti => sin (2 * PI * IZR frequency * ti)) t).
  assert (Hs : Forall (fun x => Rabs x <= 1) sine).
  { apply Forall_forall. intros x Hx. apply in_map_iff in Hx.
    destruct Hx as [ti [Ex _]]. subst x.
    apply Rabs_le. apply SIN_bound. }
  destruct (0 <? Z.min 100 (_ / 10))%Z; [|intros E; now inversion E].
  destruct (linspace 0 1 _ true) as [up|e] eqn:Eu; [|discriminate]. cbn [bind].
  destruct (linspace 1 0 _ true) as [dn|e] eqn:Ed; [|discriminate]. cbn [bind].
  intros E. inversion E. clear E.
  pose proof (ramp_bounds 0 1 _ up (or_introl (conj eq_refl eq_refl)) Eu) as Hup.
  pose proof (ramp_bounds 1 0 _ dn (or_intror (conj eq_refl eq_refl)) Ed) as Hdn.
  assert (Hh : Forall (fun x => Rabs x <= 1)
                 (mul_head (Z.to_nat (Z.min 100 (samples / 10))) sine up)).
  { unfold mul_head. apply Forall_app. split.
    - apply mul_arrays_bound; [now apply forall_firstn|exact Hup].
    - now apply forall_skipn. }
  unfold mul_tail. apply Forall_app. split.
  - now apply forall_firstn.
  - apply mul_arrays_bound; [now apply forall_skipn|exact Hdn].
Qed.

Lemma last_mul_arrays (a b : list R) (d : R) :
  List.length a = List.length b -> a <> [] ->
  last (mul_arrays a b) d = last a d * last b d.
Proof.
  revert b. induction a as [|x a IH]; intros b Hl Hne; [congruence|].
  destruct b as [|y b]; [discriminate|].
  destruct a as [|x' a].
  - destruct b; [reflexivity|discriminate].
  - destruct b as [|y' b]; [discriminate|].
    change (last (mul_arrays (x :: x' :: a) (y :: y' :: b)) d)
      with (last (mul_arrays (x' :: a) (y' :: b)) d).
    change (last (x :: x' :: a) d) with (last (x' :: a) d).
    change (last (y :: y' :: b) d) with (last (y' :: b) d).
    apply IH; [simpl in *; lia|discriminate].
Qed.

Lemma last_of_app {A : Type} (l1 l2 : list A) (d : A) :
  l2 <> [] -> last (l1 ++ l2) d = last l2 d.
Proof.
  intros Hne. induction l1 as [|x l1 IH]; [reflexivity|].
  cbn [app]. destruct (l1 ++ l2)%list eqn:E.
  - apply app_eq_nil in E. destruct E. congruence.
  - rewrite <- IH. reflexivity.
Qed.

Lemma last_map_seq (f : nat -> R) (m : nat) (d : R) :
  last (map f (seq 0 (S m))) d = f m.
Proof. rewrite seq_S, map_app. cbn [map Nat.add]. apply last_last. Qed.

(** The last value of the fade-out ramp [np.linspace(1, 0, n)], [n >= 2]. *)
Lemma fade_out_last (n : Z) (ramp : list R) (d : R) :
  (2 <= n)%Z -> linspace 1 0 n true = Ret ramp -> last ramp d = 0.
Proof.
  intros Hn. unfold linspace.
  destruct (n <? 0)%Z eqn:En; [apply Z.ltb_lt in En; lia|].
  intros E. inversion E. clear E.
  replace (Z.to_nat n) with (S (Z.to_nat (n - 1))) by lia.
  rewrite last_map_seq.
  replace (0 <? n - 1)%Z with true by (symmetry; apply Z.ltb_lt; lia).
  rewrite INR_IZR_INZ, Z2Nat.id by lia.
  field. apply not_0_IZR. lia.
Qed.

(** The first value of the fade-in ramp [np.linspace(0, 1, n)], [n >= 1]. *)
Lemma fade_in_first (n : Z) (ramp : list R) (d : R) :
  (1 <= n)%Z -> linspace 0 1 n true = Ret ramp -> hd d ramp = 0.
Proof.
  intros Hn. unfold linspace.
  destruct (n <? 0)%Z eqn:En; [apply Z.ltb_lt in En; lia|].
  intros E. inversion E. clear E.
  replace (Z.to_nat n) with (S (Z.to_nat (n - 1))) by lia.
  cbn [seq map hd]. destruct (0 <? n - 1)%Z; simpl; ring.
Qed.

Lemma generate_tone_ends (cfg : config) (frequency : Z) (duration : Q)
    (samples : Z) (tone : list R) :
  int_of_product (sample_rate cfg) duration = Ret samples ->
  generate_tone cfg frequency duration = Ret tone ->
  (20 <= samples)%Z ->
  hd 1 tone = 0 /\ last tone 1 = 0.
Proof.
  unfold generate_tone. intros Ep. rewrite Ep. cbn [bind].
  intros E Hs.
  destruct (linspace_result 0 (Q2R duration) samples false ltac:(lia)) as [t [Et Lt]].
  rewrite Et in E. cbn [bind] in E.
  set (sine := map (fun ti => sin (2 * PI * IZR frequency * ti)) t) in *.
  assert (Ls : List.length sine = Z.to_nat samples)
    by (subst sine; now rewrite length_map).
  set (fade := Z.min 100 (samples / 10)) in *.
  assert (Hf : (2 <= fade <= samples / 10)%Z).
  { subst fade. assert (2 <= samples / 10)%Z by (apply Z.div_le_lower_bound; lia). lia. }
  assert (Hf10 : (fade * 10 <= samples)%Z).
  { pose proof (Z.mul_div_le samples 10 ltac:(lia)). lia. }
  replace (0 <? fade)%Z with true in E by (symmetry; apply Z.ltb_lt; lia).
  destruct (linspace_result 0 1 fade true ltac:(lia)) as [up [Eu Lu]].
  destruct (linspace_result 1 0 fade true ltac:(lia)) as [dn [Ed Ld]].
  rewrite Eu in E. cbn [bind] in E. rewrite Ed in E. cbn [bind] in E.
  inversion E. clear E.
  set (k := Z.to_nat fade) in *.
  assert (Hk : (2 <= k /\ k * 10 <= List.length sine)%nat) by (subst k; lia).
  set (faded := mul_head k sine up).
  assert (Lh : List.length faded = List.length sine)
    by (apply mul_head_length; lia).
  split.
  - unfold mul_tail. rewrite Lh.
    destruct (firstn (List.length sine - k) faded) as [|x0 rest0] eqn:Ef.
    { apply (f_equal (@List.length R)) in Ef. rewrite length_firstn in Ef.
      simpl in Ef. lia. }
    cbn [app hd].
    assert (Ex : hd 1 faded = x0).
    { destruct faded as [|y faded']; [simpl in Lh; lia|].
      destruct (List.length sine - k)%nat eqn:Ec; [lia|].
      cbn [firstn] in Ef. inversion Ef. reflexivity. }
    rewrite <- Ex. unfold faded, mul_head.
    destruct sine as [|s0 sine']; [simpl in Hk; lia|].
    destruct k as [|k']; [lia|]. cbn [firstn].
    destruct up as [|u0 up']; [simpl in Lu; lia|].
    cbn [mul_arrays app hd].
    pose proof (fade_in_first fade (u0 :: up') 1 ltac:(lia) Eu) as Hu.
    cbn [hd] in Hu. rewrite Hu. ring.
  - unfold mul_tail. rewrite Lh.
    assert (Lsk : List.length (skipn (List.length sine - k) faded) = k)
      by (rewrite length_skipn; lia).
    rewrite last_of_app.
    + rewrite last_mul_arrays.
      * rewrite (fade_out_last fade dn 1 ltac:(lia) Ed). ring.
      * rewrite Lsk. lia.
      * intros E0. rewrite E0 in Lsk. simpl in Lsk. lia.
    + intros E0. apply (f_equal (@List.length R)) in E0.
      rewrite mul_arrays_length, Lsk in E0. simpl in E0. lia.
Qed.

End ToneShape.

(** ** Sending and listening *)

Section Callers.
Import Sender Receiver.

Lemma lstrip_blank (text : list N) :
  lstrip text = [] <-> forallb is_space text = true.
Proof.
  induction text as [|c text IH]; [split; reflexivity|].
  cbn [lstrip forallb]. destruct (is_space c); cbn [andb]; [exact IH|].
  split; discriminate.
Qed.

Lemma lstrip_not_blank (text : list N) :
  forallb is_space (lstrip text) = true -> lstrip text = [].
Proof.
  induction text as [|c text IH]; [reflexivity|].
  cbn [lstrip]. destruct (is_space c) eqn:E; [exact IH|].
  cbn [forallb]. rewrite E. discriminate.
Qed.

Lemma forallb_rev {A : Type} (f : A -> bool) (l : list A) :
  forallb f (rev l) = forallb f l.
Proof.
  induction l as [|x l IH]; [reflexivity|].
  cbn [rev forallb]. rewrite forallb_app, IH. simpl.
  rewrite andb_true_r. apply andb_comm.
Qed.

(** [text.strip()] is empty exactly for a text of whitespace only. *)
Lemma strip_blank (text : list N) :
  strip text = [] <-> forallb is_space text = true.
Proof.
  unfold strip. split.
  - intros H. apply (f_equal (@rev N)) in H. rewrite rev_involutive in H.
    simpl in H. apply lstrip_blank in H. rewrite forallb_rev in H.
    apply lstrip_not_blank in H. now apply lstrip_blank.
  - intros H. apply lstrip_blank in H. rewrite H. reflexivity.
Qed.

Lemma int_of_product_zero_rate (cfg : config) (duration : Q) :
  sample_rate cfg = 0 -> int_of_product (sample_rate cfg) duration = Ret 0.
Proof. intros H. rewrite H. apply int_of_product_zero. Qed.

Lemma generate_tone_zero_rate (cfg : config) (frequency : Z) (duration : Q) :
  sample_rate cfg = 0 -> generate_tone cfg frequency duration = Ret [].
Proof.
  intros H. unfold generate_tone.
  rewrite (int_of_product_zero_rate cfg duration H). reflexivity.
Qed.

Lemma empty_tones (cfg : config) (bits : list ascii) :
  sample_rate cfg = 0 ->
  exists tones,
    mapM (fun bit => generate_tone cfg (bit_frequency bit) (bit_duration cfg)) bits
    = Ret tones
    /\ List.concat tones = [].
Proof.
  intros H. induction bits as [|bit bits [tones [Et Ec]]].
  - exists []. split; reflexivity.
  - exists ([] :: tones). cbn [mapM]. rewrite generate_tone_zero_rate by exact H.
    cbn [bind]. rewrite Et. cbn [bind]. split; [reflexivity|exact Ec].
Qed.

Lemma create_signal_zero_rate (cfg : config) (text : list N) :
  sample_rate cfg = 0 -> create_signal cfg text = Raise ValueError.
Proof.
  intros H. unfold create_signal.
  rewrite !generate_tone_zero_rate by exact H. cbn [bind].
  rewrite (int_of_product_zero_rate cfg (float_literal (1 # 10)) H).
  cbn [zeros Z.ltb Z.compare bind].
  destruct (empty_tones cfg (list_ascii_of_string (text_to_binary text)) H)
    as [tones [Et Ec]].
  rewrite Et. cbn [bind]. rewrite !concat_app, Ec. reflexivity.
Qed.

Lemma send_message_blank (device : sound_device) (cfg : config) (text : list N) :
  forallb is_space text = true -> send_message device cfg text = false.
Proof.
  intros H. unfold send_message. apply strip_blank in H. now rewrite H.
Qed.

Lemma send_message_played (device : sound_device) (cfg : config) (text : list N) :
  send_message device cfg text = true ->
  forallb is_space text = false
  /\ exists signal,
       create_signal cfg text = Ret signal
       /\ query_devices device = Done tt
       /\ play device signal (sample_rate cfg) = Done tt
       /\ Forall (fun x => (Rabs x <= 8 / 10)%R) signal.
Proof.
  unfold send_message. intros H.
  destruct (List.length (strip text) =? 0)%nat eqn:El; [discriminate|].
  split.
  { destruct (forallb is_space text) eqn:Eb; [|reflexivity].
    apply strip_blank in Eb. rewrite Eb in El. discriminate. }
  destruct (create_signal cfg text) as [signal|e] eqn:Es; [|discriminate].
  destruct (query_devices device) as [[]|] eqn:Eq; [|discriminate].
  destruct (play device signal (sample_rate cfg)) as [[]|] eqn:Ep; [|discriminate].
  exists signal. repeat split; try reflexivity.
  - exact Ep.
  - apply (create_signal_normalised cfg text signal Es).
Qed.

Lemma send_message_zero_rate (device : sound_device) (cfg : config) (text : list N) :
  sample_rate cfg = 0 -> send_message device cfg text = false.
Proof.
  intros H. unfold send_message.
  destruct (List.length (strip text) =? 0)%nat; [reflexivity|].
  now rewrite create_signal_zero_rate.
Qed.

Lemma process_audio_message (cfg : config) (audio : list R) (message : string) :
  process_audio cfg audio = Ret (Message message) -> message <> "".
Proof.
  unfold process_audio.
  destruct (int_of_product _ _) as [samples_per_bit|e]; [|discriminate].
  cbn [bind].
  destruct (split_chunks _ audio) as [chunks|e]; [|discriminate]. cbn [bind].
  destruct (mapM _ chunks) as [cls|e]; [|discriminate]. cbn [bind].
  intros E. inversion E as [Ed].
  destruct (decode_outcomes cls) as [[H _]|[[H _]|[m [H [Hne _]]]]];
    rewrite H in Ed; try discriminate.
  inversion Ed. now subst.
Qed.

Lemma listen_returns (device : sound_device) (cfg : config) (timeout : Z)
    (message : string) :
  listen_for_message device cfg timeout = Some message
  <-> exists audio,
        query_devices device = Done tt
        /\ rec device (timeout * sample_rate cfg) (sample_rate cfg) = Done audio
        /\ audio <> []
        /\ process_audio cfg audio = Ret (Message message).
Proof.
  unfold listen_for_message. split.
  - destruct (query_devices device) as [[]|]; [|discriminate].
    destruct (rec device _ _) as [audio|]; [|discriminate].
    destruct audio as [|x audio]; [discriminate|].
    destruct (process_audio cfg (x :: audio)) as [[m|why]|e] eqn:Ep;
      try discriminate.
    destruct (String.length m =? 0)%nat; [discriminate|].
    intros E. inversion E. subst m.
    exists (x :: audio).
    split; [reflexivity|]. split; [reflexivity|]. split; [discriminate|exact Ep].
  - intros [audio [Eq [Er [Hne Ep]]]]. rewrite Eq, Er.
    destruct audio as [|x audio]; [congruence|]. rewrite Ep.
    pose proof (process_audio_message cfg _ _ Ep) as Hm.
    destruct message; [congruence|reflexivity].
Qed.

End Callers.

(** ** Sums over the samples of a chunk *)

Section Sums.
Local Open Scope R_scope.

Lemma sum_over_ext (f g : nat -> R) (a len : nat) :
  (forall n, (a <= n < a + len)%nat -> f n = g n) ->
  sum_over f a len = sum_over g a len.
Proof.
  revert a. induction len as [|len IH]; intros a H; [reflexivity|].
  cbn [sum_over]. rewrite (H a) by lia. f_equal. apply IH. intros n Hn. apply H. lia.
Qed.

Lemma sum_over_le (f g : nat -> R) (a len : nat) :
  (forall n, (a <= n < a + len)%nat -> f n <= g n) ->
  sum_over f a len <= sum_over g a len.
Proof.
  revert a. induction len as [|len IH]; intros a H; [simpl; lra|].
  cbn [sum_over]. apply Rplus_le_compat; [apply H; lia|].
  apply IH. intros n Hn. apply H. lia.
Qed.

Lemma sum_over_plus (f g : nat -> R) (a len : nat) :
  sum_over (fun n => f n + g n) a len = sum_over f a len + sum_over g a len.
Proof.
  revert a. induction len as [|len IH]; intros a; cbn [sum_over]; [lra|].
  rewrite IH. lra.
Qed.

Lemma sum_over_minus (f g : nat -> R) (a len : nat) :
  sum_over (fun n => f n - g n) a len = sum_over f a len - sum_over g a len.
Proof.
  revert a. induction len as [|len IH]; intros a; cbn [sum_over]; [lra|].
  rewrite IH. lra.
Qed.

Lemma sum_over_scal (c : R) (f : nat -> R) (a len : nat) :
  sum_over (fun n => c * f n) a len = c * sum_over f a len.
Proof.
  revert a. induction len as [|len IH]; intros a; cbn [sum_over]; [lra|].
  rewrite IH. lra.
Qed.

Lemma sum_over_opp (f : nat -> R) (a len : nat) :
  sum_over (fun n => - f n) a len = - sum_over f a len.
Proof.
  revert a. induction len as [|len IH]; intros a; cbn [sum_over]; [lra|].
  rewrite IH. lra.
Qed.

Lemma sum_over_const (c : R) (a len : nat) :
  sum_over (fun _ => c) a len = INR len * c.
Proof.
  revert a. induction len as [|len IH]; intros a; [simpl; lra|].
  cbn [sum_over]. rewrite IH, S_INR. lra.
Qed.

Lemma sum_over_abs (f : nat -> R) (a len : nat) :
  Rabs (sum_over f a len) <= sum_over (fun n => Rabs (f n)) a len.
Proof.
  revert a. induction len as [|len IH]; intros a; cbn [sum_over].
  - rewrite Rabs_R0. lra.
  - eapply Rle_trans; [apply Rabs_triang|]. apply Rplus_le_compat_l, IH.
Qed.

Lemma sum_over_split (f : nat -> R) (a l1 l2 : nat) :
  sum_over f a (l1 + l2) = sum_over f a l1 + sum_over f (a + l1) l2.
Proof.
  revert a. induction l1 as [|l1 IH]; intros a; cbn [sum_over Nat.add].
  - rewrite Nat.add_0_r. lra.
  - rewrite IH. replace (S a + l1)%nat with (a + S l1)%nat by lia. lra.
Qed.

(** Telescoping: the sum of [F (n + 1) - F n]. *)
Lemma sum_over_telescope (F : nat -> R) (a len : nat) :
  sum_over (fun n => F (S n) - F n) a len = F (a + len)%nat - F a.
Proof.
  revert a. induction len as [|len IH]; intros a; cbn [sum_over].
  - rewrite Nat.add_0_r. lra.
  - rewrite IH. replace (S a + len)%nat with (a + S len)%nat by lia. lra.
Qed.

End Sums.

(** ** Sines and cosines over one period *)

Section TrigSums.
Local Open Scope R_scope.

(** [2 sin(x/2) cos(n x) = sin((n + 1/2) x) - sin((n - 1/2) x)]. *)
Lemma cos_step (x : R) (n : nat) :
  2 * sin (x / 2) * cos (INR n * x)
  = sin ((INR (S n) - 1 / 2) * x) - sin ((INR n - 1 / 2) * x).
Proof.
  rewrite S_INR.
  replace ((INR n + 1 - 1 / 2) * x) with (INR n * x + x / 2) by lra.
  replace ((INR n - 1 / 2) * x) with (INR n * x - x / 2) by lra.
  rewrite sin_plus, sin_minus. lra.
Qed.

Lemma sin_step (x : R) (n : nat) :
  2 * sin (x / 2) * sin (INR n * x)
  = - (cos ((INR (S n) - 1 / 2) * x) - cos ((INR n - 1 / 2) * x)).
Proof.
  rewrite S_INR.
  replace ((INR n + 1 - 1 / 2) * x) with (INR n * x + x / 2) by lra.
  replace ((INR n - 1 / 2) * x) with (INR n * x - x / 2) by lra.
  rewrite cos_plus, cos_minus. lra.
Qed.

Lemma cos_sum_closed (x : R) (N : nat) :
  2 * sin (x / 2) * sum_over (fun n => cos (INR n * x)) 0 N
  = sin ((INR N - 1 / 2) * x) + sin (x / 2).
Proof.
  rewrite <- sum_over_scal.
  pose (F := fun k : nat => sin ((INR k - 1 / 2) * x)).
  rewrite (sum_over_ext _ (fun n => F (S n) - F n))
    by (intros n _; apply cos_step).
  rewrite sum_over_telescope. unfold F. cbn [Nat.add].
  change (INR 0) with 0.
  replace ((0 - 1 / 2) * x) with (- (x / 2)) by lra. rewrite sin_neg. lra.
Qed.

Lemma sin_sum_closed (x : R) (N : nat) :
  2 * sin (x / 2) * sum_over (fun n => sin (INR n * x)) 0 N
  = cos (x / 2) - cos ((INR N - 1 / 2) * x).
Proof.
  rewrite <- sum_over_scal.
  pose (F := fun k : nat => - cos ((INR k - 1 / 2) * x)).
  rewrite (sum_over_ext _ (fun n => F (S n) - F n))
    by (intros n _; unfold F; rewrite sin_step; lra).
  rewrite sum_over_telescope. unfold F. cbn [Nat.add].
  change (INR 0) with 0.
  replace ((0 - 1 / 2) * x) with (- (x / 2)) by lra. rewrite cos_neg. lra.
Qed.

Lemma half_bin_angle_pos (N m : nat) :
  (0 < m < N)%nat -> 0 < sin (bin_angle N m / 2).
Proof.
  intros H. unfold bin_angle.
  assert (HN : 0 < INR N) by (apply lt_0_INR; lia).
  assert (Hm : 0 < INR m) by (apply lt_0_INR; lia).
  assert (Hlt : INR m < INR N) by (apply lt_INR; lia).
  pose proof PI_RGT_0 as Hpi.
  assert (Hq : 0 < INR m / INR N < 1).
  { split.
    - apply Rdiv_lt_0_compat; assumption.
    - apply (Rmult_lt_reg_r (INR N)); [exact HN|].
      unfold Rdiv. rewrite Rmult_assoc, Rinv_l by lra. lra. }
  replace (2 * PI * INR m / INR N / 2) with (PI * (INR m / INR N)) by (field; lra).
  apply sin_gt_0; nra.
Qed.

Lemma full_turn (N m : nat) :
  (0 < N)%nat -> INR N * bin_angle N m = 2 * INR m * PI.
Proof.
  intros H. unfold bin_angle.
  assert (HN : 0 < INR N) by (apply lt_0_INR; lia). field. lra.
Qed.

(** Over one period the samples of a bin cosine or sine sum to 0. *)
Lemma cos_sum_zero (N m : nat) :
  (0 < m < N)%nat ->
  sum_over (fun n => cos (INR n * bin_angle N m)) 0 N = 0.
Proof.
  intros H. pose proof (half_bin_angle_pos N m H) as Hs.
  pose proof (cos_sum_closed (bin_angle N m) N) as Hc.
  replace ((INR N - 1 / 2) * bin_angle N m)
    with (- (bin_angle N m / 2) + 2 * INR m * PI) in Hc
    by (rewrite <- (full_turn N m) by lia; lra).
  rewrite sin_period, sin_neg in Hc.
  assert (E : 2 * sin (bin_angle N m / 2)
              * sum_over (fun n => cos (INR n * bin_angle N m)) 0 N = 0) by lra.
  apply Rmult_integral in E. destruct E as [E|E]; [lra|exact E].
Qed.

Lemma sin_sum_zero (N m : nat) :
  (0 < m < N)%nat ->
  sum_over (fun n => sin (INR n * bin_angle N m)) 0 N = 0.
Proof.
  intros H. pose proof (half_bin_angle_pos N m H) as Hs.
  pose proof (sin_sum_closed (bin_angle N m) N) as Hc.
  replace ((INR N - 1 / 2) * bin_angle N m)
    with (- (bin_angle N m / 2) + 2 * INR m * PI) in Hc
    by (rewrite <- (full_turn N m) by lia; lra).
  rewrite cos_period, cos_neg in Hc.
  assert (E : 2 * sin (bin_angle N m / 2)
              * sum_over (fun n => sin (INR n * bin_angle N m)) 0 N = 0) by lra.
  apply Rmult_integral in E. destruct E as [E|E]; [lra|exact E].
Qed.

Lemma bin_angle_plus (N p j : nat) :
  bin_angle N (p + j) = bin_angle N p + bin_angle N j.
Proof. unfold bin_angle. rewrite plus_INR. unfold Rdiv. ring. Qed.

Lemma bin_angle_0 (N : nat) : bin_angle N 0 = 0.
Proof. unfold bin_angle. change (INR 0) with 0. unfold Rdiv. ring. Qed.

(** Orthogonality of the bin sines and cosines over one period. *)
Lemma sin_cos_orthogonal (N p j : nat) :
  (p + j < N)%nat ->
  sum_over (fun n => sin (INR n * bin_angle N p) * cos (INR n * bin_angle N j)) 0 N
  = 0.
Proof.
  intros H.
  destruct (Nat.le_gt_cases j p) as [Hjp|Hjp].
  - (* p = j + d *)
    set (d := (p - j)%nat).
    rewrite (sum_over_ext _
               (fun n => 1 / 2 * (sin (INR n * bin_angle N (p + j))
                                  + sin (INR n * bin_angle N d)))).
    + rewrite sum_over_scal, sum_over_plus.
      assert (E1 : sum_over (fun n => sin (INR n * bin_angle N (p + j))) 0 N = 0).
      { destruct (Nat.eq_dec (p + j) 0) as [E|E].
        - rewrite E, bin_angle_0.
          rewrite (sum_over_ext _ (fun _ => 0))
            by (intros n _; rewrite Rmult_0_r; apply sin_0).
          rewrite sum_over_const. lra.
        - apply sin_sum_zero. lia. }
      assert (E2 : sum_over (fun n => sin (INR n * bin_angle N d)) 0 N = 0).
      { destruct (Nat.eq_dec d 0) as [E|E].
        - rewrite E, bin_angle_0.
          rewrite (sum_over_ext _ (fun _ => 0))
            by (intros n _; rewrite Rmult_0_r; apply sin_0).
          rewrite sum_over_const. lra.
        - apply sin_sum_zero. lia. }
      rewrite E1, E2. lra.
    + intros n _. rewrite bin_angle_plus.
      replace (bin_angle N d) with (bin_angle N p - bin_angle N j).
      * replace (INR n * (bin_angle N p + bin_angle N j))
          with (INR n * bin_angle N p + INR n * bin_angle N j) by ring.
        replace (INR n * (bin_angle N p - bin_angle N j))
          with (INR n * bin_angle N p - INR n * bin_angle N j) by ring.
        replace (INR n * (bin_angle N j - bin_angle N p))
          with (- (INR n * bin_angle N p - INR n * bin_angle N j)) by ring.
        rewrite ?sin_neg, sin_plus, sin_minus. lra.
      * replace p with (d + j)%nat at 1 by lia. rewrite bin_angle_plus. lra.
  - set (d := (j - p)%nat).
    rewrite (sum_over_ext _
               (fun n => 1 / 2 * (sin (INR n * bin_angle N (p + j))
                                  - sin (INR n * bin_angle N d)))).
    + rewrite sum_over_scal, sum_over_minus.
      rewrite (sin_sum_zero N (p + j)), (sin_sum_zero N d) by lia. lra.
    + intros n _. rewrite bin_angle_plus.
      replace (bin_angle N d) with (bin_angle N j - bin_angle N p).
      * replace (INR n * (bin_angle N p + bin_angle N j))
          with (INR n * bin_angle N p + INR n * bin_angle N j) by ring.
        replace (INR n * (bin_angle N p - bin_angle N j))
          with (INR n * bin_angle N p - INR n * bin_angle N j) by ring.
        replace (INR n * (bin_angle N j - bin_angle N p))
          with (- (INR n * bin_angle N p - INR n * bin_angle N j)) by ring.
        rewrite ?sin_neg, sin_plus, sin_minus. lra.
      * replace j with (d + p)%nat at 1 by lia. rewrite bin_angle_plus. lra.
Qed.

Lemma sin_sin_orthogonal (N p j : nat) :
  (0 < p + j < N)%nat ->
  sum_over (fun n => sin (INR n * bin_angle N p) * sin (INR n * bin_angle N j)) 0 N
  = if Nat.eqb p j then INR N / 2 else 0.
Proof.
  intros H.
  assert (Hsum : sum_over (fun n => cos (INR n * bin_angle N (p + j))) 0 N = 0)
    by (apply cos_sum_zero; lia).
  destruct (Nat.eqb p j) eqn:E.
  - apply Nat.eqb_eq in E. subst j.
    rewrite (sum_over_ext _
               (fun n => 1 / 2 * ((fun _ => 1) n - cos (INR n * bin_angle N (p + p))))).
    + rewrite sum_over_scal, sum_over_minus, sum_over_const, Hsum. lra.
    + intros n _. rewrite bin_angle_plus.
      replace (INR n * (bin_angle N p + bin_angle N p))
        with (INR n * bin_angle N p + INR n * bin_angle N p) by ring.
      rewrite cos_plus.
      pose proof (sin2_cos2 (INR n * bin_angle N p)) as Hq.
      unfold Rsqr in Hq. lra.
  - apply Nat.eqb_neq in E.
    destruct (Nat.le_gt_cases j p) as [Hjp|Hjp].
    + set (d := (p - j)%nat).
      rewrite (sum_over_ext _
                 (fun n => 1 / 2 * (cos (INR n * bin_angle N d)
                                    - cos (INR n * bin_angle N (p + j))))).
      * rewrite sum_over_scal, sum_over_minus, Hsum, (cos_sum_zero N d) by lia. lra.
      * intros n _. rewrite bin_angle_plus.
        replace (bin_angle N d) with (bin_angle N p - bin_angle N j).
        -- replace (INR n * (bin_angle N p + bin_angle N j))
             with (INR n * bin_angle N p + INR n * bin_angle N j) by ring.
           replace (INR n * (bin_angle N p - bin_angle N j))
             with (INR n * bin_angle N p - INR n * bin_angle N j) by ring.
           replace (INR n * (bin_angle N j - bin_angle N p))
             with (- (INR n * bin_angle N p - INR n * bin_angle N j)) by ring.
           rewrite ?cos_neg, cos_plus, cos_minus. lra.
        -- replace p with (d + j)%nat at 1 by lia. rewrite bin_angle_plus. lra.
    + set (d := (j - p)%nat).
      rewrite (sum_over_ext _
                 (fun n => 1 / 2 * (cos (INR n * bin_angle N d)
                                    - cos (INR n * bin_angle N (p + j))))).
      * rewrite sum_over_scal, sum_over_minus, Hsum, (cos_sum_zero N d) by lia. lra.
      * intros n _. rewrite bin_angle_plus.
        replace (bin_angle N d) with (bin_angle N j - bin_angle N p).
        -- replace (INR n * (bin_angle N p + bin_angle N j))
             with (INR n * bin_angle N p + INR n * bin_angle N j) by ring.
           replace (INR n * (bin_angle N p - bin_angle N j))
             with (INR n * bin_angle N p - INR n * bin_angle N j) by ring.
           replace (INR n * (bin_angle N j - bin_angle N p))
             with (- (INR n * bin_angle N p - INR n * bin_angle N j)) by ring.
           rewrite ?cos_neg, cos_plus, cos_minus. lra.
        -- replace j with (d + p)%nat at 1 by lia. rewrite bin_angle_plus. lra.
Qed.

End TrigSums.

(** ** The spectrum of a chunk, bin by bin *)

Section SpectrumOfChunk.
Import Sender Receiver CodecSpec.
Local Open Scope R_scope.

Lemma weighted_sum_sum (w : nat -> R) (x : list R) (n0 : nat) :
  weighted_sum w x n0
  = sum_over (fun n => nth (n - n0) x 0 * w n) n0 (List.length x).
Proof.
  revert n0. induction x as [|xn x IH]; intros n0; [reflexivity|].
  cbn [weighted_sum List.length sum_over]. rewrite Nat.sub_diag. cbn [nth].
  f_equal. rewrite IH. apply sum_over_ext. intros n Hn.
  replace (n - n0)%nat with (S (n - S n0)) by lia. reflexivity.
Qed.

Lemma nth_mul_arrays (a b : list R) (n : nat) :
  List.length a = List.length b ->
  nth n (mul_arrays a b) 0 = nth n a 0 * nth n b 0.
Proof.
  revert b n. induction a as [|x a IH]; intros [|y b] n H; try discriminate.
  - destruct n; simpl; ring.
  - destruct n as [|n]; [reflexivity|]. cbn [mul_arrays nth]. apply IH.
    simpl in H. lia.
Qed.

Lemma nth_map_seq (f : nat -> R) (len n : nat) :
  (n < len)%nat -> nth n (map f (seq 0 len)) 0 = f n.
Proof.
  intros H. rewrite (nth_indep _ 0 (f 0%nat)) by (now rewrite length_map, length_seq).
  rewrite (map_nth f), seq_nth by exact H. reflexivity.
Qed.

(** The symmetric Hann window, sample by sample. *)
Lemma nth_hanning (M n : nat) :
  (2 <= M)%nat -> (n < M)%nat ->
  nth n (hanning M) 0 = 1 / 2 - 1 / 2 * cos (2 * PI * INR n / (INR M - 1)).
Proof.
  intros HM Hn. unfold hanning.
  destruct M as [|[|M]]; [lia|lia|].
  rewrite (nth_map_seq _ (S (S M)) n Hn).
  set (m := S (S M)) in *.
  assert (Hd : 0 < INR m - 1).
  { assert (2 <= INR m) by (apply (le_INR 2); lia). lra. }
  rewrite minus_IZR, plus_IZR, mult_IZR, minus_IZR, <- !INR_IZR_INZ.
  replace (PI * (1 - INR m + 2 * INR n) / (INR m - 1))
    with (2 * PI * INR n / (INR m - 1) - PI) by (field; lra).
  rewrite cos_minus, cos_PI, sin_PI. lra.
Qed.

Lemma hanning_bounds (M n : nat) :
  (2 <= M)%nat -> (n < M)%nat -> 0 <= nth n (hanning M) 0 <= 1.
Proof.
  intros HM Hn. rewrite nth_hanning by assumption.
  pose proof (COS_bound (2 * PI * INR n / (INR M - 1))). lra.
Qed.

(** One bin of the transform of a windowed chunk, as two sums. *)
Lemma fft_bin (x : list R) (j : nat) :
  (j < List.length x)%nat ->
  nth j (fft x) (0, 0)
  = (sum_over (fun n => nth n x 0 * cos (INR n * bin_angle (List.length x) j))
              0 (List.length x),
     - sum_over (fun n => nth n x 0 * sin (INR n * bin_angle (List.length x) j))
                0 (List.length x)).
Proof.
  intros Hj. unfold fft.
  rewrite (nth_indep _ (0, 0)
             ((fun k : nat =>
                 (weighted_sum
                    (fun n => cos (2 * PI * INR k * INR n / INR (List.length x))) x 0,
                  weighted_sum
                    (fun n => - sin (2 * PI * INR k * INR n / INR (List.length x))) x 0))
                0%nat))
    by (now rewrite length_map, length_seq).
  rewrite (map_nth (fun k : nat =>
                 (weighted_sum
                    (fun n => cos (2 * PI * INR k * INR n / INR (List.length x))) x 0,
                  weighted_sum
                    (fun n => - sin (2 * PI * INR k * INR n / INR (List.length x))) x 0))).
  rewrite seq_nth by exact Hj. cbn [Nat.add].
  rewrite !weighted_sum_sum. f_equal.
  - apply sum_over_ext. intros n _. rewrite Nat.sub_0_r. f_equal. f_equal.
    unfold bin_angle, Rdiv. ring.
  - rewrite <- sum_over_opp.
    apply sum_over_ext. intros n _. rewrite Nat.sub_0_r.
    replace (2 * PI * INR j * INR n / INR (List.length x))
      with (INR n * bin_angle (List.length x) j) by (unfold bin_angle, Rdiv; ring).
    ring.
Qed.

Lemma fft_length (x : list R) : List.length (fft x) = List.length x.
Proof. unfold fft. now rewrite length_map, length_seq. Qed.

Lemma magnitude_bin (chunk : list R) (j : nat) :
  (2 <= List.length chunk)%nat ->
  (j < List.length chunk / 2)%nat ->
  nth j (magnitude_spectrum chunk) 0
  = cabs (sum_over (fun n => nth n chunk 0 * nth n (hanning (List.length chunk)) 0
                             * cos (INR n * bin_angle (List.length chunk) j))
                   0 (List.length chunk),
          - sum_over (fun n => nth n chunk 0 * nth n (hanning (List.length chunk)) 0
                               * sin (INR n * bin_angle (List.length chunk) j))
                     0 (List.length chunk)).
Proof.
  intros HN Hj. unfold magnitude_spectrum.
  set (N := List.length chunk) in *.
  set (windowed := mul_arrays chunk (hanning N)).
  assert (Lw : List.length windowed = N).
  { subst windowed. rewrite mul_arrays_length, hanning_length. subst N. lia. }
  assert (Hh : (N / 2 <= N)%nat) by (apply Nat.Div0.div_le_upper_bound; lia).
  rewrite fft_length, Lw.
  rewrite (nth_indep _ 0 (cabs (0, 0)))
    by (rewrite length_map, length_firstn, fft_length, Lw; lia).
  rewrite (map_nth cabs), nth_firstn.
  replace (j <? N / 2)%nat with true by (symmetry; apply Nat.ltb_lt; exact Hj).
  rewrite fft_bin by (rewrite Lw; lia). rewrite Lw.
  f_equal. f_equal.
  - apply sum_over_ext. intros n Hn. subst windowed.
    rewrite nth_mul_arrays by (now rewrite hanning_length). reflexivity.
  - f_equal. apply sum_over_ext. intros n Hn. subst windowed.
    rewrite nth_mul_arrays by (now rewrite hanning_length). reflexivity.
Qed.

End SpectrumOfChunk.

(** ** The spectrum next to a windowed pure tone *)

Section PureTone.
Import Sender Receiver CodecSpec.
Local Open Scope R_scope.

Lemma windowed_tone_sines (a : R) (N k0 n : nat) :
  (1 <= k0)%nat ->
  windowed_tone a N k0 n
  = a * (1 / 2 * sin (INR n * bin_angle N k0)
         - 1 / 4 * sin (INR n * bin_angle N (k0 + 1))
         - 1 / 4 * sin (INR n * bin_angle N (k0 - 1))).
Proof.
  intros H. unfold windowed_tone. f_equal.
  rewrite bin_angle_plus.
  replace (bin_angle N (k0 - 1)) with (bin_angle N k0 - bin_angle N 1).
  - replace (INR n * (bin_angle N k0 + bin_angle N 1))
      with (INR n * bin_angle N k0 + INR n * bin_angle N 1) by ring.
    replace (INR n * (bin_angle N k0 - bin_angle N 1))
      with (INR n * bin_angle N k0 - INR n * bin_angle N 1) by ring.
    rewrite sin_plus, sin_minus. lra.
  - replace k0 with ((k0 - 1) + 1)%nat at 1 by lia. rewrite bin_angle_plus. lra.
Qed.

Lemma windowed_tone_real_part (a : R) (N k0 j : nat) :
  (1 <= k0)%nat -> (k0 + 1 + j < N)%nat ->
  sum_over (fun n => windowed_tone a N k0 n * cos (INR n * bin_angle N j)) 0 N = 0.
Proof.
  intros Hk Hj.
  rewrite (sum_over_ext _
     (fun n => a * (1 / 2 * (sin (INR n * bin_angle N k0) * cos (INR n * bin_angle N j))
                    - (1 / 4 * (sin (INR n * bin_angle N (k0 + 1)) * cos (INR n * bin_angle N j))
                       + 1 / 4 * (sin (INR n * bin_angle N (k0 - 1)) * cos (INR n * bin_angle N j))))))
    by (intros n _; rewrite windowed_tone_sines by exact Hk; ring).
  rewrite sum_over_scal, sum_over_minus, sum_over_plus, !sum_over_scal.
  rewrite !sin_cos_orthogonal by lia. ring.
Qed.

Lemma windowed_tone_imaginary_part (a : R) (N k0 j : nat) :
  (2 <= k0)%nat -> (k0 + 1 + j < N)%nat ->
  sum_over (fun n => windowed_tone a N k0 n * sin (INR n * bin_angle N j)) 0 N
  = a * (1 / 2 * (if Nat.eqb k0 j then INR N / 2 else 0)
         - (1 / 4 * (if Nat.eqb (k0 + 1) j then INR N / 2 else 0)
            + 1 / 4 * (if Nat.eqb (k0 - 1) j then INR N / 2 else 0))).
Proof.
  intros Hk Hj.
  rewrite (sum_over_ext _
     (fun n => a * (1 / 2 * (sin (INR n * bin_angle N k0) * sin (INR n * bin_angle N j))
                    - (1 / 4 * (sin (INR n * bin_angle N (k0 + 1)) * sin (INR n * bin_angle N j))
                       + 1 / 4 * (sin (INR n * bin_angle N (k0 - 1)) * sin (INR n * bin_angle N j))))))
    by (intros n _; rewrite windowed_tone_sines by lia; ring).
  rewrite sum_over_scal, sum_over_minus, sum_over_plus, !sum_over_scal.
  rewrite !sin_sin_orthogonal by lia. reflexivity.
Qed.

Lemma Rabs_scaled (d c : R) : Rabs c <= 1 -> Rabs d * Rabs c <= Rabs d.
Proof. intros H. pose proof (Rabs_pos d). pose proof (Rabs_pos c). nra. Qed.

Lemma half_bounds (N : nat) : (2 * (N / 2) <= N < 2 * (N / 2) + 2)%nat.
Proof.
  pose proof (Nat.div_mod_eq N 2) as E.
  pose proof (Nat.mod_upper_bound N 2 ltac:(lia)) as H. lia.
Qed.

Lemma Rabs_bounds (x y : R) : Rabs x <= y -> - y <= x <= y.
Proof. unfold Rabs. destruct (Rcase_abs x); lra. Qed.

Lemma cabs_le_sum (u v : R) : cabs (u, v) <= Rabs u + Rabs v.
Proof.
  unfold cabs. cbn [fst snd].
  pose proof (Rabs_pos u) as Hu. pose proof (Rabs_pos v) as Hv.
  apply Rsqr_incr_0_var; [|lra].
  rewrite Rsqr_sqrt by nra.
  unfold Rsqr.
  replace (u * u) with (Rabs u * Rabs u) by (rewrite <- Rabs_mult; apply Rabs_pos_eq; nra).
  replace (v * v) with (Rabs v * Rabs v) by (rewrite <- Rabs_mult; apply Rabs_pos_eq; nra).
  nra.
Qed.

Lemma cabs_ge_imaginary (u v : R) : Rabs v <= cabs (u, v).
Proof.
  unfold cabs. cbn [fst snd].
  pose proof (Rabs_pos v) as Hv.
  apply Rsqr_incr_0_var; [|apply sqrt_pos].
  rewrite Rsqr_sqrt by nra.
  unfold Rsqr.
  replace (Rabs v * Rabs v) with (v * v)
    by (rewrite <- Rabs_mult; symmetry; apply Rabs_pos_eq; nra).
  nra.
Qed.

(** A chunk that stays close to a windowed pure tone has its spectral
    peak within one bin of the tone. *)
Lemma near_tone_spectrum (chunk : list R) (a E : R) (k0 : nat) :
  let N := List.length chunk in
  (2 <= k0)%nat -> (2 * (k0 + 2) <= N)%nat ->
  sum_over (fun n => Rabs (nth n chunk 0 * nth n (hanning N) 0
                           - windowed_tone a N k0 n)) 0 N <= E ->
  0 < a -> 3 * E < a * INR N / 4 ->
  a * INR N / 4 - E <= nth k0 (magnitude_spectrum chunk) 0
  /\ forall j, (j < N / 2)%nat ->
               j <> (k0 - 1)%nat -> j <> k0 -> j <> (k0 + 1)%nat ->
               nth j (magnitude_spectrum chunk) 0 < nth k0 (magnitude_spectrum chunk) 0.
Proof.
  intros N Hk HN HE Ha H3.
  assert (HN2 : (2 <= N)%nat) by lia.
  pose proof (half_bounds N) as Hh.
  set (y := fun n => nth n chunk 0 * nth n (hanning N) 0) in *.
  assert (Hre : forall j, (j < N / 2)%nat ->
            Rabs (sum_over (fun n => y n * cos (INR n * bin_angle N j)) 0 N) <= E).
  { intros j Hj.
    rewrite <- (Rminus_0_r (sum_over _ _ _)).
    rewrite <- (windowed_tone_real_part a N k0 j) by lia.
    rewrite <- sum_over_minus.
    eapply Rle_trans; [apply sum_over_abs|].
    eapply Rle_trans; [|exact HE]. apply sum_over_le. intros n _.
    rewrite <- Rmult_minus_distr_r, Rabs_mult.
    pose proof (COS_bound (INR n * bin_angle N j)) as Hc.
    apply Rabs_scaled. apply Rabs_le. lra. }
  assert (Him : forall j, (j < N / 2)%nat ->
            Rabs (sum_over (fun n => y n * sin (INR n * bin_angle N j)) 0 N
                  - sum_over (fun n => windowed_tone a N k0 n
                                       * sin (INR n * bin_angle N j)) 0 N) <= E).
  { intros j Hj.
    rewrite <- sum_over_minus.
    eapply Rle_trans; [apply sum_over_abs|].
    eapply Rle_trans; [|exact HE]. apply sum_over_le. intros n _.
    rewrite <- Rmult_minus_distr_r, Rabs_mult.
    pose proof (SIN_bound (INR n * bin_angle N j)) as Hc.
    apply Rabs_scaled. apply Rabs_le. lra. }
  assert (Hpeak : a * INR N / 4 - E <= nth k0 (magnitude_spectrum chunk) 0).
  { rewrite magnitude_bin by (fold N; lia). fold N. fold y.
    eapply Rle_trans; [|apply cabs_ge_imaginary]. rewrite Rabs_Ropp.
    pose proof (Him k0 ltac:(lia)) as Hi.
    rewrite windowed_tone_imaginary_part in Hi by lia.
    rewrite Nat.eqb_refl in Hi.
    replace (k0 + 1 =? k0)%nat with false in Hi by (symmetry; apply Nat.eqb_neq; lia).
    replace (k0 - 1 =? k0)%nat with false in Hi by (symmetry; apply Nat.eqb_neq; lia).
    apply Rabs_bounds in Hi.
    apply Rle_trans with (sum_over (fun n => y n * sin (INR n * bin_angle N k0)) 0 N);
      [lra|apply Rle_abs]. }
  split; [exact Hpeak|].
  intros j Hj H1 H2 H4.
  eapply Rle_lt_trans; [|eapply Rlt_le_trans; [|exact Hpeak]].
  - rewrite magnitude_bin by (fold N; lia). fold N. fold y.
    eapply Rle_trans; [apply cabs_le_sum|]. rewrite Rabs_Ropp.
    pose proof (Hre j Hj) as Hr. pose proof (Him j Hj) as Hi.
    rewrite windowed_tone_imaginary_part in Hi by lia.
    replace (k0 =? j)%nat with false in Hi by (symmetry; apply Nat.eqb_neq; lia).
    replace (k0 + 1 =? j)%nat with false in Hi by (symmetry; apply Nat.eqb_neq; lia).
    replace (k0 - 1 =? j)%nat with false in Hi by (symmetry; apply Nat.eqb_neq; lia).
    replace (a * (1 / 2 * 0 - (1 / 4 * 0 + 1 / 4 * 0))) with 0 in Hi by ring.
    rewrite Rminus_0_r in Hi.
    apply Rplus_le_compat; [exact Hr|exact Hi].
  - lra.
Qed.

End PureTone.

(** ** The peak of the spectrum *)

Section Argmax.
Import Sender Receiver CodecSpec.
Local Open Scope R_scope.

Lemma argmax_from_spec (rest pre : list R) (best_i : nat) (best : R) :
  (best_i < List.length pre)%nat ->
  nth best_i pre 0 = best ->
  (forall j, (j < List.length pre)%nat -> nth j pre 0 <= best) ->
  let r := argmax_from rest (List.length pre) best_i best in
  (r < List.length (pre ++ rest))%nat
  /\ forall j, (j < List.length (pre ++ rest))%nat ->
               nth j (pre ++ rest) 0 <= nth r (pre ++ rest) 0.
Proof.
  revert pre best_i best. induction rest as [|x rest IH]; intros pre best_i best Hi Hb Hmax.
  - cbn [argmax_from]. rewrite app_nil_r. split; [exact Hi|].
    intros j Hj. rewrite Hb. now apply Hmax.
  - cbn [argmax_from].
    replace (pre ++ x :: rest)%list with ((pre ++ [x]) ++ rest)%list
      by (now rewrite <- app_assoc).
    replace (S (List.length pre)) with (List.length (pre ++ [x]))
      by (rewrite length_app; simpl; lia).
    destruct (Rlt_dec best x) as [Hlt|Hge].
    + apply IH.
      * rewrite length_app. simpl. lia.
      * rewrite app_nth2 by lia. now rewrite Nat.sub_diag.
      * intros j Hj. rewrite length_app in Hj. simpl in Hj.
        destruct (Nat.eq_dec j (List.length pre)) as [E|E].
        -- subst j. rewrite app_nth2 by lia. rewrite Nat.sub_diag. simpl. lra.
        -- rewrite app_nth1 by lia. specialize (Hmax j ltac:(lia)). lra.
    + apply IH.
      * rewrite length_app. simpl. lia.
      * rewrite app_nth1 by lia. exact Hb.
      * intros j Hj. rewrite length_app in Hj. simpl in Hj.
        destruct (Nat.eq_dec j (List.length pre)) as [E|E].
        -- subst j. rewrite app_nth2 by lia. rewrite Nat.sub_diag. simpl. lra.
        -- rewrite app_nth1 by lia. apply Hmax. lia.
Qed.

(** [np.argmax] returns an index of the array that holds its maximum. *)
Lemma np_argmax_spec (a : list R) :
  a <> [] ->
  (np_argmax a < List.length a)%nat
  /\ forall j, (j < List.length a)%nat -> nth j a 0 <= nth (np_argmax a) a 0.
Proof.
  destruct a as [|x rest]; [congruence|]. intros _.
  unfold np_argmax.
  apply (argmax_from_spec rest [x] 0 x).
  - simpl. lia.
  - reflexivity.
  - intros j Hj. simpl in Hj. replace j with 0%nat by lia. simpl. lra.
Qed.

End Argmax.

Section DetectTone.
Import Sender Receiver CodecSpec.
Local Open Scope R_scope.

(** The detector on a chunk that stays close to a windowed pure tone at
    bin [k0]: the peak index is within one bin of [k0]. *)
Lemma detect_near_tone (cfg : config) (chunk : list R) (a E : R) (k0 : nat) :
  let N := List.length chunk in
  sample_rate cfg <> 0%Z ->
  (2 <= k0)%nat -> (2 * (k0 + 2) <= N)%nat ->
  sum_over (fun n => Rabs (nth n chunk 0 * nth n (hanning N) 0
                           - windowed_tone a N k0 n)) 0 N <= E ->
  0 < a -> 3 * E < a * INR N / 4 -> min_amplitude <= a * INR N / 4 - E ->
  exists idx,
    (k0 - 1 <= idx <= k0 + 1)%nat
    /\ detect_dominant_frequency cfg chunk
       = Ret (Qabs (nth idx
                      (firstn (List.length (fftfreq N (1 / inject_Z (sample_rate cfg))) / 2)
                              (fftfreq N (1 / inject_Z (sample_rate cfg))))
                      0%Q)).
Proof.
  intros N Hs Hk HN HE Ha H3 Hmin.
  destruct (near_tone_spectrum chunk a E k0 Hk HN HE Ha H3) as [Hpeak Hfar].
  fold N in Hfar, Hpeak.
  pose proof (half_bounds N) as Hh.
  pose proof (magnitude_spectrum_length chunk) as Lm. fold N in Lm.
  set (magnitude := magnitude_spectrum chunk) in *.
  assert (Hne : magnitude <> []).
  { intros E0. rewrite E0 in Lm. cbn [List.length] in Lm. lia. }
  destruct (np_argmax_spec magnitude Hne) as [Hi Hmax].
  assert (Hk0 : (k0 < List.length magnitude)%nat) by lia.
  exists (np_argmax magnitude). split.
  - rewrite Lm in Hi.
    destruct (Nat.eq_dec (np_argmax magnitude) (k0 - 1)) as [E1|E1]; [lia|].
    destruct (Nat.eq_dec (np_argmax magnitude) k0) as [E2|E2]; [lia|].
    destruct (Nat.eq_dec (np_argmax magnitude) (k0 + 1)) as [E3|E3]; [lia|].
    exfalso.
    pose proof (Hfar _ Hi E1 E2 E3) as Hlt.
    pose proof (Hmax k0 Hk0) as Hge. lra.
  - unfold detect_dominant_frequency.
    replace (List.length chunk =? 0)%nat with false
      by (symmetry; apply Nat.eqb_neq; fold N; lia).
    fold magnitude. fold N.
    apply Z.eqb_neq in Hs. rewrite Hs.
    destruct (np_max magnitude) as [peak|e] eqn:Ep.
    + cbn [bind].
      assert (Hp : nth k0 magnitude 0 <= peak).
      { apply (np_max_bound magnitude peak _ Ep). apply nth_In. exact Hk0. }
      destruct (Rlt_dec peak min_amplitude) as [Hlt|_]; [lra|]. reflexivity.
    + destruct magnitude; [congruence|discriminate].
Qed.

End DetectTone.

(** ** The distance of a tone chunk to a windowed pure tone *)

Section ToneError.
Import Sender Receiver CodecSpec.
Local Open Scope R_scope.

Lemma sin_abs_le (t : R) : Rabs (sin t) <= Rabs t.
Proof.
  destruct (Rtotal_order t 0) as [Hneg|[E|Hpos]].
  - pose proof (sin_gt_x t Hneg) as H1.
    pose proof (SIN_bound t) as Hb.
    rewrite (Rabs_left t) by exact Hneg.
    apply Rabs_le. split; [lra|].
    destruct (Rle_dec t (-1)) as [Hl|Hg]; [lra|].
    assert (Hs : sin t <= 0).
    { replace t with (- (- t)) by ring. rewrite sin_neg.
      assert (0 <= sin (- t)); [|lra].
      apply sin_ge_0; [lra|]. pose proof PI2_3_2. pose proof PI_RGT_0. lra. }
    lra.
  - subst t. rewrite sin_0, Rabs_R0. lra.
  - pose proof (sin_lt_x t Hpos) as H1.
    pose proof (SIN_bound t) as Hb.
    rewrite (Rabs_right t) by lra.
    apply Rabs_le. split; [|lra].
    destruct (Rle_dec 1 t) as [Hl|Hg]; [lra|].
    assert (0 <= sin t); [|lra].
    apply sin_ge_0; [lra|]. pose proof PI2_3_2. pose proof PI_RGT_0. lra.
Qed.

Lemma sin_lipschitz (u v : R) : Rabs (sin u - sin v) <= Rabs (u - v).
Proof.
  rewrite form4, !Rabs_mult.
  pose proof (COS_bound ((u + v) / 2)) as Hc.
  assert (H1 : Rabs (cos ((u + v) / 2)) <= 1) by (apply Rabs_le; lra).
  pose proof (sin_abs_le ((u - v) / 2)) as H2.
  assert (H3 : Rabs ((u - v) / 2) = Rabs (u - v) / 2).
  { unfold Rdiv. rewrite Rabs_mult, (Rabs_right (/ 2)) by lra. reflexivity. }
  rewrite (Rabs_right 2) by lra.
  pose proof (Rabs_pos (cos ((u + v) / 2))). pose proof (Rabs_pos (sin ((u - v) / 2))).
  nra.
Qed.

Lemma cos_lipschitz (u v : R) : Rabs (cos u - cos v) <= Rabs (u - v).
Proof.
  rewrite form2, !Rabs_mult.
  pose proof (SIN_bound ((u + v) / 2)) as Hc.
  assert (H1 : Rabs (sin ((u + v) / 2)) <= 1) by (apply Rabs_le; lra).
  pose proof (sin_abs_le ((u - v) / 2)) as H2.
  assert (H3 : Rabs ((u - v) / 2) = Rabs (u - v) / 2).
  { unfold Rdiv. rewrite Rabs_mult, (Rabs_right (/ 2)) by lra. reflexivity. }
  rewrite (Rabs_left (-2)) by lra.
  pose proof (Rabs_pos (sin ((u + v) / 2))). pose proof (Rabs_pos (sin ((u - v) / 2))).
  nra.
Qed.

(** One sample: a faded, slightly detuned sine under the symmetric
    window against the pure sine under the periodic window. *)
Lemma sample_error (g s s' w w' : R) :
  0 <= g <= 1 -> Rabs s <= 1 -> Rabs s' <= 1 -> 0 <= w <= 1 ->
  Rabs (g * s * w - s' * w') <= (1 - g) + Rabs (s - s') + Rabs (w - w').
Proof.
  intros Hg Hs Hs' Hw.
  replace (g * s * w - s' * w')
    with ((g - 1) * (s * w) + ((s - s') * w + s' * (w - w'))) by ring.
  eapply Rle_trans; [apply Rabs_triang|].
  eapply Rle_trans; [apply Rplus_le_compat_l, Rabs_triang|].
  rewrite !Rabs_mult.
  rewrite (Rabs_left1 (g - 1)) by lra. rewrite (Rabs_right w) by lra.
  pose proof (Rabs_pos s) as P1. pose proof (Rabs_pos s') as P2.
  pose proof (Rabs_pos (s - s')) as P3. pose proof (Rabs_pos (w - w')) as P4.
  revert Hs Hs' P1 P2 P3 P4.
  generalize (Rabs s) (Rabs s') (Rabs (s - s')) (Rabs (w - w')).
  intros r1 r2 r3 r4 Hs Hs' P1 P2 P3 P4.
  assert (A1 : r1 * w <= 1) by nra.
  assert (A0 : 0 <= r1 * w) by nra.
  assert (B1 : - (g - 1) * (r1 * w) <= 1 - g) by nra.
  assert (B2 : r3 * w <= r3) by nra.
  assert (B3 : r2 * r4 <= r4) by nra.
  lra.
Qed.

(** The symmetric window of [N] samples against the periodic one. *)
Lemma window_error (N n : nat) :
  (2 <= N)%nat -> (n < N)%nat ->
  Rabs (nth n (hanning N) 0 - (1 / 2 - 1 / 2 * cos (INR n * bin_angle N 1)))
  <= PI / (INR N - 1).
Proof.
  intros HN Hn. rewrite nth_hanning by assumption.
  assert (H2 : 2 <= INR N) by (apply (le_INR 2); lia).
  assert (Hn0 : 0 <= INR n) by apply pos_INR.
  assert (Hn1 : INR n <= INR N) by (apply le_INR; lia).
  pose proof PI_RGT_0 as Hpi.
  replace (1 / 2 - 1 / 2 * cos (2 * PI * INR n / (INR N - 1))
           - (1 / 2 - 1 / 2 * cos (INR n * bin_angle N 1)))
    with (- (1 / 2) * (cos (2 * PI * INR n / (INR N - 1)) - cos (INR n * bin_angle N 1)))
    by ring.
  rewrite Rabs_mult, (Rabs_left (- (1 / 2))) by lra.
  pose proof (cos_lipschitz (2 * PI * INR n / (INR N - 1)) (INR n * bin_angle N 1)) as Hl.
  assert (Ed : 2 * PI * INR n / (INR N - 1) - INR n * bin_angle N 1
               = 2 * PI * (INR n / INR N) / (INR N - 1)).
  { unfold bin_angle. change (INR 1) with 1. field. lra. }
  rewrite Ed in Hl.
  assert (Hq : 0 <= INR n / INR N <= 1).
  { split.
    - apply Rmult_le_pos; [exact Hn0|]. left. apply Rinv_0_lt_compat. lra.
    - apply (Rmult_le_reg_r (INR N)); [lra|].
      unfold Rdiv. rewrite Rmult_assoc, Rinv_l by lra. lra. }
  assert (Hinv : 0 < / (INR N - 1)) by (apply Rinv_0_lt_compat; lra).
  revert Hl Hq. generalize (INR n / INR N). intros q Hl Hq.
  assert (Hb : 2 * PI * q / (INR N - 1) <= 2 * PI / (INR N - 1)).
  { unfold Rdiv. apply Rmult_le_compat_r; [lra|nra]. }
  assert (Hp : 0 <= 2 * PI * q / (INR N - 1)).
  { unfold Rdiv. apply Rmult_le_pos; [nra|lra]. }
  rewrite (Rabs_right (2 * PI * q / (INR N - 1))) in Hl by lra.
  unfold Rdiv in *. lra.
Qed.

Lemma windowed_tone_error (N k0 n : nat) (a g x delta eta : R) :
  (2 <= N)%nat -> (n < N)%nat ->
  0 <= a -> 0 <= g <= 1 -> Rabs delta <= eta ->
  x = a * (g * sin (INR n * bin_angle N k0 + delta)) ->
  Rabs (x * nth n (hanning N) 0 - windowed_tone a N k0 n)
  <= a * ((1 - g) + (eta + PI / (INR N - 1))).
Proof.
  intros HN Hn Ha Hg Hd Ex. subst x. unfold windowed_tone.
  replace (a * (g * sin (INR n * bin_angle N k0 + delta)) * nth n (hanning N) 0
           - a * (sin (INR n * bin_angle N k0)
                  * (1 / 2 - 1 / 2 * cos (INR n * bin_angle N 1))))
    with (a * (g * sin (INR n * bin_angle N k0 + delta) * nth n (hanning N) 0
               - sin (INR n * bin_angle N k0)
                 * (1 / 2 - 1 / 2 * cos (INR n * bin_angle N 1)))) by ring.
  rewrite Rabs_mult, (Rabs_right a) by lra.
  apply Rmult_le_compat_l; [exact Ha|].
  eapply Rle_trans; [apply sample_error|].
  - exact Hg.
  - apply Rabs_le. apply SIN_bound.
  - apply Rabs_le. apply SIN_bound.
  - now apply hanning_bounds.
  - pose proof (sin_lipschitz (INR n * bin_angle N k0 + delta) (INR n * bin_angle N k0)) as Hl.
    replace (INR n * bin_angle N k0 + delta - INR n * bin_angle N k0) with delta in Hl by ring.
    pose proof (window_error N n HN Hn) as Hw.
    lra.
Qed.

(** The whole chunk: faded over its first and last 100 samples at most. *)
Lemma tone_chunk_error (chunk : list R) (k0 : nat) (a eta : R)
    (g delta : nat -> R) :
  let N := List.length chunk in
  (200 <= N)%nat ->
  0 <= a -> 0 <= eta ->
  (forall n, (n < N)%nat -> 0 <= g n <= 1) ->
  (forall n, (100 <= n < N - 100)%nat -> g n = 1) ->
  (forall n, (n < N)%nat -> Rabs (delta n) <= eta) ->
  (forall n, (n < N)%nat ->
             nth n chunk 0 = a * (g n * sin (INR n * bin_angle N k0 + delta n))) ->
  sum_over (fun n => Rabs (nth n chunk 0 * nth n (hanning N) 0
                           - windowed_tone a N k0 n)) 0 N
  <= a * (200 + INR N * (eta + PI / (INR N - 1))).
Proof.
  intros N HN Ha Heta Hg Hmid Hd Hx.
  assert (H2 : 2 <= INR N) by (apply (le_INR 2); lia).
  pose proof PI_RGT_0 as Hpi.
  assert (Hc : 0 <= eta + PI / (INR N - 1)).
  { assert (0 < / (INR N - 1)) by (apply Rinv_0_lt_compat; lra).
    unfold Rdiv. nra. }
  set (c := eta + PI / (INR N - 1)) in *.
  eapply Rle_trans.
  { apply (sum_over_le _ (fun n => a * (1 - g n) + a * c)).
    intros n Hn.
    rewrite <- Rmult_plus_distr_l.
    apply (windowed_tone_error N k0 n a (g n) _ (delta n) eta); try lia;
      try assumption.
    - apply Hg. lia.
    - apply Hd. lia.
    - apply Hx. lia. }
  rewrite sum_over_plus, sum_over_scal, sum_over_const.
  assert (Hfade : sum_over (fun n => 1 - g n) 0 N <= 200).
  { replace N with (100 + ((N - 200) + 100))%nat at 1 by lia.
    rewrite !sum_over_split. change (0 + 100)%nat with 100%nat.
    assert (E1 : sum_over (fun n => 1 - g n) 0 100 <= 100).
    { eapply Rle_trans; [apply (sum_over_le _ (fun _ => 1))|].
      - intros n Hn. specialize (Hg n ltac:(lia)). lra.
      - rewrite sum_over_const, INR_IZR_INZ. change (Z.of_nat 100) with 100%Z. lra. }
    assert (E2 : sum_over (fun n => 1 - g n) 100 (N - 200) = 0).
    { rewrite (sum_over_ext _ (fun _ => 0)).
      - rewrite sum_over_const. lra.
      - intros n Hn. rewrite Hmid by lia. lra. }
    assert (E3 : sum_over (fun n => 1 - g n) (100 + (N - 200)) 100 <= 100).
    { eapply Rle_trans; [apply (sum_over_le _ (fun _ => 1))|].
      - intros n Hn. specialize (Hg n ltac:(lia)). lra.
      - rewrite sum_over_const, INR_IZR_INZ. change (Z.of_nat 100) with 100%Z. lra. }
    lra. }
  nra.
Qed.

End ToneError.

(** ** The samples of a tone *)

Section ToneSamples.
Import Sender Receiver CodecSpec.
Local Open Scope R_scope.

Lemma nth_mul_head (k m : nat) (l up : list R) :
  List.length up = k -> (k <= List.length l)%nat ->
  nth m (mul_head k l up) 0
  = nth m l 0 * (if (m <? k)%nat then nth m up 0 else 1).
Proof.
  intros Lu Hk. unfold mul_head.
  assert (Lf : List.length (firstn k l) = k) by (rewrite length_firstn; lia).
  assert (Lm : List.length (mul_arrays (firstn k l) up) = k)
    by (rewrite mul_arrays_length; lia).
  destruct (m <? k)%nat eqn:E.
  - apply Nat.ltb_lt in E. rewrite app_nth1 by lia.
    rewrite nth_mul_arrays by lia. rewrite nth_firstn.
    replace (m <? k)%nat with true by (symmetry; apply Nat.ltb_lt; exact E).
    reflexivity.
  - apply Nat.ltb_ge in E. rewrite app_nth2 by lia. rewrite Lm.
    rewrite nth_skipn. replace (k + (m - k))%nat with m by lia. ring.
Qed.

Lemma nth_mul_tail (k m : nat) (l dn : list R) :
  List.length dn = k -> (k <= List.length l)%nat -> (m < List.length l)%nat ->
  nth m (mul_tail k l dn) 0
  = nth m l 0 * (if (List.length l - k <=? m)%nat
                 then nth (m - (List.length l - k)) dn 0 else 1).
Proof.
  intros Ld Hk Hm. unfold mul_tail.
  set (cut := (List.length l - k)%nat).
  assert (Lf : List.length (firstn cut l) = cut) by (rewrite length_firstn; lia).
  destruct (cut <=? m)%nat eqn:E.
  - apply Nat.leb_le in E. rewrite app_nth2 by lia. rewrite Lf.
    rewrite nth_mul_arrays by (rewrite length_skipn; lia).
    rewrite nth_skipn. replace (cut + (m - cut))%nat with m by lia. reflexivity.
  - apply Nat.leb_gt in E. rewrite app_nth1 by lia. rewrite nth_firstn.
    replace (m <? cut)%nat with true by (symmetry; apply Nat.ltb_lt; exact E).
    ring.
Qed.

Lemma nth_unit_interval (l : list R) (m : nat) :
  Forall (fun r => 0 <= r <= 1) l -> 0 <= nth m l 0 <= 1.
Proof.
  intros H. destruct (Nat.lt_ge_cases m (List.length l)) as [Hm|Hm].
  - rewrite Forall_forall in H. apply H. now apply nth_In.
  - rewrite nth_overflow by exact Hm. lra.
Qed.

(** The samples of a tone of at least 1000 samples: a sine at the sample
    times, faded over the first and the last 100 samples only. *)
Lemma tone_samples (cfg : config) (frequency : Z) (duration : Q) (samples : Z)
    (tone : list R) :
  int_of_product (sample_rate cfg) duration = Ret samples ->
  (1000 <= samples)%Z ->
  generate_tone cfg frequency duration = Ret tone ->
  List.length tone = Z.to_nat samples
  /\ exists fade : nat -> R,
       (forall m, 0 <= fade m <= 1)
       /\ (forall m, (100 <= m < Z.to_nat samples - 100)%nat -> fade m = 1)
       /\ forall m, (m < Z.to_nat samples)%nat ->
            nth m tone 0
            = fade m * sin (2 * PI * IZR frequency
                            * (INR m * (Q2R duration / IZR samples))).
Proof.
  intros Ep HK. unfold generate_tone. rewrite Ep. cbn [bind].
  unfold linspace at 1.
  replace (samples <? 0)%Z with false by (symmetry; apply Z.ltb_ge; lia).
  replace (0 <? samples)%Z with true by (symmetry; apply Z.ltb_lt; lia).
  cbn [bind].
  assert (Ef : Z.min 100 (samples / 10) = 100%Z).
  { apply Z.min_l. apply Z.div_le_lower_bound; lia. }
  rewrite Ef. change (0 <? 100)%Z with true. cbv iota.
  destruct (linspace 0 1 100 true) as [up|e] eqn:Eu; [|discriminate].
  destruct (linspace 1 0 100 true) as [dn|e] eqn:Ed; [|discriminate].
  cbn [bind]. change (Z.to_nat 100) with 100%nat.
  intros E. injection E as Et.
  set (K := Z.to_nat samples) in *.
  set (sine := map (fun ti => sin (2 * PI * IZR frequency * ti))
                   (map (fun i : nat => INR i * ((Q2R duration - 0) / IZR samples) + 0)
                        (seq 0 K))) in *.
  assert (Ls : List.length sine = K)
    by (subst sine; now rewrite !length_map, length_seq).
  destruct (linspace_result 0 1 100 true ltac:(lia)) as [up' [Eu' Lu]].
  destruct (linspace_result 1 0 100 true ltac:(lia)) as [dn' [Ed' Ld]].
  rewrite Eu in Eu'. inversion Eu'. subst up'. clear Eu'.
  rewrite Ed in Ed'. inversion Ed'. subst dn'. clear Ed'.
  change (Z.to_nat 100) with 100%nat in *.
  pose proof (ramp_bounds 0 1 _ up (or_introl (conj eq_refl eq_refl)) Eu) as Hup.
  pose proof (ramp_bounds 1 0 _ dn (or_intror (conj eq_refl eq_refl)) Ed) as Hdn.
  assert (HK100 : (1000 <= K)%nat) by (subst K; lia).
  assert (Lh : List.length (mul_head 100 sine up) = K).
  { rewrite mul_head_length; [exact Ls|rewrite Ls; lia|exact Lu]. }
  subst tone.
  split.
  { rewrite mul_tail_length; [exact Lh|rewrite Lh; lia|exact Ld]. }
  exists (fun m => (if (m <? 100)%nat then nth m up 0 else 1)
                   * (if (K - 100 <=? m)%nat then nth (m - (K - 100)) dn 0 else 1)).
  split; [|split].
  - intros m.
    pose proof (nth_unit_interval up m Hup) as H1.
    pose proof (nth_unit_interval dn (m - (K - 100)) Hdn) as H2.
    destruct (m <? 100)%nat, (K - 100 <=? m)%nat; nra.
  - intros m Hm.
    replace (m <? 100)%nat with false by (symmetry; apply Nat.ltb_ge; lia).
    replace (K - 100 <=? m)%nat with false by (symmetry; apply Nat.leb_gt; lia).
    ring.
  - intros m Hm.
    rewrite nth_mul_tail; [|exact Ld|rewrite Lh; lia|rewrite Lh; exact Hm].
    rewrite Lh.
    rewrite nth_mul_head; [|exact Lu|rewrite Ls; lia].
    assert (Es : nth m sine 0
                 = sin (2 * PI * IZR frequency * (INR m * (Q2R duration / IZR samples)))).
    { subst sine. rewrite map_map. rewrite (nth_map_seq _ K m Hm).
      f_equal. f_equal. unfold Rdiv. ring. }
    rewrite Es. ring.
Qed.

End ToneSamples.

(** ** The tones of the default configuration *)

Section DefaultTones.
Import Sender Receiver CodecSpec.
Local Open Scope R_scope.

Lemma INR_4410 : INR 4410 = 4410.
Proof. rewrite INR_IZR_INZ. reflexivity. Qed.

Lemma nth_scaled (a : R) (l : list R) (n : nat) :
  nth n (map (fun v => a * v) l) 0 = a * nth n l 0.
Proof.
  rewrite <- (Rmult_0_r a) at 1.
  exact (map_nth (fun v => a * v) l 0 n).
Qed.

(** A chunk cut out of a tone of the default configuration, [c] chunks
    into the tone, and scaled by [a]: the detector finds its peak within
    one bin of the bin [k0] of the tone. *)
Lemma detect_tone_chunk (frequency : Z) (duration : Q) (samples : Z)
    (k0 c : nat) (tone chunk : list R) (a : R) :
  int_of_product (sample_rate default_config) duration = Ret samples ->
  generate_tone default_config frequency duration = Ret tone ->
  (1000 <= samples)%Z ->
  (c * 4410 + 4410 <= Z.to_nat samples)%nat ->
  (c <= 1)%nat ->
  chunk = map (fun v => a * v) (firstn 4410 (skipn (c * 4410) tone)) ->
  4 / 5 <= a ->
  (2 <= k0 <= 300)%nat ->
  IZR frequency * (Q2R duration / IZR samples)
  = INR k0 / 4410 * (1 + / 18014398509481984) ->
  exists idx,
    (k0 - 1 <= idx <= k0 + 1)%nat
    /\ detect_dominant_frequency default_config chunk
       = Ret (Qabs (nth idx
                      (firstn (List.length (fftfreq 4410 (1 / inject_Z 44100)) / 2)
                              (fftfreq 4410 (1 / inject_Z 44100)))
                      0%Q)).
Proof.
  intros Ep Et HK Hc Hc1 Echunk Ha Hk Hrho.
  destruct (tone_samples default_config frequency duration samples tone Ep HK Et)
    as [Lt [fade [Hfade [Hmid Hs]]]].
  assert (LN : List.length chunk = 4410%nat).
  { subst chunk. rewrite length_map, length_firstn, length_skipn. lia. }
  pose proof PI_RGT_0 as Hpi. pose proof PI_4 as Hpi4.
  set (eps := / 18014398509481984) in *.
  assert (Heps : 0 < eps < 1 / 1000000000000000).
  { subst eps. split; [apply Rinv_0_lt_compat; lra|].
    apply (Rmult_lt_reg_r 18014398509481984); [lra|].
    rewrite Rinv_l by lra. lra. }
  assert (Hk0 : 2 <= INR k0 <= 300).
  { split; [apply (le_INR 2); lia|].
    replace 300 with (INR 300) by (rewrite INR_IZR_INZ; reflexivity).
    apply le_INR. lia. }
  assert (Hcr : 0 <= INR c <= 1).
  { split; [apply pos_INR|]. apply (le_INR c 1). exact Hc1. }
  pose (delta := fun n : nat =>
                   2 * PI * (INR k0 / 4410) * eps * (INR c * 4410 + INR n)).
  assert (Hsample : forall n, (n < 4410)%nat ->
            nth n chunk 0
            = a * (fade (c * 4410 + n)%nat
                   * sin (INR n * bin_angle 4410 k0 + delta n))).
  { intros n Hn. subst chunk. rewrite nth_scaled. f_equal.
    rewrite nth_firstn.
    replace (n <? 4410)%nat with true by (symmetry; apply Nat.ltb_lt; exact Hn).
    rewrite nth_skipn. rewrite Hs by lia. f_equal.
    rewrite <- (sin_period (INR n * bin_angle 4410 k0 + delta n) (k0 * c)).
    f_equal. unfold delta, bin_angle.
    rewrite plus_INR, !mult_INR, INR_4410.
    replace (2 * PI * IZR frequency
             * ((INR c * 4410 + INR n) * (Q2R duration / IZR samples)))
      with (2 * PI * (INR c * 4410 + INR n)
            * (IZR frequency * (Q2R duration / IZR samples))) by ring.
    rewrite Hrho. field. }
  assert (Hdelta : forall n, (n < 4410)%nat -> Rabs (delta n) <= 1 / 1000000).
  { intros n Hn. unfold delta.
    assert (Hn0 : 0 <= INR n) by apply pos_INR.
    assert (Hn1 : INR n <= 4410) by (rewrite <- INR_4410; apply le_INR; lia).
    assert (Hq : 0 <= INR k0 / 4410 <= 1) by (unfold Rdiv; lra).
    assert (Hm : 0 <= INR c * 4410 + INR n <= 8820) by nra.
    revert Hq Hm. generalize (INR k0 / 4410) (INR c * 4410 + INR n).
    intros q m Hq Hm.
    assert (H1 : 0 <= 2 * PI * q <= 8) by nra.
    revert H1. generalize (2 * PI * q). intros r H1.
    assert (H2 : 0 <= r * eps <= 8 / 1000000000000000) by nra.
    revert H2. generalize (r * eps). intros t H2.
    rewrite Rabs_right by nra. nra. }
  pose proof (detect_near_tone default_config chunk a
                (a * (200 + INR 4410 * (1 / 1000000 + PI / (INR 4410 - 1)))) k0)
    as Hdet.
  cbv zeta in Hdet. rewrite LN in Hdet.
  assert (Hb : PI / (4410 - 1) <= 1 / 1000) by (unfold Rdiv; lra).
  apply Hdet.
  - discriminate.
  - lia.
  - lia.
  - pose proof (tone_chunk_error chunk k0 a (1 / 1000000)
                  (fun n => fade (c * 4410 + n)%nat) delta) as Herr.
    cbv zeta in Herr. rewrite LN in Herr. apply Herr.
    + lia.
    + lra.
    + lra.
    + intros n _. apply Hfade.
    + intros n Hn. apply Hmid. lia.
    + exact Hdelta.
    + exact Hsample.
  - lra.
  - rewrite INR_4410. nra.
  - rewrite INR_4410. unfold min_amplitude. nra.
Qed.

End DefaultTones.

Section DefaultSignal.
Import Sender Receiver CodecSpec.
Local Open Scope R_scope.

(** The classes of the bins next to the four tones, 10 Hz apart. *)
Lemma default_bin_classes (idx : nat) :
  let freq :=
    Qabs (nth idx
            (firstn (List.length (fftfreq 4410 (1 / inject_Z 44100)) / 2)
                    (fftfreq 4410 (1 / inject_Z 44100)))
            0%Q) in
  ((49 <= idx <= 51)%nat -> classify_frequency freq = START)
  /\ ((99 <= idx <= 101)%nat -> classify_frequency freq = ZERO)
  /\ ((199 <= idx <= 201)%nat -> classify_frequency freq = ONE)
  /\ ((299 <= idx <= 301)%nat -> classify_frequency freq = END).
Proof.
  cbv zeta. repeat split; intros H.
  - assert (E : idx = 49%nat \/ idx = 50%nat \/ idx = 51%nat) by lia.
    destruct E as [E|[E|E]]; subst idx; vm_compute; reflexivity.
  - assert (E : idx = 99%nat \/ idx = 100%nat \/ idx = 101%nat) by lia.
    destruct E as [E|[E|E]]; subst idx; vm_compute; reflexivity.
  - assert (E : idx = 199%nat \/ idx = 200%nat \/ idx = 201%nat) by lia.
    destruct E as [E|[E|E]]; subst idx; vm_compute; reflexivity.
  - assert (E : idx = 299%nat \/ idx = 300%nat \/ idx = 301%nat) by lia.
    destruct E as [E|[E|E]]; subst idx; vm_compute; reflexivity.
Qed.

Lemma float_tenth :
  float_literal (1 # 10) = (3602879701896397 # 36028797018963968)%Q.
Proof. vm_compute. reflexivity. Qed.

Lemma float_fifth :
  float_literal (2 # 10) = (3602879701896397 # 18014398509481984)%Q.
Proof. vm_compute. reflexivity. Qed.

(** Cycles per sample of the four tones: the bin of the tone, up to the
    relative error [2^-54] of the float duration. *)
Lemma bit_tone_rate (frequency : Z) (k0 : nat) :
  IZR frequency = 10 * INR k0 ->
  IZR frequency * (Q2R (float_literal (1 # 10)) / 4410)
  = INR k0 / 4410 * (1 + / 18014398509481984).
Proof.
  intros H. rewrite float_tenth, H. unfold Q2R. cbn [Qnum Qden]. field.
Qed.

Lemma frame_tone_rate (frequency : Z) (k0 : nat) :
  IZR frequency = 10 * INR k0 ->
  IZR frequency * (Q2R (float_literal (2 # 10)) / 8820)
  = INR k0 / 4410 * (1 + / 18014398509481984).
Proof.
  intros H. rewrite float_fifth, H. unfold Q2R. cbn [Qnum Qden]. field.
Qed.

End DefaultSignal.

Section DefaultSignalParts.
Import Sender Receiver CodecSpec.
Local Open Scope R_scope.

Lemma mapM_each {A B : Type} (f : A -> outcome B) (l : list A) (r : list B) :
  mapM f l = Ret r -> Forall2 (fun x y => f x = Ret y) l r.
Proof.
  revert r. induction l as [|x l IH]; intros r H.
  - simpl in H. inversion H. constructor.
  - cbn [mapM] in H. destruct (f x) as [y|e] eqn:E; [|discriminate].
    cbn [bind] in H. destruct (mapM f l) as [ys|e]; [|discriminate].
    cbn [bind] in H. inversion H. constructor; [exact E|]. now apply IH.
Qed.

Lemma tones_bounded (cfg : config) (bits : list ascii) (tones : list (list R)) :
  mapM (fun bit => generate_tone cfg (bit_frequency bit) (bit_duration cfg)) bits
  = Ret tones ->
  Forall (fun x => Rabs x <= 1) (List.concat tones).
Proof.
  intros H. apply mapM_each in H.
  induction H as [|bit tone bits tones Hg _ IH]; [constructor|].
  cbn [List.concat]. apply Forall_app. split; [|exact IH].
  exact (generate_tone_bounded cfg _ _ tone Hg).
Qed.

(** The assembled signal: the segments in order, all multiplied by one
    amplitude of at least 0.8. *)
Lemma create_signal_parts (cfg : config) (text : list N)
    (frame_samples silent_samples bit_samples : Z) :
  int_of_product (sample_rate cfg) (float_literal (2 # 10)) = Ret frame_samples ->
  int_of_product (sample_rate cfg) (float_literal (1 # 10)) = Ret silent_samples ->
  int_of_product (sample_rate cfg) (bit_duration cfg) = Ret bit_samples ->
  (0 < frame_samples)%Z ->
  (0 <= silent_samples)%Z ->
  (0 <= bit_samples)%Z ->
  exists (start_tone end_tone : list R) (tones : list (list R)) (a : R),
    generate_tone cfg freq_start (float_literal (2 # 10)) = Ret start_tone
    /\ generate_tone cfg freq_end (float_literal (2 # 10)) = Ret end_tone
    /\ mapM (fun bit => generate_tone cfg (bit_frequency bit) (bit_duration cfg))
            (list_ascii_of_string (text_to_binary text)) = Ret tones
    /\ 4 / 5 <= a
    /\ create_signal cfg text
       = Ret (map (fun v => a * v)
                (List.concat ([start_tone; repeat 0 (Z.to_nat silent_samples)]
                              ++ tones
                              ++ [repeat 0 (Z.to_nat silent_samples); end_tone]))).
Proof.
  intros Eframe Esil Ebit Hframe Hsil Hbit. unfold create_signal.
  destruct (generate_tone_samples cfg freq_start (float_literal (2 # 10))
              frame_samples Eframe) as [st [Es Ls]]; [lia|].
  destruct (generate_tone_samples cfg freq_end (float_literal (2 # 10))
              frame_samples Eframe) as [en [Ee Le]]; [lia|].
  destruct (bit_tones_blocks cfg (list_ascii_of_string (text_to_binary text))
              bit_samples Ebit Hbit)
    as [tones [Et [Ll Lt]]].
  rewrite Es. cbn [bind]. rewrite Esil. cbn [bind]. unfold zeros.
  destruct (silent_samples <? 0)%Z eqn:E;
    [apply Z.ltb_lt in E; lia|].
  cbn [bind]. rewrite Et. cbn [bind]. rewrite Ee. cbn [bind].
  set (silence := repeat 0 (Z.to_nat silent_samples)).
  set (full_signal := List.concat ([st; silence] ++ tones ++ [silence; en])).
  assert (Hb : Forall (fun x => Rabs x <= 1) full_signal).
  { subst full_signal. rewrite !concat_app. cbn [List.concat].
    rewrite !app_nil_r.
    assert (Hz : Forall (fun x => Rabs x <= 1) silence).
    { subst silence. apply Forall_forall. intros x Hx.
      apply repeat_spec in Hx. subst x. rewrite Rabs_R0. lra. }
    repeat (apply Forall_app; split); try exact Hz.
    - exact (generate_tone_bounded cfg _ _ st Es).
    - exact (tones_bounded cfg _ tones Et).
    - exact (generate_tone_bounded cfg _ _ en Ee). }
  destruct (np_max (map Rabs full_signal)) as [max_val|e] eqn:Em.
  - cbn [bind].
    exists st, en, tones.
    destruct (Rlt_dec 0 max_val) as [Hpos|Hn].
    + exists (8 / 10 / max_val).
      split; [reflexivity|]. split; [reflexivity|]. split; [reflexivity|].
      split.
      * pose proof (np_max_attained _ _ Em) as Hin.
        apply in_map_iff in Hin. destruct Hin as [x [Ex Hx]].
        rewrite Forall_forall in Hb. specialize (Hb x Hx). rewrite Ex in Hb.
        apply (Rmult_le_reg_r max_val); [exact Hpos|].
        replace (8 / 10 / max_val * max_val) with (8 / 10) by (field; lra).
        lra.
      * f_equal. apply map_ext. intros v. unfold Rdiv. ring.
    + exists 1.
      split; [reflexivity|]. split; [reflexivity|]. split; [reflexivity|].
      split; [lra|].
      f_equal. rewrite <- (map_id full_signal) at 1.
      apply map_ext. intros v. ring.
  - destruct (map Rabs full_signal) as [|x rest] eqn:E0; [|discriminate].
    apply (f_equal (@List.length R)) in E0. rewrite length_map in E0.
    subst full_signal. cbn [app List.concat] in E0. rewrite length_app in E0.
    cbn [List.length] in E0. lia.
Qed.

End DefaultSignalParts.

(** ** The round trip at the default configuration *)

Section RoundTrip.
Import Sender Receiver CodecSpec.
Local Open Scope nat_scope.

Lemma mapM_app {A B : Type} (f : A -> outcome B) (l1 l2 : list A) :
  mapM f (l1 ++ l2)
  = (r1 <- mapM f l1 ;; r2 <- mapM f l2 ;; Ret (r1 ++ r2)%list).
Proof.
  induction l1 as [|a l1 IH]; cbn [app mapM].
  - cbn [bind]. destruct (mapM f l2); reflexivity.
  - destruct (f a) as [b|e]; [|reflexivity]. cbn [bind]. rewrite IH.
    destruct (mapM f l1) as [r1|e]; [|reflexivity]. cbn [bind].
    destruct (mapM f l2) as [r2|e]; reflexivity.
Qed.

Lemma analyze_default_silence :
  analyze_chunk default_config (repeat 0%R (Z.to_nat 4410)) = Ret (0%Q, NOISE).
Proof.
  apply analyze_silent_chunk.
  - apply Forall_forall. intros x Hx. symmetry. exact (repeat_spec _ _ _ Hx).
  - rewrite repeat_length. lia.
  - discriminate.
Qed.

Lemma chunk_bits_of_class (payload nominal : list (Q * classification)) :
  map snd payload = map snd nominal ->
  Forall (fun entry => snd entry = ZERO \/ snd entry = ONE) nominal ->
  Forall (fun entry => snd entry = ZERO \/ snd entry = ONE) payload
  /\ map chunk_bits payload = map chunk_bits nominal.
Proof.
  revert nominal. induction payload as [|[f c] payload IH]; intros [|[f' c'] nominal] E H;
    try discriminate; [split; [constructor|reflexivity]|].
  cbn [map snd] in E. injection E as Ec Et. subst c'.
  inversion H as [|x l Hc Hn]; subst. destruct (IH nominal Et Hn) as [Hp Em].
  split; [constructor; assumption|]. cbn [map]. rewrite Em. f_equal.
  simpl in Hc. destruct Hc as [Hc|Hc]; subst c; reflexivity.
Qed.

(** The detector and the classifier on one chunk of a tone. *)
Lemma analyze_tone_chunk (frequency : Z) (duration : Q) (samples : Z)
    (k0 c : nat) (tone chunk : list R) (a : R) (cls : classification) :
  int_of_product (sample_rate default_config) duration = Ret samples ->
  generate_tone default_config frequency duration = Ret tone ->
  (1000 <= samples)%Z ->
  c * 4410 + 4410 <= Z.to_nat samples ->
  c <= 1 ->
  chunk = map (fun v => (a * v)%R) (firstn 4410 (skipn (c * 4410) tone)) ->
  (4 / 5 <= a)%R ->
  2 <= k0 <= 300 ->
  (IZR frequency * (Q2R duration / IZR samples)
   = INR k0 / 4410 * (1 + / 18014398509481984))%R ->
  (forall idx, k0 - 1 <= idx <= k0 + 1 ->
     classify_frequency
       (Qabs (nth idx
                (firstn (List.length (fftfreq 4410 (1 / inject_Z 44100)) / 2)
                        (fftfreq 4410 (1 / inject_Z 44100)))
                0%Q)) = cls) ->
  exists freq, analyze_chunk default_config chunk = Ret (freq, cls).
Proof.
  intros Ep Et HK Hc Hc1 Echunk Ha Hk Hrho Hcls.
  destruct (detect_tone_chunk frequency duration samples k0 c tone chunk a
              Ep Et HK Hc Hc1 Echunk Ha Hk Hrho) as [idx [Hi Hd]].
  eexists. unfold analyze_chunk. rewrite Hd. cbn [bind].
  rewrite (Hcls idx Hi). reflexivity.
Qed.

Lemma analyze_frame_chunk (frequency : Z) (k0 c : nat) (tone : list R) (a : R)
    (cls : classification) :
  generate_tone default_config frequency (float_literal (2 # 10)) = Ret tone ->
  c <= 1 ->
  (4 / 5 <= a)%R ->
  2 <= k0 <= 300 ->
  IZR frequency = (10 * INR k0)%R ->
  (forall idx, k0 - 1 <= idx <= k0 + 1 ->
     classify_frequency
       (Qabs (nth idx
                (firstn (List.length (fftfreq 4410 (1 / inject_Z 44100)) / 2)
                        (fftfreq 4410 (1 / inject_Z 44100)))
                0%Q)) = cls) ->
  exists freq,
    analyze_chunk default_config
      (map (fun v => (a * v)%R) (firstn 4410 (skipn (c * 4410) tone)))
    = Ret (freq, cls).
Proof.
  intros Et Hc Ha Hk Hf Hcls.
  assert (Hl : c * 4410 + 4410 <= Z.to_nat 8820).
  { change (Z.to_nat 8820) with (4410 + 4410). lia. }
  exact (analyze_tone_chunk frequency (float_literal (2 # 10)) 8820 k0 c tone _ a cls
           default_frame_samples Et ltac:(lia) Hl Hc eq_refl Ha Hk
           (frame_tone_rate frequency k0 Hf) Hcls).
Qed.

Lemma analyze_bit_chunk (bit : ascii) (tone : list R) (a : R) :
  generate_tone default_config (bit_frequency bit) (bit_duration default_config)
  = Ret tone ->
  (4 / 5 <= a)%R ->
  exists freq,
    analyze_chunk default_config (map (fun v => (a * v)%R) tone)
    = Ret (freq, if Ascii.eqb bit "1" then ONE else ZERO).
Proof.
  intros Et Ha.
  destruct (generate_tone_samples default_config (bit_frequency bit)
              (bit_duration default_config) 4410 default_bit_samples ltac:(lia))
    as [tone' [Et' Lt]].
  rewrite Et in Et'. injection Et' as <-.
  assert (Ef : firstn 4410 (skipn (0 * 4410) tone) = tone).
  { cbn [Nat.mul skipn]. apply firstn_all2. lia. }
  replace (map (fun v => (a * v)%R) tone)
    with (map (fun v => (a * v)%R) (firstn 4410 (skipn (0 * 4410) tone)))
    by (now rewrite Ef).
  assert (Hl : 0 * 4410 + 4410 <= Z.to_nat 4410).
  { change (Z.to_nat 4410) with 4410. lia. }
  unfold bit_frequency in *.
  destruct (Ascii.eqb bit "1").
  - refine (analyze_tone_chunk freq_1 (bit_duration default_config) 4410 200 0 tone _ a ONE
              default_bit_samples Et ltac:(lia) Hl ltac:(lia) eq_refl Ha ltac:(lia) _ _).
    + apply (bit_tone_rate freq_1 200). rewrite INR_IZR_INZ. unfold freq_1.
      change (Z.of_nat 200) with 200%Z. lra.
    + intros idx Hi. apply (default_bin_classes idx). lia.
  - refine (analyze_tone_chunk freq_0 (bit_duration default_config) 4410 100 0 tone _ a ZERO
              default_bit_samples Et ltac:(lia) Hl ltac:(lia) eq_refl Ha ltac:(lia) _ _).
    + apply (bit_tone_rate freq_0 100). rewrite INR_IZR_INZ. unfold freq_0.
      change (Z.of_nat 100) with 100%Z. lra.
    + intros idx Hi. apply (default_bin_classes idx). lia.
Qed.

Lemma analyze_bit_chunks (bits : list ascii) (tones : list (list R)) (a : R) :
  Forall2 (fun bit tone =>
             generate_tone default_config (bit_frequency bit)
                           (bit_duration default_config) = Ret tone) bits tones ->
  (4 / 5 <= a)%R ->
  exists payload,
    mapM (analyze_chunk default_config) (map (map (fun v => (a * v)%R)) tones)
    = Ret payload
    /\ map snd payload
       = map (fun bit => if Ascii.eqb bit "1" then ONE else ZERO) bits.
Proof.
  intros H Ha. induction H as [|bit tone bits tones Hg _ [payload [Ep Ec]]].
  - exists []. split; reflexivity.
  - destruct (analyze_bit_chunk bit tone a Hg Ha) as [freq Ea].
    exists ((freq, if Ascii.eqb bit "1" then ONE else ZERO) :: payload).
    cbn [map mapM]. rewrite Ea. cbn [bind]. rewrite Ep. cbn [bind].
    split; [reflexivity|]. cbn [map snd]. now rewrite Ec.
Qed.

(** At the default configuration the signal is cut into chunks that hold,
    in order: the two halves of the start tone, one chunk of silence, one
    chunk per bit tone, one chunk of silence, the two halves of the end
    tone, all multiplied by the amplitude of the normalisation. *)
Lemma default_signal_tones (text : list N) :
  exists (start_tone end_tone : list R) (tones : list (list R)) (a : R)
         (signal : list R),
    generate_tone default_config freq_start (float_literal (2 # 10)) = Ret start_tone
    /\ generate_tone default_config freq_end (float_literal (2 # 10)) = Ret end_tone
    /\ mapM (fun bit => generate_tone default_config (bit_frequency bit)
                                      (bit_duration default_config))
            (list_ascii_of_string (text_to_binary text)) = Ret tones
    /\ (4 / 5 <= a)%R
    /\ create_signal default_config text = Ret signal
    /\ split_chunks 4410 signal
       = Ret ([map (fun v => (a * v)%R) (firstn 4410 start_tone);
               map (fun v => (a * v)%R) (skipn 4410 start_tone);
               repeat 0%R (Z.to_nat 4410)]
              ++ map (map (fun v => (a * v)%R)) tones
              ++ [repeat 0%R (Z.to_nat 4410);
                  map (fun v => (a * v)%R) (firstn 4410 end_tone);
                  map (fun v => (a * v)%R) (skipn 4410 end_tone)])%list.
Proof.
  destruct (create_signal_parts default_config text 8820 4410 4410
              default_frame_samples default_silent_samples default_bit_samples)
    as [st [en [tones [a [Es [Ee [Et [Ha Ec]]]]]]]]; try lia.
  exists st, en, tones, a. eexists.
  split; [exact Es|]. split; [exact Ee|]. split; [exact Et|].
  split; [exact Ha|]. split; [exact Ec|].
  destruct (generate_tone_samples default_config freq_start (float_literal (2 # 10))
              8820 default_frame_samples ltac:(lia)) as [st' [Es' Ls]].
  rewrite Es in Es'. injection Es' as <-.
  destruct (generate_tone_samples default_config freq_end (float_literal (2 # 10))
              8820 default_frame_samples ltac:(lia)) as [en' [Ee' Le]].
  rewrite Ee in Ee'. injection Ee' as <-.
  destruct (bit_tones_blocks default_config
              (list_ascii_of_string (text_to_binary text)) 4410
              default_bit_samples ltac:(lia)) as [tones' [Et' [_ Lt]]].
  rewrite Et in Et'. injection Et' as <-.
  set (scale := fun v => (a * v)%R).
  assert (H0 : scale 0%R = 0%R) by (unfold scale; ring).
  change (Z.to_nat 4410) with 4410.
  set (c := 4410) in *.
  assert (Hc : Z.of_nat c = 4410%Z) by (subst c; reflexivity).
  destruct (halves_length c st ltac:(lia)) as [Ls1 [Ls2 Est]].
  destruct (halves_length c en ltac:(lia)) as [Le1 [Le2 Een]].
  set (silence := repeat 0%R c) in *.
  set (blocks := ([firstn c st; skipn c st; silence] ++ tones
                  ++ [silence; firstn c en; skipn c en])%list).
  assert (Eb : List.concat ([st; silence] ++ tones ++ [silence; en])
               = List.concat blocks).
  { subst blocks. rewrite !concat_app. cbn [List.concat app].
    rewrite !app_nil_r, <- !app_assoc, <- Est at 1. rewrite <- Een at 1.
    now rewrite <- !app_assoc. }
  assert (Hb : Forall (fun block => List.length block = c) blocks).
  { subst blocks. apply Forall_app. split; [|apply Forall_app; split].
    - repeat (apply Forall_cons || apply Forall_nil);
        try assumption; apply repeat_length.
    - apply Forall_forall. intros tone Hin.
      rewrite Forall_forall in Lt. specialize (Lt tone Hin). lia.
    - repeat (apply Forall_cons || apply Forall_nil);
        try assumption; apply repeat_length. }
  rewrite Eb, concat_map.
  rewrite (split_chunks_blocks 4410 (map (map scale) blocks)); [|lia|].
  - subst blocks. rewrite !map_app. cbn [map].
    assert (Ez : map scale silence = silence).
    { subst silence. rewrite map_repeat. now rewrite H0. }
    now rewrite Ez.
  - apply Forall_forall. intros block Hin. apply in_map_iff in Hin.
    destruct Hin as [b [Hbk Hin]]. subst block. rewrite length_map.
    rewrite Forall_forall in Hb. now apply Hb.
Qed.

Lemma bit_classes (bits : string) :
  map snd (bit_chunks bits)
  = map (fun bit => if Ascii.eqb bit "1" then ONE else ZERO)
        (list_ascii_of_string bits).
Proof.
  unfold bit_chunks. rewrite map_map. apply map_ext. intros bit.
  rewrite nominal_bit_chunk. destruct (Ascii.eqb bit "1"); reflexivity.
Qed.

(** The round trip at the default configuration, for every non-empty text
    of code points up to 255: the receiver decodes the sender's signal
    with a 0 bit in front of the bits of the text. *)
Lemma default_round_trip (text : list N) :
  text <> [] ->
  Forall (fun c => (c <= 255)%N) text ->
  exists signal,
    create_signal default_config text = Ret signal
    /\ process_audio default_config signal
       = Ret (Message (decode ("0" ++ text_to_binary text))).
Proof.
  intros Hne Hc.
  destruct (default_signal_tones text)
    as [st [en [tones [a [signal [Es [Ee [Et [Ha [Ec Ech]]]]]]]]]].
  exists signal. split; [exact Ec|].
  destruct (analyze_frame_chunk freq_start 50 0 st a START Es ltac:(lia) Ha ltac:(lia))
    as [f1 H1].
  { rewrite INR_IZR_INZ. unfold freq_start. change (Z.of_nat 50) with 50%Z. lra. }
  { intros idx Hi. apply (default_bin_classes idx). lia. }
  destruct (analyze_frame_chunk freq_start 50 1 st a START Es ltac:(lia) Ha ltac:(lia))
    as [f2 H2].
  { rewrite INR_IZR_INZ. unfold freq_start. change (Z.of_nat 50) with 50%Z. lra. }
  { intros idx Hi. apply (default_bin_classes idx). lia. }
  destruct (analyze_frame_chunk freq_end 300 0 en a END Ee ltac:(lia) Ha ltac:(lia))
    as [f3 H3].
  { rewrite INR_IZR_INZ. unfold freq_end. change (Z.of_nat 300) with 300%Z. lra. }
  { intros idx Hi. apply (default_bin_classes idx). lia. }
  destruct (analyze_frame_chunk freq_end 300 1 en a END Ee ltac:(lia) Ha ltac:(lia))
    as [f4 H4].
  { rewrite INR_IZR_INZ. unfold freq_end. change (Z.of_nat 300) with 300%Z. lra. }
  { intros idx Hi. apply (default_bin_classes idx). lia. }
  destruct (generate_tone_samples default_config freq_start (float_literal (2 # 10))
              8820 default_frame_samples ltac:(lia)) as [st' [Es' Ls]].
  rewrite Es in Es'. injection Es' as <-.
  destruct (generate_tone_samples default_config freq_end (float_literal (2 # 10))
              8820 default_frame_samples ltac:(lia)) as [en' [Ee' Le]].
  rewrite Ee in Ee'. injection Ee' as <-.
  cbn [Nat.mul skipn] in H1, H3.
  rewrite Nat.mul_1_l in H2, H4.
  rewrite (firstn_all2 (n := 4410) (skipn 4410 st)) in H2
    by (rewrite length_skipn; lia).
  rewrite (firstn_all2 (n := 4410) (skipn 4410 en)) in H4
    by (rewrite length_skipn; lia).
  destruct (analyze_bit_chunks _ tones a (mapM_each _ _ _ Et) Ha)
    as [payload [Ep Ecl]].
  rewrite <- bit_classes in Ecl.
  unfold process_audio. rewrite default_bit_samples. cbn [bind].
  rewrite Ech. cbn [bind]. cbn [app mapM].
  rewrite H1. cbn [bind]. rewrite H2. cbn [bind].
  rewrite analyze_default_silence. cbn [bind].
  rewrite mapM_app, Ep. cbn [bind mapM].
  rewrite analyze_default_silence. cbn [bind]. rewrite H3. cbn [bind].
  rewrite H4. cbn [bind]. f_equal.
  destruct (chunk_bits_of_class payload _ Ecl (bit_chunks_classes _)) as [Hp Eb].
  change ((f1, START) :: (f2, START) :: (0%Q, NOISE)
          :: (payload ++ [(0%Q, NOISE); (f3, END); (f4, END)])%list)
    with ((f1, START) :: (f2, START) :: (0%Q, NOISE)
          :: (payload ++ [(0%Q, NOISE)] ++ [(f3, END); (f4, END)])%list).
  rewrite decode_double_start.
  - rewrite Eb, bit_chunks_bits by (now apply text_to_binary_binary). reflexivity.
  - exact Hp.
  - intros E. subst payload. symmetry in Ecl. apply map_eq_nil in Ecl.
    apply (f_equal (@List.length _)) in Ecl.
    rewrite bit_chunks_length, text_to_binary_length in Ecl by exact Hc.
    destruct text; [congruence|simpl in Ecl; lia].
  - repeat constructor.
  - right. exists f3, [(f4, END)]. reflexivity.
Qed.

Lemma text_string_length (text : list N) :
  String.length (text_string text) = List.length text.
Proof.
  unfold text_string. induction text as [|c text IH]; [reflexivity|].
  cbn [map string_of_list_ascii String.length]. now rewrite IH.
Qed.

(** C1, at the failing input and beyond. For "HI" at 44100 Hz and 0.1 s
    per bit the receiver decodes the sender's own, unmodified signal to
    "$$[128]" and not to "HI": the start tone fills two chunks, the chunk
    after the first START is again START, so the silence that follows is
    not skipped and is decoded as a 0 bit in front of the payload. The
    same happens for every non-empty text of printable ASCII: the text
    received is longer than the text sent. *)
Theorem round_trip_HI_corrupted :
  (exists signal,
      create_signal default_config (py_str "HI") = Ret signal
      /\ process_audio default_config signal = Ret (Message "$$[128]"))
  /\ (forall text : list N,
        text <> [] ->
        Forall (fun c => (32 <= c <= 126)%N) text ->
        exists signal received,
          create_signal default_config text = Ret signal
          /\ process_audio default_config signal = Ret (Message received)
          /\ received = decode ("0" ++ text_to_binary text)
          /\ List.length text < String.length received
          /\ received <> text_string text).
Proof.
  split.
  - destruct (default_round_trip (py_str "HI")) as [signal [Es Ep]].
    + discriminate.
    + repeat constructor; discriminate.
    + exists signal. split; [exact Es|]. rewrite Ep. reflexivity.
  - intros text Hne Hp.
    assert (Hc : Forall (fun c => (c <= 255)%N) text)
      by (eapply Forall_impl; [|exact Hp]; cbv beta; intros c Hc; lia).
    destruct (default_round_trip text Hne Hc) as [signal [Es Ep]].
    exists signal, (decode ("0" ++ text_to_binary text)).
    split; [exact Es|]. split; [exact Ep|]. split; [reflexivity|].
    assert (Hl : List.length text
                 < String.length (decode ("0" ++ text_to_binary text))).
    { pose proof (shifted_payload_length _ _ (text_to_binary_length text Hc)). lia. }
    split; [exact Hl|].
    intros E. rewrite E, text_string_length in Hl. lia.
Qed.

Lemma round_trip_HI_corrupted_witness :
  exists signal received,
    create_signal default_config (py_str "A") = Ret signal
    /\ process_audio default_config signal = Ret (Message received)
    /\ received = decode ("0" ++ text_to_binary (py_str "A"))
    /\ List.length (py_str "A") < String.length received
    /\ received <> text_string (py_str "A").
Proof.
  apply (proj2 round_trip_HI_corrupted (py_str "A")).
  - discriminate.
  - repeat constructor; discriminate.
Defined.

End RoundTrip.

(** * Further properties of the code *)

Section FurtherCodec.
Import Sender Receiver CodecSpec.

(** X1. Encoding a text of printable ASCII characters to bits and decoding
    the bits gives the text back. *)
Theorem codec_round_trip_printable :
  forall text : list N,
    Forall (fun c => (32 <= c <= 126)%N) text ->
    binary_to_text (text_to_binary text) = Ret (text_string text).
Proof. exact codec_round_trip. Qed.

Lemma codec_round_trip_printable_witness :
  binary_to_text (text_to_binary (py_str "Hi there!")) = Ret "Hi there!".
Proof.
  apply (codec_round_trip_printable (py_str "Hi there!")).
  repeat constructor; discriminate.
Defined.

(** X2. For a text of code points up to 255, the bits have 8 symbols per
    character, and decoding them gives each printable character back and
    the bracketed decimal code for every other one. *)
Theorem codec_bytes_placeholders :
  forall text : list N,
    Forall (fun c => (c <= 255)%N) text ->
    String.length (text_to_binary text) = (8 * List.length text)%nat
    /\ binary_to_text (text_to_binary text)
       = Ret (String.concat "" (map render_code text)).
Proof.
  intros text H. split.
  - now apply text_to_binary_length.
  - now apply binary_to_text_of_codes.
Qed.

Lemma codec_bytes_placeholders_witness :
  String.length (text_to_binary [72; 7; 200]%N) = 24%nat
  /\ binary_to_text (text_to_binary [72; 7; 200]%N) = Ret "H[7][200]".
Proof.
  apply (codec_bytes_placeholders [72; 7; 200]%N).
  repeat constructor; discriminate.
Defined.

(** X3. The classifier as intervals: START exactly on (450, 550), END on
    (2950, 3050), 0 on (950, 1050), 1 on (1950, 2050), NOISE everywhere
    else. *)
Theorem classify_frequency_intervals :
  forall freq : Q,
    (classify_frequency freq = START <-> (450 < freq /\ freq < 550)%Q)
    /\ (classify_frequency freq = END <-> (2950 < freq /\ freq < 3050)%Q)
    /\ (classify_frequency freq = ZERO <-> (950 < freq /\ freq < 1050)%Q)
    /\ (classify_frequency freq = ONE <-> (1950 < freq /\ freq < 2050)%Q)
    /\ (classify_frequency freq = NOISE <->
        ((freq <= 450 \/ 550 <= freq) /\ (freq <= 950 \/ 1050 <= freq)
         /\ (freq <= 1950 \/ 2050 <= freq) /\ (freq <= 2950 \/ 3050 <= freq))%Q).
Proof. exact classify_intervals. Qed.

End FurtherCodec.

Section FurtherReceiver.
Import Sender Receiver CodecSpec.

(** X4. The dominant-frequency detector returns 0 for an empty chunk and
    raises for a chunk of a single sample, whose half spectrum is empty:
    [ValueError], or [ZeroDivisionError] when the sample rate is 0. *)
Theorem detector_degenerate_chunks :
  forall (cfg : config) (x : R),
    detect_dominant_frequency cfg [] = Ret 0%Q
    /\ magnitude_spectrum [x] = []
    /\ detect_dominant_frequency cfg [x]
       = Raise (if sample_rate cfg =? 0 then ZeroDivisionError else ValueError).
Proof.
  intros cfg x. split; [reflexivity|]. split; [reflexivity|].
  apply detect_single_sample.
Qed.

(** X5. When the chunk size [int(sample_rate * bit_duration)] is 0,
    [process_audio] raises [ValueError] whatever the buffer (a range with
    step 0); with a negative chunk size it finds no chunk and reports that
    there is no START signal, as it does for an empty buffer with a
    positive chunk size; when the product is not a finite float it raises
    [OverflowError]. *)
Theorem receiver_small_chunk_sizes :
  forall (cfg : config) (audio : list R),
    (int_of_product (sample_rate cfg) (bit_duration cfg) = Ret 0 ->
     process_audio cfg audio = Raise ValueError)
    /\ (forall samples_per_bit : Z,
          int_of_product (sample_rate cfg) (bit_duration cfg) = Ret samples_per_bit ->
          samples_per_bit < 0 ->
          process_audio cfg audio = Ret (Failed NoStartSignal))
    /\ (forall samples_per_bit : Z,
          int_of_product (sample_rate cfg) (bit_duration cfg) = Ret samples_per_bit ->
          0 < samples_per_bit ->
          process_audio cfg [] = Ret (Failed NoStartSignal))
    /\ (forall e : exn,
          int_of_product (sample_rate cfg) (bit_duration cfg) = Raise e ->
          process_audio cfg audio = Raise e).
Proof.
  intros cfg audio. split; [|split; [|split]].
  - apply process_audio_zero_chunk.
  - apply process_audio_negative_chunk.
  - apply process_audio_empty_buffer.
  - apply process_audio_overflow.
Qed.

Lemma receiver_small_chunk_sizes_witness :
  process_audio (Config 44100 (float_literal (1 # 100000))) [1%R; 0%R]
  = Raise ValueError
  /\ process_audio (Config 44100 (float_literal (-1 # 10))) [1%R; 0%R]
     = Ret (Failed NoStartSignal)
  /\ process_audio (Config 48000 (float_literal (1 # 48000))) []
     = Ret (Failed NoStartSignal)
  /\ process_audio (Config 44100 (pow2 1020)) [1%R; 0%R] = Raise OverflowError.
Proof.
  split; [|split; [|split]].
  - apply (proj1 (receiver_small_chunk_sizes
                    (Config 44100 (float_literal (1 # 100000))) [1%R; 0%R])).
    vm_compute. reflexivity.
  - apply (proj1 (proj2 (receiver_small_chunk_sizes
                           (Config 44100 (float_literal (-1 # 10))) [1%R; 0%R]))
             (-4410)).
    + vm_compute. reflexivity.
    + lia.
  - apply (proj1 (proj2 (proj2 (receiver_small_chunk_sizes
                                  (Config 48000 (float_literal (1 # 48000))) [])))
             1).
    + vm_compute. reflexivity.
    + lia.
  - apply (proj2 (proj2 (proj2 (receiver_small_chunk_sizes
                                  (Config 44100 (pow2 1020)) [1%R; 0%R])))).
    vm_compute. reflexivity.
Defined.

(** X6. With a chunk size of 1 every chunk holds a single sample, and
    [process_audio] raises [ValueError] on every non-empty buffer. *)
Theorem receiver_unit_chunk_raises :
  forall (cfg : config) (x : R) (audio : list R),
    int_of_product (sample_rate cfg) (bit_duration cfg) = Ret 1 ->
    process_audio cfg (x :: audio) = Raise ValueError.
Proof. exact process_audio_unit_chunk. Qed.

Lemma receiver_unit_chunk_raises_witness :
  process_audio (Config 48000 (float_literal (1 # 48000))) [1%R; 0%R; 1%R]
  = Raise ValueError.
Proof.
  apply (receiver_unit_chunk_raises (Config 48000 (float_literal (1 # 48000)))
           1%R [0%R; 1%R]).
  vm_compute. reflexivity.
Defined.

(** X7. Decoding a classification sequence has three outcomes only: no
    START signal, exactly when no chunk is START; no data bits; or a
    message, which is never empty. The conversion of the extracted bits
    never fails. *)
Theorem decode_outcomes_exhaustive :
  forall cls : list (Q * classification),
    (decode_classifications cls = Failed NoStartSignal
     /\ Forall (fun entry => snd entry <> START) cls)
    \/ (decode_classifications cls = Failed EmptyPayload
        /\ Exists (fun entry => snd entry = START) cls)
    \/ (exists message,
           decode_classifications cls = Message message
           /\ message <> ""
           /\ Exists (fun entry => snd entry = START) cls).
Proof. exact decode_outcomes. Qed.

(** X8. The boundary loop splits the sequence at its first START chunk,
    and what follows at the first END chunk after it; without START it
    finds nothing, without END after START it finds the start only. *)
Theorem boundary_search_split :
  forall cls : list (Q * classification),
    (Forall (fun entry => snd entry <> START) cls
     /\ find_boundaries cls 0 None = (None, None))
    \/ (exists pre fs after,
           cls = (pre ++ (fs, START) :: after)%list
           /\ Forall (fun entry => snd entry <> START) pre
           /\ ((Forall (fun entry => snd entry <> END) after
                /\ find_boundaries cls 0 None = (Some (List.length pre), None))
               \/ (exists mid fe tl,
                      after = (mid ++ (fe, END) :: tl)%list
                      /\ Forall (fun entry => snd entry <> END) mid
                      /\ find_boundaries cls 0 None
                         = (Some (List.length pre),
                            Some (List.length pre + 1 + List.length mid)%nat)))).
Proof. intros cls. exact (find_boundaries_split cls 0). Qed.

(** X9. The two trimming loops only drop NOISE chunks, and the payload
    window they leave, when it is not empty, begins and ends with a chunk
    that is not NOISE. *)
Theorem payload_window_trimmed :
  forall (cls : list (Q * classification)) (start_idx end_idx : nat),
    (end_idx <= List.length cls)%nat ->
    (start_idx + 1 <= skip_noise_after (List.length cls) cls (start_idx + 1))%nat
    /\ (skip_noise_before cls
          (skip_noise_after (List.length cls) cls (start_idx + 1)) end_idx
        <= end_idx)%nat
    /\ (forall j,
           (start_idx + 1 <= j
            < skip_noise_after (List.length cls) cls (start_idx + 1))%nat ->
           class_at cls j = NOISE)
    /\ (forall j,
           (skip_noise_before cls
              (skip_noise_after (List.length cls) cls (start_idx + 1)) end_idx
            <= j < end_idx)%nat ->
           class_at cls j = NOISE)
    /\ ((skip_noise_after (List.length cls) cls (start_idx + 1)
         < skip_noise_before cls
             (skip_noise_after (List.length cls) cls (start_idx + 1)) end_idx)%nat ->
        class_at cls (skip_noise_after (List.length cls) cls (start_idx + 1))
        <> NOISE
        /\ class_at cls
             (skip_noise_before cls
                (skip_noise_after (List.length cls) cls (start_idx + 1)) end_idx
              - 1)
           <> NOISE).
Proof. intros cls start_idx end_idx H. exact (payload_window cls start_idx end_idx H). Qed.

Lemma payload_window_trimmed_witness :
  skip_noise_after 6
    [(500%Q, START); (0%Q, NOISE); (1000%Q, ZERO); (2000%Q, ONE);
     (0%Q, NOISE); (3000%Q, END)] 1 = 2%nat
  /\ class_at [(500%Q, START); (0%Q, NOISE); (1000%Q, ZERO); (2000%Q, ONE);
               (0%Q, NOISE); (3000%Q, END)] 2 <> NOISE.
Proof.
  split; [reflexivity|].
  apply (payload_window_trimmed
           [(500%Q, START); (0%Q, NOISE); (1000%Q, ZERO); (2000%Q, ONE);
            (0%Q, NOISE); (3000%Q, END)] 0 5).
  - simpl. lia.
  - vm_compute. lia.
Defined.

End FurtherReceiver.

Section FurtherFrames.
Import Sender Receiver CodecSpec.

(** X10. A frame whose START tone fills one chunk is decoded to its
    payload: chunks without START, the START chunk, any NOISE chunks, a
    non-empty run of 0 and 1 chunks, any NOISE chunks, then the end of the
    buffer or an END chunk. The NOISE around the payload is dropped, and a
    missing END tone does not prevent decoding. *)
Theorem framed_payload_decodes :
  forall (fs : Q) (pre lead payload trail rest : list (Q * classification)),
    Forall (fun entry => snd entry <> START) pre ->
    Forall (fun entry => snd entry = NOISE) lead ->
    Forall (fun entry => snd entry = ZERO \/ snd entry = ONE) payload ->
    payload <> [] ->
    Forall (fun entry => snd entry = NOISE) trail ->
    (rest = [] \/ exists fe tl, rest = (fe, END) :: tl) ->
    decode_classifications (pre ++ (fs, START) :: lead ++ payload ++ trail ++ rest)
    = Message (decode (String.concat "" (map chunk_bits payload))).
Proof. exact decode_framed_payload. Qed.

Lemma framed_payload_decodes_witness :
  decode_classifications
    ([(0%Q, NOISE); (3000%Q, END)]
     ++ (500%Q, START)
        :: [(0%Q, NOISE)]
        ++ [(1000%Q, ZERO); (2000%Q, ONE); (1000%Q, ZERO); (1000%Q, ZERO);
            (1000%Q, ZERO); (1000%Q, ZERO); (1000%Q, ZERO); (2000%Q, ONE)]
        ++ [(0%Q, NOISE); (0%Q, NOISE)] ++ [])
  = Message "A".
Proof.
  rewrite (framed_payload_decodes 500%Q
             [(0%Q, NOISE); (3000%Q, END)] [(0%Q, NOISE)]
             [(1000%Q, ZERO); (2000%Q, ONE); (1000%Q, ZERO); (1000%Q, ZERO);
              (1000%Q, ZERO); (1000%Q, ZERO); (1000%Q, ZERO); (2000%Q, ONE)]
             [(0%Q, NOISE); (0%Q, NOISE)] []).
  - reflexivity.
  - repeat constructor; simpl; discriminate.
  - repeat constructor.
  - repeat (apply Forall_cons || apply Forall_nil); simpl; auto.
  - discriminate.
  - repeat constructor.
  - now left.
Defined.

(** X11. The sender's bits for a non-empty text of printable ASCII, framed
    by a START occupying one chunk, come back from the decoder as the text
    that was sent. *)
Theorem framed_text_round_trip :
  forall (fs : Q) (text : list N) (pre lead trail rest : list (Q * classification)),
    text <> [] ->
    Forall (fun c => (32 <= c <= 126)%N) text ->
    Forall (fun entry => snd entry <> START) pre ->
    Forall (fun entry => snd entry = NOISE) lead ->
    Forall (fun entry => snd entry = NOISE) trail ->
    (rest = [] \/ exists fe tl, rest = (fe, END) :: tl) ->
    decode_classifications
      (pre ++ (fs, START) :: lead ++ bit_chunks (text_to_binary text) ++ trail ++ rest)
    = Message (text_string text).
Proof. exact decode_framed_text. Qed.

Lemma framed_text_round_trip_witness :
  decode_classifications
    ([] ++ (500%Q, START)
        :: [(0%Q, NOISE)] ++ bit_chunks (text_to_binary (py_str "HI"))
        ++ [(0%Q, NOISE)] ++ [(3000%Q, END)])
  = Message "HI".
Proof.
  apply (framed_text_round_trip 500%Q (py_str "HI") [] [(0%Q, NOISE)]
           [(0%Q, NOISE)] [(3000%Q, END)]).
  - discriminate.
  - repeat constructor; discriminate.
  - constructor.
  - repeat constructor.
  - repeat constructor.
  - right. exists 3000%Q, []. reflexivity.
Defined.

(** X12. A frame with nothing but NOISE between its START chunk and its
    end (an END chunk or the end of the buffer) gives no data bits. *)
Theorem empty_frame_fails :
  forall (fs : Q) (pre lead rest : list (Q * classification)),
    Forall (fun entry => snd entry <> START) pre ->
    Forall (fun entry => snd entry = NOISE) lead ->
    (rest = [] \/ exists fe tl, rest = (fe, END) :: tl) ->
    decode_classifications (pre ++ (fs, START) :: lead ++ rest)
    = Failed EmptyPayload.
Proof. exact decode_empty_frame. Qed.

Lemma empty_frame_fails_witness :
  decode_classifications
    ([(1000%Q, ZERO)] ++ (500%Q, START) :: [(0%Q, NOISE); (1300%Q, NOISE)]
     ++ [(3000%Q, END); (1000%Q, ZERO)])
  = Failed EmptyPayload.
Proof.
  apply (empty_frame_fails 500%Q [(1000%Q, ZERO)] [(0%Q, NOISE); (1300%Q, NOISE)]
           [(3000%Q, END); (1000%Q, ZERO)]).
  - repeat constructor; simpl; discriminate.
  - repeat constructor.
  - right. exists 3000%Q, [(1000%Q, ZERO)]. reflexivity.
Defined.

(** X13. When the START tone fills two chunks, as in the sender's frame at
    0.1 s per chunk, the silence after it is decoded as a 0 bit in front
    of the payload, and the text received is longer than the text sent. *)
Theorem two_chunk_start_shifts_payload :
  forall text : list N,
    text <> [] ->
    Forall (fun c => (c <= 255)%N) text ->
    decode_classifications (nominal_frame (text_to_binary text))
    = Message (decode ("0" ++ text_to_binary text))
    /\ (List.length text
        < String.length (decode ("0" ++ text_to_binary text)))%nat.
Proof.
  intros text Hne Hc.
  assert (Hl : String.length (text_to_binary text) = (8 * List.length text)%nat)
    by (now apply text_to_binary_length).
  split.
  - apply decode_nominal_frame; [now apply text_to_binary_binary|].
    intros E. rewrite E in Hl. destruct text; [congruence|simpl in Hl; lia].
  - pose proof (shifted_payload_length _ _ Hl). lia.
Qed.

Lemma two_chunk_start_shifts_payload_witness :
  decode_classifications (nominal_frame (text_to_binary (py_str "A")))
  = Message (decode ("0" ++ text_to_binary (py_str "A")))
  /\ (List.length (py_str "A")
      < String.length (decode ("0" ++ text_to_binary (py_str "A"))))%nat.
Proof.
  apply (two_chunk_start_shifts_payload (py_str "A")).
  - discriminate.
  - repeat constructor; discriminate.
Defined.

End FurtherFrames.

Section FurtherChunks.
Import Sender Receiver CodecSpec.

(** X14. For a positive chunk size the receiver's chunks are consecutive
    pieces of the buffer: every chunk but the last has exactly the chunk
    size, each kept chunk is at least half full, and only a final piece
    shorter than half a chunk is left out. *)
Theorem chunks_cover_buffer :
  forall (chunk_size : Z) (audio : list R),
    0 < chunk_size ->
    exists chunks tail,
      split_chunks chunk_size audio = Ret chunks
      /\ audio = (List.concat chunks ++ tail)%list
      /\ Forall (fun chunk =>
                   (1 <= List.length chunk <= Z.to_nat chunk_size)%nat
                   /\ (Z.to_nat chunk_size / 2 <= List.length chunk)%nat) chunks
      /\ Forall (fun chunk => List.length chunk = Z.to_nat chunk_size)
                (removelast chunks)
      /\ (tail = [] \/ (List.length tail < Z.to_nat chunk_size / 2)%nat).
Proof.
  intros chunk_size audio Hc. unfold split_chunks.
  destruct (chunk_size =? 0) eqn:E0; [apply Z.eqb_eq in E0; lia|].
  destruct (chunk_size <? 0) eqn:E1; [apply Z.ltb_lt in E1; lia|].
  destruct (kept_chunks_cover (Z.to_nat chunk_size) (List.length audio) audio)
    as [chunks [tail [Ec H]]]; [lia|lia|].
  exists chunks, tail. split; [now rewrite Ec|exact H].
Qed.

Lemma chunks_cover_buffer_witness :
  exists chunks tail,
    split_chunks 4 [1; 2; 3; 4; 5; 6; 7; 8; 9]%R = Ret chunks
    /\ [1; 2; 3; 4; 5; 6; 7; 8; 9]%R = (List.concat chunks ++ tail)%list
    /\ Forall (fun chunk =>
                 (1 <= List.length chunk <= Z.to_nat 4)%nat
                 /\ (Z.to_nat 4 / 2 <= List.length chunk)%nat) chunks
    /\ Forall (fun chunk => List.length chunk = Z.to_nat 4) (removelast chunks)
    /\ (tail = [] \/ (List.length tail < Z.to_nat 4 / 2)%nat).
Proof.
  apply (chunks_cover_buffer 4 [1; 2; 3; 4; 5; 6; 7; 8; 9]%R). reflexivity.
Defined.

(** X15. A buffer made of whole blocks of [chunk_size] samples is cut back
    into exactly those blocks. *)
Theorem aligned_buffer_chunks :
  forall (chunk_size : Z) (blocks : list (list R)),
    0 < chunk_size ->
    Forall (fun block => List.length block = Z.to_nat chunk_size) blocks ->
    split_chunks chunk_size (List.concat blocks) = Ret blocks.
Proof. exact split_chunks_blocks. Qed.

Lemma aligned_buffer_chunks_witness :
  split_chunks 2 (List.concat [[1; 2]; [3; 4]; [5; 6]]%R)
  = Ret [[1; 2]; [3; 4]; [5; 6]]%R.
Proof.
  apply (aligned_buffer_chunks 2 [[1; 2]; [3; 4]; [5; 6]]%R).
  - reflexivity.
  - repeat constructor.
Defined.


End FurtherChunks.

Section FurtherSender.
Import Sender Receiver CodecSpec.

(** X17. For every configuration and every text, once the sample counts
    [int(sample_rate * 0.2)], [int(sample_rate * 0.1)] and
    [int(sample_rate * bit_duration)] are known, the first positive and
    the others not negative, the signal has twice the samples of a 0.2 s
    tone, twice those of the 0.1 s silence, and one bit tone per binary
    digit of the text. The counts are those of the float products. *)
Theorem signal_length_formula :
  forall (cfg : config) (text : list N)
         (frame_samples silent_samples bit_samples : Z),
    int_of_product (sample_rate cfg) (float_literal (2 # 10)) = Ret frame_samples ->
    int_of_product (sample_rate cfg) (float_literal (1 # 10)) = Ret silent_samples ->
    int_of_product (sample_rate cfg) (bit_duration cfg) = Ret bit_samples ->
    0 < frame_samples ->
    0 <= silent_samples ->
    0 <= bit_samples ->
    exists signal,
      create_signal cfg text = Ret signal
      /\ Z.of_nat (List.length signal)
         = 2 * frame_samples
           + 2 * silent_samples
           + Z.of_nat (String.length (text_to_binary text)) * bit_samples.
Proof. exact create_signal_length. Qed.

Lemma signal_length_formula_witness :
  exists signal,
    create_signal (Config 44100 (float_literal (3 # 10))) (py_str "OK") = Ret signal
    /\ Z.of_nat (List.length signal) = 2 * 8820 + 2 * 4410 + 16 * 13230.
Proof.
  apply (signal_length_formula (Config 44100 (float_literal (3 # 10))) (py_str "OK")
           8820 4410 13230);
    try (vm_compute; reflexivity); lia.
Defined.

(** X18. Every sample of a signal returned by [create_signal] lies within
    [-0.8, 0.8], and as soon as one sample is not 0 some sample reaches
    0.8 in absolute value. *)
Theorem signal_is_normalised :
  forall (cfg : config) (text : list N) (signal : list R),
    create_signal cfg text = Ret signal ->
    Forall (fun x => (Rabs x <= 8 / 10)%R) signal
    /\ ((exists x, In x signal /\ x <> 0%R) ->
        exists y, In y signal /\ Rabs y = (8 / 10)%R).
Proof. exact create_signal_normalised. Qed.

Lemma signal_is_normalised_witness :
  exists signal,
    create_signal default_config (py_str "HI") = Ret signal
    /\ Forall (fun x => (Rabs x <= 8 / 10)%R) signal.
Proof.
  destruct (create_signal_length default_config (py_str "HI") 8820 4410 4410
              default_frame_samples default_silent_samples default_bit_samples)
    as [signal [Es _]]; try lia.
  exists signal. split; [exact Es|].
  exact (proj1 (signal_is_normalised default_config (py_str "HI") signal Es)).
Defined.

(** X19. Every sample of a tone lies within [-1, 1]. *)
Theorem tone_is_bounded :
  forall (cfg : config) (frequency : Z) (duration : Q) (tone : list R),
    generate_tone cfg frequency duration = Ret tone ->
    Forall (fun x => (Rabs x <= 1)%R) tone.
Proof. exact generate_tone_bounded. Qed.

Lemma tone_is_bounded_witness :
  exists tone,
    generate_tone default_config freq_1 (float_literal (1 # 10)) = Ret tone
    /\ Forall (fun x => (Rabs x <= 1)%R) tone.
Proof.
  destruct (generate_tone_samples default_config freq_1 (float_literal (1 # 10))
              4410 default_bit_samples)
    as [tone [Et _]]; [lia|].
  exists tone. split; [exact Et|].
  exact (tone_is_bounded default_config freq_1 (float_literal (1 # 10)) tone Et).
Defined.

(** X20. A tone of at least 20 samples begins and ends with a sample that
    is exactly 0: the fade ramps start the tone from 0 and bring it back
    to 0. *)
Theorem tone_fades_to_zero :
  forall (cfg : config) (frequency : Z) (duration : Q) (samples : Z)
         (tone : list R),
    int_of_product (sample_rate cfg) duration = Ret samples ->
    generate_tone cfg frequency duration = Ret tone ->
    20 <= samples ->
    hd 1%R tone = 0%R /\ last tone 1%R = 0%R.
Proof. exact generate_tone_ends. Qed.

Lemma tone_fades_to_zero_witness :
  exists tone,
    generate_tone default_config freq_0 (float_literal (1 # 10)) = Ret tone
    /\ hd 1%R tone = 0%R /\ last tone 1%R = 0%R.
Proof.
  destruct (generate_tone_samples default_config freq_0 (float_literal (1 # 10))
              4410 default_bit_samples)
    as [tone [Et _]]; [lia|].
  exists tone. split; [exact Et|].
  apply (tone_fades_to_zero default_config freq_0 (float_literal (1 # 10)) 4410 tone
           default_bit_samples Et).
  lia.
Defined.

(** X21. With a sample rate of 0 every segment is empty and
    [create_signal] raises [ValueError] for every text: the empty signal
    has no peak to normalise by. *)
Theorem create_signal_zero_rate_raises :
  forall (cfg : config) (text : list N),
    sample_rate cfg = 0 -> create_signal cfg text = Raise ValueError.
Proof. exact create_signal_zero_rate. Qed.

Lemma create_signal_zero_rate_raises_witness :
  create_signal (Config 0 (float_literal (1 # 10))) (py_str "HI") = Raise ValueError.
Proof.
  apply (create_signal_zero_rate_raises (Config 0 (float_literal (1 # 10))) (py_str "HI")).
  reflexivity.
Defined.

(** X22. [send_message] returns [False] for an empty or all-whitespace
    text and for a sample rate of 0, whatever the sound device does; when
    it returns [True] the text was not blank and the device has played
    the signal of [create_signal], whose samples all lie within
    [-0.8, 0.8]. *)
Theorem send_message_reports :
  forall (device : sound_device) (cfg : config) (text : list N),
    (forallb is_space text = true -> send_message device cfg text = false)
    /\ (sample_rate cfg = 0 -> send_message device cfg text = false)
    /\ (send_message device cfg text = true ->
        forallb is_space text = false
        /\ exists signal,
             create_signal cfg text = Ret signal
             /\ query_devices device = Done tt
             /\ play device signal (sample_rate cfg) = Done tt
             /\ Forall (fun x => (Rabs x <= 8 / 10)%R) signal).
Proof.
  intros device cfg text. split; [|split].
  - apply send_message_blank.
  - apply send_message_zero_rate.
  - apply send_message_played.
Qed.

Lemma send_message_reports_witness :
  send_message (SoundDevice (Done tt) (fun _ _ => Done tt) (fun _ _ => Done []))
               default_config [32; 9; 10]%N = false
  /\ send_message (SoundDevice (Done tt) (fun _ _ => Done tt) (fun _ _ => Done []))
                  (Config 0 (float_literal (1 # 10))) (py_str "HI") = false.
Proof.
  split.
  - apply (proj1 (send_message_reports
                    (SoundDevice (Done tt) (fun _ _ => Done tt) (fun _ _ => Done []))
                    default_config [32; 9; 10]%N)).
    reflexivity.
  - apply (proj1 (proj2 (send_message_reports
                    (SoundDevice (Done tt) (fun _ _ => Done tt) (fun _ _ => Done []))
                    (Config 0 (float_literal (1 # 10))) (py_str "HI")))).
    reflexivity.
Defined.

(** X23. [listen_for_message] returns a message exactly when the device
    calls succeed, the recorded buffer is not empty and [process_audio]
    decodes that message from it; the test [if message] never discards a
    decoded message, since a decoded message is never empty. *)
Theorem listen_returns_decoded :
  forall (device : sound_device) (cfg : config) (timeout : Z) (message : string),
    listen_for_message device cfg timeout = Some message
    <-> exists audio,
          query_devices device = Done tt
          /\ rec device (timeout * sample_rate cfg) (sample_rate cfg) = Done audio
          /\ audio <> []
          /\ process_audio cfg audio = Ret (Message message).
Proof. exact listen_returns. Qed.

End FurtherSender.
